(** * Sankey diagram flow graph: construction, layout, colouring, reachability

    A shallow embedding of the computation performed inside the effect of
    the [SankeyDiagram] component: the graph builder, the link tracking
    pass, the flow scale and node metadata, the dimensions of the drawing,
    the vertical layout with the per-node link stacking, the numbers of the
    link paths, the segment colourer, the breadth-first traversal that
    drives the hover highlighting of nodes and of links, the opacities and
    the stroke reset of the hover handlers, and the share shown in the link
    tooltip.  The SVG elements, the text of the tooltips and of the path
    strings, and the guard that skips the effect when the journeys, the SVG
    element or the domain are missing are not modelled.

    Modelling conventions.
    - JavaScript arrays are lists; an object stored in the [links] array and
      referenced from [node.incomingLinks] / [node.outgoingLinks] or from the
      traversal queue is represented by its index in [links], so that a write
      through one reference is seen through all of them.
    - [count] and link values are integers ([Z]).  Thicknesses, heights and
      coordinates are computed twice: in exact rationals ([Q], compared with
      [==]), on which the general properties are proved, and in the doubles
      of the code (module [Dbl], primitive binary64 floats), which are
      evaluated at explicit inputs.  A general property is stated only where
      its reading in doubles holds as well (orders, signs, bounds with room
      to spare, and equations that repeat the operations of the code in
      their order); what holds of the rationals only is shown to fail of
      the doubles at an explicit input.  The width of a step column is
      taken to be a finite number.
    - [Map] is an insertion-ordered association list, [Set<string>] is a
      [gset string].
    - Strings are [string]; the template literal [`${i}`] of a loop index is
      its decimal numeral ([pretty]).
    - A field that the source leaves undefined until a later pass sets it
      holds 0 (numbers) or [None] (the anchors of a link) until then. *)

From Stdlib Require Import ZArith QArith Qminmax Lqa Ascii PrimFloat.
From stdpp Require Import base list strings pretty gmap sorting.

Local Open Scope Z_scope.
#[local] Set Warnings "-clear-no-such-hyp".

(** ** Data model *)

Module Journey.
Record t := mk { path : list string; count : Z; percentage : Q }.
End Journey.

Module Link.
Record t := mk {
  source : string;
  target : string;
  value : Z;
  sourceY : option Q;
  targetY : option Q
}.
Definition add_value (c : Z) (l : t) : t :=
  mk (source l) (target l) (value l + c) (sourceY l) (targetY l).
Definition set_sourceY (v : Q) (l : t) : t :=
  mk (source l) (target l) (value l) (Some v) (targetY l).
Definition set_targetY (v : Q) (l : t) : t :=
  mk (source l) (target l) (value l) (sourceY l) (Some v).
End Link.

Module Node.
Record t := mk {
  id : string;
  name : string;
  step : nat;
  incomingLinks : list nat;
  outgoingLinks : list nat;
  height : Q;
  count : Z;
  percentage : Q;
  y : Q
}.
Definition push_outgoing (k : nat) (n : t) : t :=
  mk (id n) (name n) (step n) (incomingLinks n) (outgoingLinks n ++ [k])
     (height n) (count n) (percentage n) (y n).
Definition push_incoming (k : nat) (n : t) : t :=
  mk (id n) (name n) (step n) (incomingLinks n ++ [k]) (outgoingLinks n)
     (height n) (count n) (percentage n) (y n).
Definition set_meta (h : Q) (c : Z) (p : Q) (n : t) : t :=
  mk (id n) (name n) (step n) (incomingLinks n) (outgoingLinks n) h c p (y n).
Definition set_y (v : Q) (n : t) : t :=
  mk (id n) (name n) (step n) (incomingLinks n) (outgoingLinks n)
     (height n) (count n) (percentage n) v.
Definition set_link_lists (inc out : list nat) (n : t) : t :=
  mk (id n) (name n) (step n) inc out (height n) (count n) (percentage n) (y n).
End Node.

Record Graph := mkGraph { nodes : list Node.t; links : list Link.t }.

Definition MIN_LINK_HEIGHT : Q := 0.
Definition MAX_LINK_HEIGHT : Q := 100.
Definition MIN_NODE_HEIGHT : Q := 2.
Definition nodeGap : Q := 20.

(** ** Graph builder (lines 45-77) *)

(** [`${i}_${stepName}`] *)
Definition stepKey (i : nat) (stepName : string) : string :=
  pretty i +:+ "_" +:+ stepName.

(** [journeys.slice(0, maxJourneys)]: a negative end counts from the end of
    the array. *)
Definition slice0 {A} (l : list A) (stop : Z) : list A :=
  if decide (stop < 0)
  then take (Z.to_nat (Z.max (Z.of_nat (length l) + stop) 0)) l
  else take (Z.to_nat stop) l.

(** [if (!nodes.find(n => n.id === stepKey)) nodes.push({...})] *)
Definition ensure_node (i : nat) (stepName : string) (ns : list Node.t)
  : list Node.t :=
  match list_find (λ n, Node.id n = stepKey i stepName) ns with
  | Some _ => ns
  | None => ns ++ [Node.mk (stepKey i stepName) stepName i [] [] 0%Q 0 0%Q 0%Q]
  end.

(** [existingLink ? existingLink.value += count : links.push({...})] *)
Definition add_link (sourceKey targetKey : string) (c : Z) (ls : list Link.t)
  : list Link.t :=
  match list_find (λ l, Link.source l = sourceKey ∧ Link.target l = targetKey) ls with
  | Some (k, _) => alter (Link.add_value c) k ls
  | None => ls ++ [Link.mk sourceKey targetKey c None None]
  end.

(** Body of the [for] loop at index [i] of one journey. *)
Definition visit_step (journey : Journey.t) (g : Graph) (i : nat) : Graph :=
  match Journey.path journey !! i with
  | None => g
  | Some stepName =>
      let ns := ensure_node i stepName (nodes g) in
      let ls :=
        if decide (i < length (Journey.path journey) - 1)%nat then
          match Journey.path journey !! (i + 1)%nat with
          | Some next =>
              add_link (stepKey i stepName) (stepKey (i + 1) next)
                       (Journey.count journey) (links g)
          | None => links g
          end
        else links g in
      mkGraph ns ls
  end.

Definition visit_journey (g : Graph) (journey : Journey.t) : Graph :=
  foldl (visit_step journey) g (seq 0 (length (Journey.path journey))).

Definition build (journeys : list Journey.t) (maxJourneys : Z) : Graph :=
  foldl visit_journey (mkGraph [] []) (slice0 journeys maxJourneys).

(** ** Link tracking (lines 83-89) *)

Definition find_node (key : string) (ns : list Node.t) : option (nat * Node.t) :=
  list_find (λ n, Node.id n = key) ns.

(** One iteration of [links.forEach]; [kl.1] is the reference to the link. *)
Definition track_link (ns : list Node.t) (kl : nat * Link.t) : list Node.t :=
  let sourceNode := find_node (Link.source kl.2) ns in
  let targetNode := find_node (Link.target kl.2) ns in
  let ns1 :=
    match sourceNode with
    | Some (p, _) => alter (Node.push_outgoing kl.1) p ns
    | None => ns
    end in
  match targetNode with
  | Some (p, _) => alter (Node.push_incoming kl.1) p ns1
  | None => ns1
  end.

Definition track_links (ns : list Node.t) (ls : list Link.t) : list Node.t :=
  foldl track_link ns (zip (seq 0 (length ls)) ls).

(** ** Flow scale and node metadata (lines 92-106) *)

(** [d3.max(values)]: [undefined] on an empty array. *)
Definition d3_max (vs : list Z) : option Z :=
  match vs with
  | [] => None
  | v :: vs' => Some (foldl Z.max v vs')
  end.

(** [d3.max(links, link => link.value) || 1] *)
Definition maxLinkValue (ls : list Link.t) : Z :=
  match d3_max (Link.value <$> ls) with
  | Some m => if decide (m = 0) then 1 else m
  | None => 1
  end.

(** [d3.scaleLinear().domain([0, maxLinkValue]).range([MIN, MAX])]: the
    unclamped linear interpolation. *)
Definition linkWidthScale (mx : Z) (v : Z) : Q :=
  (MIN_LINK_HEIGHT
   + (inject_Z v - 0) / (inject_Z mx - 0) * (MAX_LINK_HEIGHT - MIN_LINK_HEIGHT))%Q.

(** The value of the link a reference points to. *)
Definition link_value (ls : list Link.t) (k : nat) : Z :=
  default 0 (Link.value <$> ls !! k).

(** [refs.reduce((sum, link) => sum + link.value, 0)] *)
Definition sum_values (ls : list Link.t) (ks : list nat) : Z :=
  foldl (λ sum k, sum + link_value ls k) 0 ks.

Definition node_meta (journeys : list Journey.t) (ls : list Link.t) (mx : Z)
    (node : Node.t) : Node.t :=
  let incomingValue := sum_values ls (Node.incomingLinks node) in
  let outgoingValue := sum_values ls (Node.outgoingLinks node) in
  let maxValue := Z.max incomingValue outgoingValue in
  let h := Qmax (linkWidthScale mx maxValue) MIN_NODE_HEIGHT in
  let c := if decide (Node.step node = 0%nat) then outgoingValue else incomingValue in
  let matchingJourney :=
    list_find (λ j, Journey.path j !! Node.step node = Some (Node.name node))
              journeys in
  let p :=
    match matchingJourney with
    | Some (_, j) => Journey.percentage j
    | None => 0%Q
    end in
  Node.set_meta h c p node.

(** ** Node positions (lines 80, 133-143) *)

(** [d3.group(nodes, d => d.step)]: an insertion-ordered map from step to the
    array of (references to) the nodes of that step. *)
Definition group_push (m : list (nat * list nat)) (pn : nat * Node.t)
  : list (nat * list nat) :=
  match list_find (λ e, e.1 = Node.step pn.2) m with
  | Some (i, _) => alter (λ e, (e.1, e.2 ++ [pn.1])) i m
  | None => m ++ [(Node.step pn.2, [pn.1])]
  end.

Definition nodesByStep (ns : list Node.t) : list (nat * list nat) :=
  foldl group_push [] (zip (seq 0 (length ns)) ns).

(** Inner [stepNodes.forEach]: the state is the node array and [currentY]. *)
Definition place_node (st : list Node.t * Q) (p : nat) : list Node.t * Q :=
  match st.1 !! p with
  | Some node =>
      (alter (Node.set_y (st.2 + Node.height node / 2)%Q) p st.1,
       (st.2 + (Node.height node + nodeGap))%Q)
  | None => st
  end.

Definition position_nodes (ns : list Node.t) : list Node.t :=
  foldl (λ ns' e, (foldl place_node (ns', 0%Q) e.2).1) ns (nodesByStep ns).

(** ** Link positions (lines 146-167) *)

(** [refs.sort((a, b) => b.value - a.value)].  The sort of the language is
    stable, so its result is the one of any stable sort; insertion of each
    element in front of the sorted rest is one. *)
Fixpoint insert_desc (ls : list Link.t) (k : nat) (ks : list nat) : list nat :=
  match ks with
  | [] => [k]
  | k' :: ks' =>
      if decide (link_value ls k' - link_value ls k <= 0)
      then k :: k' :: ks'
      else k' :: insert_desc ls k ks'
  end.

Definition sort_desc (ls : list Link.t) (ks : list nat) : list nat :=
  foldr (insert_desc ls) [] ks.

(** [refs.forEach(link => { linkHeight = scale(link.value);
      link.Y = currentY + linkHeight / 2; currentY += linkHeight })] *)
Fixpoint stack (set : Q → Link.t → Link.t) (mx : Z) (ks : list nat)
    (currentY : Q) (ls : list Link.t) : list Link.t :=
  match ks with
  | [] => ls
  | k :: ks' =>
      let linkHeight := linkWidthScale mx (link_value ls k) in
      stack set mx ks' (currentY + linkHeight)%Q
            (alter (set (currentY + linkHeight / 2)%Q) k ls)
  end.

Definition position_links_node (mx : Z) (ls : list Link.t) (node : Node.t)
  : Node.t * list Link.t :=
  let inc := sort_desc ls (Node.incomingLinks node) in
  let out := sort_desc ls (Node.outgoingLinks node) in
  let outStartY := (Node.y node - Node.height node / 2)%Q in
  let ls1 := stack Link.set_sourceY mx out outStartY ls in
  let inStartY := (Node.y node - Node.height node / 2)%Q in
  let ls2 := stack Link.set_targetY mx inc inStartY ls1 in
  (Node.set_link_lists inc out node, ls2).

Fixpoint position_links (mx : Z) (ns : list Node.t) (ls : list Link.t) : Graph :=
  match ns with
  | [] => mkGraph [] ls
  | node :: ns' =>
      let '(node', ls') := position_links_node mx ls node in
      let g := position_links mx ns' ls' in
      mkGraph (node' :: nodes g) (links g)
  end.

(** ** The whole pass *)

Definition SankeyDiagram (journeys : list Journey.t) (maxJourneys : Z) : Graph :=
  let g := build journeys maxJourneys in
  let ns1 := track_links (nodes g) (links g) in
  let mx := maxLinkValue (links g) in
  let ns2 := node_meta journeys (links g) mx <$> ns1 in
  let ns3 := position_nodes ns2 in
  position_links mx ns3 (links g).

(** ** Reachability (lines 170-199) *)

(** Outcome of a loop run with a step budget.  [TypeError] is the reading of
    a field of [undefined]; [OutOfFuel] is a budget that did not suffice. *)
Inductive outcome (A : Type) : Type :=
  | Done (a : A)
  | TypeError
  | OutOfFuel.
Arguments Done {A} a.
Arguments TypeError {A}.
Arguments OutOfFuel {A}.

Definition bind {A B} (m : outcome A) (f : A → outcome B) : outcome B :=
  match m with
  | Done a => f a
  | TypeError => TypeError
  | OutOfFuel => OutOfFuel
  end.

Inductive direction := forward | backward.

(** [`${link.source}|||${link.target}`] *)
Definition linkId (l : Link.t) : string :=
  Link.source l +:+ "|||" +:+ Link.target l.

(** The references pushed on the queue after [currentLink] was recorded. *)
Definition next_links (g : Graph) (dir : direction) (currentLink : Link.t)
  : list nat :=
  match dir with
  | forward =>
      match find_node (Link.target currentLink) (nodes g) with
      | Some (_, targetNode) => Node.outgoingLinks targetNode
      | None => []
      end
  | backward =>
      match find_node (Link.source currentLink) (nodes g) with
      | Some (_, sourceNode) => Node.incomingLinks sourceNode
      | None => []
      end
  end.

(** The [while (queue.length > 0)] loop; one unit of fuel per iteration. *)
Fixpoint bfs (fuel : nat) (g : Graph) (dir : direction) (queue : list nat)
    (visited : gset string) (connectedLinks : list nat) : outcome (list nat) :=
  match queue with
  | [] => Done connectedLinks
  | k :: queue' =>
      match fuel with
      | O => OutOfFuel
      | S fuel' =>
          match links g !! k with
          | None => TypeError
          | Some currentLink =>
              if decide (linkId currentLink ∈ visited)
              then bfs fuel' g dir queue' visited connectedLinks
              else bfs fuel' g dir (queue' ++ next_links g dir currentLink)
                       ({[linkId currentLink]} ∪ visited)
                       (connectedLinks ++ [k])
          end
      end
  end.

(** Number of link references held by the nodes. *)
Definition degree_sum (ns : list Node.t) : nat :=
  sum_list ((λ n, length (Node.incomingLinks n) + length (Node.outgoingLinks n))%nat
            <$> ns).

(** A budget that always suffices (see [bfs_fuel_enough]). *)
Definition bfs_fuel (g : Graph) : nat :=
  (2 + length (links g) * (degree_sum (nodes g) + 1))%nat.

Definition findAllConnectedPaths (g : Graph) (startLink : nat) (dir : direction)
  : outcome (list nat) :=
  bfs (bfs_fuel g) g dir [startLink] ∅ [].

(** ** Node hover highlighting (lines 365-404) *)

(** [links.filter(link => link.source === nodeId || link.target === nodeId)] *)
Definition directLinks (g : Graph) (nodeId : string) : list nat :=
  fst <$> filter (λ kl, Link.source kl.2 = nodeId ∨ Link.target kl.2 = nodeId)
                 (zip (seq 0 (length (links g))) (links g)).

(** Body of [directLinks.forEach]: the link itself, then both traversals. *)
Definition gather_link (g : Graph) (acc : outcome (list nat)) (link : nat)
  : outcome (list nat) :=
  bind acc (λ allConnectedLinks,
  bind (findAllConnectedPaths g link forward) (λ forwardPaths,
  bind (findAllConnectedPaths g link backward) (λ backwardPaths,
  Done (allConnectedLinks ++ [link] ++ forwardPaths ++ backwardPaths)))).

Definition allConnectedLinks (g : Graph) (nodeId : string) : outcome (list nat) :=
  foldl (gather_link g) (Done []) (directLinks g nodeId).

(** The two highlight sets: [connectedLinkIds] and [connectedNodeIds]. *)
Record Highlight := mkHighlight {
  connectedLinkIds : gset string;
  connectedNodeIds : gset string
}.

Definition collect_link (g : Graph) (acc : outcome Highlight) (k : nat)
  : outcome Highlight :=
  bind acc (λ h,
  match links g !! k with
  | None => TypeError
  | Some link =>
      Done (mkHighlight ({[linkId link]} ∪ connectedLinkIds h)
                        ({[Link.target link]} ∪ ({[Link.source link]}
                           ∪ connectedNodeIds h)))
  end).

Definition node_mouseenter (g : Graph) (nodeId : string) : outcome Highlight :=
  bind (allConnectedLinks g nodeId) (λ all,
  foldl (collect_link g) (Done (mkHighlight ∅ {[nodeId]})) all).

(** ** Segment colours (lines 223-269) *)

(** [s.split("/")] *)
Fixpoint split_slash (s : string) : list string :=
  match s with
  | EmptyString => [""]
  | String c s' =>
      if decide (c = "/"%char) then "" :: split_slash s'
      else match split_slash s' with
           | [] => [String c ""]
           | w :: ws => String c w :: ws
           end
  end.

Definition getFirstSegment (path : string) : string :=
  let segments := filter (λ w, w ≠ "") (split_slash path) in
  match segments with
  | seg :: _ => "/" +:+ seg
  | [] => path
  end.

(** [Map<string, V>] with its iteration (insertion) order. *)
Definition map_get {V} (m : list (string * V)) (key : string) : option V :=
  (λ ie : nat * (string * V), ie.2.2) <$> list_find (λ e, e.1 = key) m.

Definition map_set {V} (m : list (string * V)) (key : string) (v : V)
  : list (string * V) :=
  match list_find (λ e, e.1 = key) m with
  | Some (i, _) => <[i := (key, v)]> m
  | None => m ++ [(key, v)]
  end.

(** [segmentCounts.set(segment, (segmentCounts.get(segment) || 0) + 1)] *)
Definition count_segment (m : list (string * nat)) (node : Node.t)
  : list (string * nat) :=
  let segment := getFirstSegment (Node.name node) in
  map_set m segment (default 0%nat (map_get m segment) + 1)%nat.

Definition segmentCounts (ns : list Node.t) : list (string * nat) :=
  foldl count_segment [] ns.

Definition colorPalette : list string :=
  [ "hsl(160, 45%, 40%)"; "hsl(220, 45%, 50%)"; "hsl(270, 40%, 50%)";
    "hsl(25, 50%, 50%)"; "hsl(340, 40%, 50%)"; "hsl(190, 45%, 45%)";
    "hsl(45, 45%, 50%)"; "hsl(0, 45%, 50%)" ].
Definition defaultColor : string := "hsl(0, 0%, 50%)".

(** Body of [segmentCounts.forEach]; the state carries [colorIndex].  The
    palette index is always in range, the empty string stands for the
    [undefined] of an index out of range. *)
Definition assign_color (st : list (string * string) * nat) (e : string * nat)
  : list (string * string) * nat :=
  if decide (1 < e.2)%nat then
    (map_set st.1 e.1
       (default "" (colorPalette !! (st.2 `mod` length colorPalette)%nat)),
     (st.2 + 1)%nat)
  else st.

Definition segmentColors (ns : list Node.t) : list (string * string) :=
  (foldl assign_color ([], 0%nat) (segmentCounts ns)).1.

(** [segmentColors.get(segment) || defaultColor]: the empty string is falsy. *)
Definition getNodeColor (ns : list Node.t) (node : Node.t) : string :=
  match map_get (segmentColors ns) (getFirstSegment (Node.name node)) with
  | Some c => if decide (c = "") then defaultColor else c
  | None => defaultColor
  end.

(** [linkColor] is the theme colour used when the source node is missing. *)
Definition getLinkColor (linkColor : string) (g : Graph) (d : Link.t) : string :=
  match find_node (Link.source d) (nodes g) with
  | Some (_, sourceNode) => getNodeColor (nodes g) sourceNode
  | None => linkColor
  end.

(** ** Dimensions (lines 108-124) *)

Definition nodeWidth : Q := 30.
Definition minHeight : Q := 200.
Definition verticalPadding : Q := 10.

(** The height of the node a reference points to. *)
Definition node_height (ns : list Node.t) (p : nat) : Q :=
  default 0%Q (Node.height <$> ns !! p).

(** The total height needed for each step column. *)
Definition stepHeights (ns : list Node.t) : list Q :=
  (λ e : nat * list nat,
     (foldl (λ sum p, sum + node_height ns p) 0 e.2
      + (inject_Z (Z.of_nat (length e.2)) - 1) * nodeGap)%Q) <$> nodesByStep ns.

(** [Math.max(...values)]: [-Infinity], here [None], when there is no
    value. *)
Definition Math_max (vs : list Q) : option Q :=
  match vs with
  | [] => None
  | v :: vs' => Some (foldl Qmax v vs')
  end.

(** [Math.max(minHeight, maxStepHeight + verticalPadding * 2)]; with
    [-Infinity] for [maxStepHeight] the sum is [-Infinity] and the maximum is
    [minHeight]. *)
Definition svgHeight (ns : list Node.t) : Q :=
  match Math_max (stepHeights ns) with
  | Some maxStepHeight => Qmax minHeight (maxStepHeight + verticalPadding * 2)
  | None => minHeight
  end.

(** The nodes when the dimensions are computed: after the metadata pass and
    before the positions are set. *)
Definition measured (journeys : list Journey.t) (maxJourneys : Z) : list Node.t :=
  let g := build journeys maxJourneys in
  let ns1 := track_links (nodes g) (links g) in
  let mx := maxLinkValue (links g) in
  node_meta journeys (links g) mx <$> ns1.

(** The [height] attribute of the drawing. *)
Definition diagramHeight (journeys : list Journey.t) (maxJourneys : Z) : Q :=
  svgHeight (measured journeys maxJourneys).

(** ** Link paths (lines 202-220) *)

(** The numbers that [getLinkPath] writes in the path string
    [M sourceX,sourceY C controlPoint1X,sourceY controlPoint2X,targetY
    targetX,targetY]. *)
Module Path.
Record t := mk {
  sourceX : Q;
  sourceY : Q;
  controlPoint1X : Q;
  controlPoint2X : Q;
  targetX : Q;
  targetY : Q
}.
End Path.

(** [v || fallback] for a number [v] that may be undefined: 0 is falsy. *)
Definition or_else (v : option Q) (fallback : Q) : Q :=
  match v with
  | Some y => if Qeq_bool y 0 then fallback else y
  | None => fallback
  end.

Section link_path.
(** [stepWidth] is [width / steps]. *)
Variable stepWidth : Q.

Definition stepSpacing : Q := (stepWidth - nodeWidth)%Q.

(** [node.x], set to [step * stepWidth] for every node when the nodes are
    positioned (lines 134 and 138). *)
Definition node_x (n : Node.t) : Q :=
  (inject_Z (Z.of_nat (Node.step n)) * stepWidth)%Q.

(** [None] is the empty string returned when an end of the link is not a
    node. *)
Definition getLinkPath (g : Graph) (d : Link.t) : option Path.t :=
  match find_node (Link.source d) (nodes g), find_node (Link.target d) (nodes g) with
  | Some (_, source), Some (_, target) =>
      let sourceY := or_else (Link.sourceY d) (Node.y source) in
      let targetY := or_else (Link.targetY d) (Node.y target) in
      let sourceX := (node_x source + nodeWidth)%Q in
      let targetX := node_x target in
      let controlPoint1X := (sourceX + stepSpacing / 3)%Q in
      let controlPoint2X := (targetX - stepSpacing / 3)%Q in
      Some (Path.mk sourceX sourceY controlPoint1X controlPoint2X targetX targetY)
  | _, _ => None
  end.
End link_path.

(** ** Link hover highlighting (lines 449-475) *)

(** [d] is the reference to the hovered link; the list is
    [[d, ...forwardPaths, ...backwardPaths]]. *)
Definition link_mouseenter (g : Graph) (d : nat) : outcome Highlight :=
  bind (findAllConnectedPaths g d forward) (λ forwardPaths,
  bind (findAllConnectedPaths g d backward) (λ backwardPaths,
  foldl (collect_link g) (Done (mkHighlight ∅ ∅))
        (d :: forwardPaths ++ backwardPaths))).

(** ** Stroke reset when the pointer leaves (lines 424-431, 497-504) *)

(** [linkSource] is the [data-source] attribute of the drawn link. *)
Definition mouseleave_stroke (linkColor : string) (g : Graph) (linkSource : string)
  : string :=
  match list_find (λ l, Link.source l = linkSource) (links g) with
  | Some (_, link) => getLinkColor linkColor g link
  | None => linkColor
  end.

(** ** Opacities while hovering (lines 406-419, 477-490) *)

(** The arguments are the [data-source] and [data-target] attributes of the
    drawn link. *)
Definition link_opacity (h : Highlight) (linkSource linkTarget : string) : Q :=
  if decide (linkSource +:+ "|||" +:+ linkTarget ∈ connectedLinkIds h)
  then 6 # 10 else 1 # 10.

Definition node_rect_opacity (h : Highlight) (nodeId : string) : Q :=
  if decide (nodeId ∈ connectedNodeIds h) then 1 else 2 # 10.

Definition node_text_opacity (h : Highlight) (nodeId : string) : Q :=
  if decide (nodeId ∈ connectedNodeIds h) then 1 else 3 # 10.

(** ** Link tooltip (lines 452-453) *)

(** [d3.sum(links, l => l.value)] *)
Definition totalValue (g : Graph) : Z := foldl Z.add 0 (Link.value <$> links g).

(** [(d.value / totalValue) * 100], before it is formatted; [None] is the
    result of a division by zero, which is not a finite number. *)
Definition link_percentage (g : Graph) (d : Link.t) : option Q :=
  if decide (totalValue g = 0) then None
  else Some (inject_Z (Link.value d) / inject_Z (totalValue g) * 100)%Q.

(** * The layout in double-precision arithmetic

    The numbers of the source are IEEE 754 doubles.  The passes below are
    the passes of the layout once more, with the primitive binary64
    operations where the definitions above compute in exact rationals.  The
    shape of the graph (nodes, links, reference lists, link values, the
    order of a sort by integer values) involves no rounding and is taken
    from the builder and the link tracking pass. *)

Module Dbl.

(** The number that holds the integer [z]: exact when [|z| < 2^53]. *)
Fixpoint of_pos (p : positive) : float :=
  match p with
  | xH => 1
  | xO p' => 2 * of_pos p'
  | xI p' => 2 * of_pos p' + 1
  end%float.

Definition num (z : Z) : float :=
  match z with
  | Z0 => 0
  | Zpos p => of_pos p
  | Zneg p => - of_pos p
  end%float.

Definition MIN_LINK_HEIGHT : float := 0.
Definition MAX_LINK_HEIGHT : float := 100.
Definition MIN_NODE_HEIGHT : float := 2.
Definition nodeGap : float := 20.
Definition nodeWidth : float := 30.
Definition minHeight : float := 200.
Definition verticalPadding : float := 10.

(** [Math.max(a, b)] of two numbers that are not [NaN]. *)
Definition Math_max (a b : float) : float := if (a <? b)%float then b else a.

(** [d3.scaleLinear().domain([0, mx]).range([MIN, MAX])] as d3 computes it:
    [t = (x - d0) / (d1 - d0)], then [r0 * (1 - t) + r1 * t]. *)
Definition linkWidthScale (mx v : Z) : float :=
  let t := ((num v - 0) / (num mx - 0))%float in
  (MIN_LINK_HEIGHT * (1 - t) + MAX_LINK_HEIGHT * t)%float.

(** Lines 95-101: the heights of the nodes, by node reference.  The value
    sums are sums of integers. *)
Definition node_heights (ls : list Link.t) (mx : Z) (ns : list Node.t) : list float :=
  (λ node,
     let incomingValue := sum_values ls (Node.incomingLinks node) in
     let outgoingValue := sum_values ls (Node.outgoingLinks node) in
     let maxValue := Z.max incomingValue outgoingValue in
     Math_max (linkWidthScale mx maxValue) MIN_NODE_HEIGHT) <$> ns.

Definition at_ref (vs : list float) (p : nat) : float := default 0%float (vs !! p).

(** Lines 133-143: the state is the array of the [y] and [currentY]. *)
Definition place_node (hs : list float) (st : list float * float) (p : nat)
  : list float * float :=
  (<[p := (st.2 + at_ref hs p / 2)%float]> st.1,
   (st.2 + (at_ref hs p + nodeGap))%float).

Definition position_nodes (ns : list Node.t) (hs : list float) : list float :=
  foldl (λ ys e, (foldl (place_node hs) (ys, 0%float) e.2).1)
        (replicate (length ns) 0%float) (nodesByStep ns).

(** Lines 153-157 and 162-166: the anchors of one side of a node, by link
    reference. *)
Fixpoint stack (mx : Z) (ls : list Link.t) (ks : list nat) (currentY : float)
    (anchors : list (option float)) : list (option float) :=
  match ks with
  | [] => anchors
  | k :: ks' =>
      let linkHeight := linkWidthScale mx (link_value ls k) in
      stack mx ls ks' (currentY + linkHeight)%float
            (<[k := Some (currentY + linkHeight / 2)%float]> anchors)
  end.

(** Lines 146-167: the state is the arrays of the [sourceY] and of the
    [targetY] of the links. *)
Definition position_links_node (mx : Z) (ls : list Link.t) (hs ys : list float)
    (st : list (option float) * list (option float)) (pn : nat * Node.t)
  : list (option float) * list (option float) :=
  let inc := sort_desc ls (Node.incomingLinks pn.2) in
  let out := sort_desc ls (Node.outgoingLinks pn.2) in
  let outStartY := (at_ref ys pn.1 - at_ref hs pn.1 / 2)%float in
  let inStartY := (at_ref ys pn.1 - at_ref hs pn.1 / 2)%float in
  (stack mx ls out outStartY st.1, stack mx ls inc inStartY st.2).

Record Layout := mkLayout {
  heights : list float;
  ys : list float;
  sourceYs : list (option float);
  targetYs : list (option float)
}.

Definition layout (journeys : list Journey.t) (maxJourneys : Z) : Layout :=
  let g := build journeys maxJourneys in
  let ns1 := track_links (nodes g) (links g) in
  let mx := maxLinkValue (links g) in
  let hs := node_heights (links g) mx ns1 in
  let ys := position_nodes ns1 hs in
  let st := foldl (position_links_node mx (links g) hs ys)
                  (replicate (length (links g)) None,
                   replicate (length (links g)) None)
                  (zip (seq 0 (length ns1)) ns1) in
  mkLayout hs ys st.1 st.2.


(** [node.y - node.height / 2], the ordinate of the top edge of a node. *)
Definition top_edge (lay : Layout) (p : nat) : float :=
  (at_ref (ys lay) p - at_ref (heights lay) p / 2)%float.

(** Lines 118-122. *)
Definition stepHeights (ns : list Node.t) (hs : list float) : list float :=
  (λ e : nat * list nat,
     (foldl (λ sum p, sum + at_ref hs p) 0 e.2
      + (num (Z.of_nat (length e.2)) - 1) * nodeGap)%float) <$> nodesByStep ns.

Definition svgHeight (ns : list Node.t) (hs : list float) : float :=
  match stepHeights ns hs with
  | [] => minHeight
  | v :: vs => Math_max minHeight (foldl Math_max v vs + verticalPadding * 2)%float
  end.

Definition diagramHeight (journeys : list Journey.t) (maxJourneys : Z) : float :=
  svgHeight (nodes (build journeys maxJourneys))
            (heights (layout journeys maxJourneys)).

(** Lines 202-220, for a link between the nodes of the layers [sourceStep]
    and [targetStep]: [sourceX], the two control points and [targetX], with
    [stepWidth = width / steps]. *)
Definition path_xs (width steps : Z) (sourceStep targetStep : nat)
  : float * float * float * float :=
  let stepWidth := (num width / num steps)%float in
  let stepSpacing := (stepWidth - nodeWidth)%float in
  let sourceX := (num (Z.of_nat sourceStep) * stepWidth + nodeWidth)%float in
  let targetX := (num (Z.of_nat targetStep) * stepWidth)%float in
  (sourceX, (sourceX + stepSpacing / 3)%float,
   (targetX - stepSpacing / 3)%float, targetX).

(** Lines 452-453: [(d.value / totalValue) * 100]. *)
Definition link_percentage (g : Graph) (d : Link.t) : float :=
  (num (Link.value d) / num (totalValue g) * 100)%float.

End Dbl.

(** * Vocabulary of the properties

    Definitions used to state and prove the properties: views of the
    builder's loops as folds over events, the relations the properties
    speak about (transitions of journeys, reachability, weak connectivity), and the
    named statements of the rules. *)

(** ** Keys, sums and events of the builder *)

(** No character of [s] is the separator of a node key. *)
Fixpoint no_underscore (s : string) : Prop :=
  match s with
  | EmptyString => True
  | String c s' => c ≠ "_"%char ∧ no_underscore s'
  end.

(** Identity of a link: the ordered pair of its end keys. *)
Definition link_key (l : Link.t) : string * string :=
  (Link.source l, Link.target l).

(** Identity of a node in the words of the specification: (layer, label). *)
Definition node_key (n : Node.t) : nat * string := (Node.step n, Node.name n).

(** Sum of a list of integers. *)
Definition sumZ (l : list Z) : Z := foldr Z.add 0 l.

(** The consecutive label pairs of the suffix [p] of a path that starts at
    index [i], as (source key, target key). *)
Fixpoint transitions (i : nat) (p : list string) : list (string * string) :=
  match p with
  | [] => []
  | a :: rest =>
      match rest with
      | [] => []
      | b :: _ => (stepKey i a, stepKey (S i) b) :: transitions (S i) rest
      end
  end.

(** The builder's two updates, as functions folded over events. *)
Definition ensure_step (ns : list Node.t) (ia : nat * string) : list Node.t :=
  ensure_node ia.1 ia.2 ns.

Definition add_transition (c : Z) (ls : list Link.t) (st : string * string)
  : list Link.t :=
  add_link st.1 st.2 c ls.

(** Total value carried by the links of [ls] with a given key. *)
Definition key_value (ls : list Link.t) (key : string * string) : Z :=
  sumZ (Link.value <$> filter (λ l, link_key l = key) ls).

(** [add_link] on a transition paired with the count of its journey. *)
Definition add_event (ls : list Link.t) (e : string * string * Z) : list Link.t :=
  add_link e.1.1 e.1.2 e.2 ls.

(** The transitions of a list of journeys, in processing order, each with
    the count of its journey. *)
Definition journey_events (journey : Journey.t) : list (string * string * Z) :=
  (λ st, (st, Journey.count journey)) <$> transitions 0 (Journey.path journey).

Definition link_events (js : list Journey.t) : list (string * string * Z) :=
  mjoin (journey_events <$> js).

(** Journey [j] goes from label [a] at layer [i] to label [b] at layer [i+1]. *)
Definition has_transition (j : Journey.t) (i : nat) (a b : string) : Prop :=
  Journey.path j !! i = Some a ∧ Journey.path j !! S i = Some b.

Global Instance has_transition_dec j i a b : Decision (has_transition j i a b).
Proof. unfold has_transition. apply _. Defined.

(** The (index, label) pairs of a list of journeys, in processing order. *)
Definition node_events (js : list Journey.t) : list (nat * string) :=
  mjoin ((λ j, zip (seq 0 (length (Journey.path j))) (Journey.path j)) <$> js).

(** Nodes as the builder leaves them: the key is the one of (step, name)
    and no link reference has been recorded yet. *)
Definition fresh_node (n : Node.t) : Prop :=
  Node.id n = stepKey (Node.step n) (Node.name n)
  ∧ Node.incomingLinks n = [] ∧ Node.outgoingLinks n = [].

(** ** References, link tracking and the layout passes *)

(** References to the links of [ls] that satisfy [P], in the order of [ls]
    (the creation order of the links). *)
Definition refs_with (P : Link.t → Prop) `{∀ l, Decision (P l)}
    (ls : list Link.t) : list nat :=
  fst <$> filter (λ kl, P kl.2) (zip (seq 0 (length ls)) ls).

(** What link tracking does to one node. *)
Definition with_refs (ls : list Link.t) (n : Node.t) : Node.t :=
  Node.set_link_lists
    (Node.incomingLinks n ++ refs_with (λ l, Link.target l = Node.id n) ls)
    (Node.outgoingLinks n ++ refs_with (λ l, Link.source l = Node.id n) ls)
    n.

(** [n'] is [n] with another ordinate. *)
Definition same_but_y (n n' : Node.t) : Prop := n' = Node.set_y (Node.y n') n.

(** The part of a link that the layout passes never write. *)
Definition link_core (l : Link.t) : string * string * Z :=
  (Link.source l, Link.target l, Link.value l).

(** What the link positioning pass does to one node. *)
Definition sorted_lists (ls : list Link.t) (n : Node.t) : Node.t :=
  Node.set_link_lists (sort_desc ls (Node.incomingLinks n))
                      (sort_desc ls (Node.outgoingLinks n)) n.

(** The node [n0] of the builder after link tracking and metadata. *)
Definition described (js : list Journey.t) (ls : list Link.t) (n0 : Node.t)
  : Node.t :=
  node_meta js ls (maxLinkValue ls) (with_refs ls n0).

(** ** Statements about the builder *)

(** Sum of the counts of the considered journeys that go from [a] at layer
    [i] to [b] at layer [i + 1]. *)
Definition transition_count (js : list Journey.t) (i : nat) (a b : string) : Z :=
  sumZ ((λ j, if decide (has_transition j i a b) then Journey.count j else 0) <$> js).

(** The link set [ls] holds one link per transition of the journeys [js],
    carrying the summed counts. *)
Definition links_accumulate (js : list Journey.t) (ls : list Link.t) : Prop :=
  NoDup (link_key <$> ls)
  ∧ (∀ l, l ∈ ls →
       ∃ i a b, Link.source l = stepKey i a ∧ Link.target l = stepKey (S i) b
                ∧ (∃ j, j ∈ js ∧ has_transition j i a b)
                ∧ Link.value l = transition_count js i a b)
  ∧ (∀ j i a b, j ∈ js → has_transition j i a b →
       ∃ l, l ∈ ls ∧ Link.source l = stepKey i a ∧ Link.target l = stepKey (S i) b).

(** The nodes [ns] are, without repetition, the (layer, label) pairs of the
    journeys [js], each under the key of its pair. *)
Definition nodes_unique (js : list Journey.t) (ns : list Node.t) : Prop :=
  NoDup (node_key <$> ns)
  ∧ NoDup (Node.id <$> ns)
  ∧ (∀ n, n ∈ ns → Node.id n = stepKey (Node.step n) (Node.name n))
  ∧ (∀ i a, (i, a) ∈ node_key <$> ns ↔ ∃ j, j ∈ js ∧ Journey.path j !! i = Some a).

(** Every link goes from a node of the graph to a node one layer ahead. *)
Definition links_adjacent (g : Graph) : Prop :=
  ∀ l, l ∈ links g →
    ∃ n1 n2, n1 ∈ nodes g ∧ n2 ∈ nodes g
             ∧ Node.id n1 = Link.source l ∧ Node.id n2 = Link.target l
             ∧ Node.step n2 = S (Node.step n1).

(** ** Statements about node metadata *)

(** The path of [j] has the label of [n] at the layer of [n]. *)
Definition matches (n : Node.t) (j : Journey.t) : Prop :=
  Journey.path j !! Node.step n = Some (Node.name n).

Global Instance matches_dec n j : Decision (matches n j).
Proof. unfold matches. apply _. Defined.

(** The percentage of [n] is the one of the first journey of [js] that
    matches it, and 0 when none does. *)
Definition percentage_rule (js : list Journey.t) (n : Node.t) : Prop :=
  (∃ k j, js !! k = Some j ∧ matches n j
          ∧ (∀ k' j', (k' < k)%nat → js !! k' = Some j' → ¬ matches n j')
          ∧ Node.percentage n = Journey.percentage j)
  ∨ ((∀ j, j ∈ js → ¬ matches n j) ∧ Node.percentage n = 0%Q).

(** Everything [SankeyDiagram] does after the builder loop. *)
Definition finish (journeys : list Journey.t) (g : Graph) : Graph :=
  let ns1 := track_links (nodes g) (links g) in
  let mx := maxLinkValue (links g) in
  let ns2 := node_meta journeys (links g) mx <$> ns1 in
  let ns3 := position_nodes ns2 in
  position_links mx ns3 (links g).

(** The links leaving, and the links entering, the node [n]. *)
Definition outgoing_refs (ls : list Link.t) (n : Node.t) : list nat :=
  refs_with (λ l, Link.source l = Node.id n) ls.

Definition incoming_refs (ls : list Link.t) (n : Node.t) : list nat :=
  refs_with (λ l, Link.target l = Node.id n) ls.

(** The [count] of [n] is the sum of the values of its outgoing links at
    layer 0 and of its incoming links elsewhere; its outgoing (incoming)
    links are the links of [g] whose source (target) is [n]. *)
Definition total_flow_rule (g : Graph) (n : Node.t) : Prop :=
  Node.count n = (if decide (Node.step n = 0%nat)
                  then sum_values (links g) (Node.outgoingLinks n)
                  else sum_values (links g) (Node.incomingLinks n))
  ∧ Node.outgoingLinks n ≡ₚ outgoing_refs (links g) n
  ∧ Node.incomingLinks n ≡ₚ incoming_refs (links g) n
  ∧ sum_values (links g) (Node.outgoingLinks n)
    = sumZ (Link.value <$> filter (λ l, Link.source l = Node.id n) (links g))
  ∧ sum_values (links g) (Node.incomingLinks n)
    = sumZ (Link.value <$> filter (λ l, Link.target l = Node.id n) (links g)).

(** ** Statements about the layout *)


(** [currentY] after the thicknesses [hs] were added to [y0] one by one. *)
Definition running (y0 : Q) (hs : list Q) : Q := foldl Qplus y0 hs.

(** Scaled thickness of the link a reference points to. *)
Definition thickness (mx : Z) (ls : list Link.t) (k : nat) : Q :=
  linkWidthScale mx (link_value ls k).

(** Ordinate of the top edge of a node. *)
Definition top_edge (n : Node.t) : Q := (Node.y n - Node.height n / 2)%Q.

(** Sum of a list of rationals. *)
Definition sumQ (l : list Q) : Q := foldr Qplus 0%Q l.

(** The nodes as the link positioning pass receives them. *)
Definition laid_out (js : list Journey.t) (cutoff : Z) : list Node.t :=
  let g := build js cutoff in
  position_nodes (node_meta js (links g) (maxLinkValue (links g))
                    <$> track_links (nodes g) (links g)).

(** Slope of the scale. *)
Definition slope (mx : Z) : Q :=
  (/ (inject_Z mx - 0) * (MAX_LINK_HEIGHT - MIN_LINK_HEIGHT))%Q.



(** ** Statements about colours *)

(** Number of occurrences of the key [s]. *)
Definition occurrences (s : string) (keys : list string) : nat :=
  length (filter (λ x, x = s) keys).

(** The distinct keys, each at the place of its first occurrence. *)
Definition first_seen (keys : list string) : list string :=
  foldl (λ acc s, if decide (s ∈ acc) then acc else acc ++ [s]) [] keys.

(** The segment keys of the nodes, in node order. *)
Definition segment_keys (ns : list Node.t) : list string :=
  (λ n, getFirstSegment (Node.name n)) <$> ns.

(** The keys that occur more than once, in first-seen order. *)
Definition repeated_keys (ns : list Node.t) : list string :=
  filter (λ s, (1 < occurrences s (segment_keys ns))%nat)
         (first_seen (segment_keys ns)).

(** The palette colour given to the [r]-th repeated key. *)
Definition color_at (r : nat) : string :=
  default "" (colorPalette !! (r `mod` length colorPalette)%nat).

(** An entry of [segmentCounts] with a count above one. *)
Definition is_repeated (e : string * nat) : Prop := (1 < e.2)%nat.

Global Instance is_repeated_dec e : Decision (is_repeated e).
Proof. unfold is_repeated. apply _. Defined.

(** ** Statements about reachability *)

(** The link [l2] is pushed when [l1] is recorded. *)
Definition follows (dir : direction) (l1 l2 : Link.t) : Prop :=
  match dir with
  | forward => Link.target l1 = Link.source l2
  | backward => Link.source l1 = Link.target l2
  end.

(** One step of the traversal, on references. *)
Definition step_rel (g : Graph) (dir : direction) (k1 k2 : nat) : Prop :=
  ∃ l1 l2, links g !! k1 = Some l1 ∧ links g !! k2 = Some l2 ∧ follows dir l1 l2.

(** Links reachable from [k] along [dir], [k] included. *)
Definition reach (g : Graph) (dir : direction) : nat → nat → Prop :=
  rtc (step_rel g dir).

(** The lists of references held by the nodes are the adjacency of the
    graph. *)
Definition adjacency_exact (g : Graph) : Prop :=
  ∀ dir k1 l1 k2, links g !! k1 = Some l1 →
    (k2 ∈ next_links g dir l1 ↔ step_rel g dir k1 k2).

(** Key of the link a reference points to. *)
Definition ref_id (g : Graph) (k : nat) : string :=
  default "" (linkId <$> links g !! k).

(** The keys of all the links of the graph. *)
Definition all_ids (g : Graph) : gset string := list_to_set (linkId <$> links g).

(** Bound on the number of iterations left: the queue and, for every key
    not yet visited, one batch of pushes. *)
Definition bfs_measure (g : Graph) (queue : list nat) (visited : gset string) : nat :=
  (length queue + size (all_ids g ∖ visited) * (degree_sum (nodes g) + 1))%nat.

(** State of the loop started from [seed]: the references are valid, the
    visited set holds the keys of the recorded links, which are pairwise
    distinct; every reference in the state is reachable from the seed; the
    seed is the first to be recorded; and, when link keys do not collide,
    the successors of a recorded link are recorded or queued. *)
Definition bfs_inv (g : Graph) (dir : direction) (seed : nat)
    (queue : list nat) (visited : gset string) (acc : list nat) : Prop :=
  Forall (λ k, (k < length (links g))%nat) queue
  ∧ Forall (λ k, (k < length (links g))%nat) acc
  ∧ visited = list_to_set (ref_id g <$> acc)
  ∧ NoDup (ref_id g <$> acc)
  ∧ (∀ k, k ∈ queue ∨ k ∈ acc → reach g dir seed k)
  ∧ (match acc with [] => head queue = Some seed | _ => seed ∈ acc end)
  ∧ (NoDup (linkId <$> links g) →
     ∀ k k2, k ∈ acc → step_rel g dir k k2 → k2 ∈ acc ∨ k2 ∈ queue).

(** [res] is what the traversal from [startLink] returns, with the budget
    [bfs_fuel] and with any larger one; its references are pairwise
    distinct, so are the keys of the links they point to, and all are links
    of the graph. *)
Definition traversal_result (g : Graph) (startLink : nat) (dir : direction)
    (res : list nat) : Prop :=
  findAllConnectedPaths g startLink dir = Done res
  ∧ (∀ fuel, (bfs_fuel g ≤ fuel)%nat → bfs fuel g dir [startLink] ∅ [] = Done res)
  ∧ NoDup res
  ∧ NoDup (ref_id g <$> res)
  ∧ Forall (λ k, (k < length (links g))%nat) res
  ∧ (length res ≤ length (links g))%nat.

(** Two node keys joined by a link, in either direction. *)
Definition adjacent (g : Graph) (a b : string) : Prop :=
  ∃ k l, links g !! k = Some l
         ∧ ((Link.source l = a ∧ Link.target l = b)
            ∨ (Link.source l = b ∧ Link.target l = a)).

(** Two node keys in the same weakly-connected component. *)
Definition weakly_connected (g : Graph) : string → string → Prop :=
  rtc (adjacent g).

(** ** Statements about flows through a node *)

(** Total value of the links of [ls] whose key satisfies [P]. *)
Definition pvalue (P : string * string → Prop) `{∀ key, Decision (P key)}
    (ls : list Link.t) : Z :=
  sumZ (Link.value <$> filter (λ l, P (link_key l)) ls).

(** The considered journey [j] is counted in the [count] of node [n]: it
    passes through the label of [n] at the layer of [n] and, at layer 0,
    goes on to a second step. *)
Definition visits (n : Node.t) (j : Journey.t) : Prop :=
  Journey.path j !! Node.step n = Some (Node.name n)
  ∧ (Node.step n = 0%nat → (1 < length (Journey.path j))%nat).

Global Instance visits_dec n j : Decision (visits n j).
Proof. unfold visits. apply _. Defined.

(** ** Statements about the columns *)

(** References to the nodes of layer [s], in the order of the node array. *)
Definition layer_refs (ns : list Node.t) (s : nat) : list nat :=
  fst <$> filter (λ pn : nat * Node.t, Node.step pn.2 = s)
                 (zip (seq 0 (length ns)) ns).

(** The groups [m] are the layers of [ns]: one group per layer that has a
    node, holding the references to the nodes of the layer in array order. *)
Definition grouped (ns : list Node.t) (m : list (nat * list nat)) : Prop :=
  NoDup m.*1
  ∧ (∀ e, e ∈ m → e.2 = layer_refs ns e.1)
  ∧ (∀ n, n ∈ ns → Node.step n ∈ m.*1).

(** Vertical room taken by a node in its column: its height and the gap
    under it. *)
Definition slot (ns : list Node.t) (p : nat) : Q := (node_height ns p + nodeGap)%Q.

(** [currentY] when the nodes [ps] of a column have been placed. *)
Definition column_offset (ns : list Node.t) (ps : list nat) : Q :=
  foldl (λ currentY p, currentY + (node_height ns p + nodeGap))%Q 0%Q ps.

(** ** Statements about hovering *)

(** The links listed when the link [d] is hovered: [d] and the results of
    the two traversals from [d]. *)
Definition hover_list (g : Graph) (d : nat) (ks : list nat) : Prop :=
  ∃ f b, findAllConnectedPaths g d forward = Done f
         ∧ findAllConnectedPaths g d backward = Done b
         ∧ ks = d :: f ++ b.

(** Layer of the source node of a link, and of the link a reference points
    to. *)
Definition link_layer (g : Graph) (l : Link.t) : nat :=
  match find_node (Link.source l) (nodes g) with
  | Some (_, s) => Node.step s
  | None => 0%nat
  end.

Definition ref_layer (g : Graph) (k : nat) : nat :=
  default 0%nat (link_layer g <$> links g !! k).

(** With the highlight [h], no link of [g] is drawn highlighted from or to
    a node that is drawn dimmed. *)
Definition no_dangling_highlight (g : Graph) (h : Highlight) : Prop :=
  ∀ k l, links g !! k = Some l →
    link_opacity h (Link.source l) (Link.target l) = 6 # 10 →
    node_rect_opacity h (Link.source l) = 1%Q
    ∧ node_text_opacity h (Link.source l) = 1%Q
    ∧ node_rect_opacity h (Link.target l) = 1%Q
    ∧ node_text_opacity h (Link.target l) = 1%Q.

(** ** Statements about segment keys *)

(** No character of [s] is the separator of path segments. *)
Fixpoint no_slash (s : string) : Prop :=
  match s with
  | EmptyString => True
  | String c s' => c ≠ "/"%char ∧ no_slash s'
  end.

(** Every character of [s] is the separator of path segments. *)
Fixpoint all_slashes (s : string) : Prop :=
  match s with
  | EmptyString => True
  | String c s' => c = "/"%char ∧ all_slashes s'
  end.

(** [seg] is the first non-empty [/]-separated component of [path]: the
    label is some separators, then [seg], which is not empty and holds no
    separator, then nothing or a separator and the rest. *)
Definition first_component (path seg : string) : Prop :=
  ∃ pre rest, path = pre +:+ seg +:+ rest
              ∧ all_slashes pre ∧ no_slash seg ∧ seg ≠ ""
              ∧ (rest = "" ∨ ∃ r, rest = String "/" r).

(** The segment key of a label, in the words of the specification: [/]
    followed by the first non-empty component, or the label itself when it
    has no such component. *)
Definition segment_key_rule (path key : string) : Prop :=
  (all_slashes path ∧ key = path)
  ∨ (∃ seg, first_component path seg ∧ key = "/" +:+ seg).

(** ** Scenarios *)

(** The scenario of the specification: two journeys out of [/a], with counts
    5 and 3. *)
Definition scenario_5_3 : list Journey.t :=
  [ Journey.mk ["/a"; "/b"] 5 (125 # 2); Journey.mk ["/a"; "/c"] 3 (75 # 2) ].

(** Two journeys that end in the same page: [/a -> /b] and [/c -> /b]. *)
Definition merge_scenario : list Journey.t :=
  [ Journey.mk ["/a"; "/b"] 1 (50 # 1); Journey.mk ["/c"; "/b"] 1 (50 # 1) ].

(** Two journeys whose labels contain the separator of the traversal's
    visited keys: the links [x -> y|||3_z] and [x|||3_y -> z] of layer 2
    have the same key. *)
Definition collision_scenario : list Journey.t :=
  [ Journey.mk ["s"; "t"; "x"; "y|||3_z"] 1 (50 # 1);
    Journey.mk ["s"; "t"; "x|||3_y"; "z"] 1 (50 # 1) ].

(** The node [/a] of layer 0 in the graph of [scenario_5_3]. *)
Definition scenario_node : Node.t :=
  Eval vm_compute in
    default (Node.mk "" "" 0 [] [] 0 0 0 0)
            (nodes (SankeyDiagram scenario_5_3 2) !! 0%nat).


Definition scenario_node_c : Node.t :=
  Eval vm_compute in
    default (Node.mk "" "" 0 [] [] 0 0 0 0)
            (nodes (SankeyDiagram scenario_5_3 2) !! 2%nat).

Definition scenario_link : Link.t :=
  Eval vm_compute in
    default (Link.mk "" "" 0 None None)
            (links (SankeyDiagram scenario_5_3 2) !! 0%nat).

(** A journey of a single step beside a journey of two steps: the node
    [/x] has no link. *)
Definition single_step_scenario : list Journey.t :=
  [ Journey.mk ["/x"] 7 (175 # 3); Journey.mk ["/a"; "/b"] 5 (125 # 3) ].

(** A journey that nobody took. *)
Definition zero_count_scenario : list Journey.t :=
  [ Journey.mk ["/a"; "/b"] 0 0 ].

(** Two journeys in two components whose second links have the same
    [source|||target] key: [x -> y|||2_z] and [x|||2_y -> z]. *)
Definition crossing_scenario : list Journey.t :=
  [ Journey.mk ["p"; "x"; "y|||2_z"] 1 (50 # 1);
    Journey.mk ["q"; "x|||2_y"; "z"] 1 (50 # 1) ].

(** Three journeys out of [/a] with counts 6, 5 and 0: in double
    arithmetic the thicknesses 100 and 83.33333333333334 add up to more than
    the height 183.33333333333331 of the node. *)
Definition rounding_scenario : list Journey.t :=
  [ Journey.mk ["/a"; "/b"] 6 (600 # 11); Journey.mk ["/a"; "/c"] 5 (500 # 11);
    Journey.mk ["/a"; "/d"] 0 0 ].

(** Two journeys out of [/a] with the given counts. *)
Definition fork_scenario (c1 c2 : Z) : list Journey.t :=
  [ Journey.mk ["/a"; "/b"] c1 (50 # 1); Journey.mk ["/a"; "/c"] c2 (50 # 1) ].

(** * Properties *)

(** ** Node keys are injective *)

Lemma pretty_N_char_no_underscore x : pretty_N_char x ≠ "_"%char.
Proof. unfold pretty_N_char. repeat case_match; discriminate. Qed.

Lemma pretty_N_go_no_underscore x s :
  no_underscore s → no_underscore (pretty_N_go x s).
Proof.
  revert s. induction (N.lt_wf_0 x) as [x _ IH]; intros s Hs.
  destruct (decide (x = 0)%N) as [->|Hx].
  - by rewrite pretty_N_go_0.
  - rewrite pretty_N_go_step by lia. apply IH.
    + apply N.div_lt; lia.
    + split; [apply pretty_N_char_no_underscore | done].
Qed.

Lemma pretty_nat_no_underscore (i : nat) : no_underscore (pretty i).
Proof.
  unfold pretty, pretty_nat, pretty, pretty_N. case_decide.
  - repeat split; discriminate.
  - by apply pretty_N_go_no_underscore.
Qed.

Lemma underscore_split_inj s1 s2 a b :
  no_underscore s1 → no_underscore s2 →
  s1 +:+ String "_" a = s2 +:+ String "_" b → s1 = s2 ∧ a = b.
Proof.
  revert s2. induction s1 as [|c s1 IH]; intros [|d s2]; simpl.
  - intros _ _ [=]. done.
  - intros _ [Hd _] [= <- _]. done.
  - intros [Hc _] _ [= -> _]. done.
  - intros [_ H1] [_ H2] [= -> Heq].
    destruct (IH _ H1 H2 Heq) as [-> ->]. done.
Qed.

Lemma stepKey_inj i j a b : stepKey i a = stepKey j b → i = j ∧ a = b.
Proof.
  unfold stepKey. intros Heq.
  apply underscore_split_inj in Heq as [Hp ->];
    auto using pretty_nat_no_underscore.
  split; [|done]. by apply (inj pretty).
Qed.

(** ** The builder as two independent folds *)

Lemma visit_steps_split journey pre suf g :
  Journey.path journey = pre ++ suf →
  let g' := foldl (visit_step journey) g (seq (length pre) (length suf)) in
  nodes g' = foldl ensure_step (nodes g) (zip (seq (length pre) (length suf)) suf)
  ∧ links g' = foldl (add_transition (Journey.count journey)) (links g)
                     (transitions (length pre) suf).
Proof.
  revert pre g. induction suf as [|a rest IH]; intros pre g Hpath; [done|].
  cbn [length seq foldl zip zip_with transitions].
  assert (Hnext : Journey.path journey = (pre ++ [a]) ++ rest)
    by (by rewrite <-app_assoc).
  specialize (IH (pre ++ [a]) (visit_step journey g (length pre)) Hnext).
  rewrite length_app in IH. simpl in IH.
  replace (length pre + 1)%nat with (S (length pre)) in IH by lia.
  destruct IH as [IHn IHl]. rewrite IHn, IHl. clear IHn IHl.
  unfold visit_step.
  assert (Ha : Journey.path journey !! length pre = Some a).
  { rewrite Hpath. by rewrite list_lookup_middle. }
  rewrite Ha. simpl. split; [done|].
  rewrite Hpath, length_app. simpl.
  destruct rest as [|b rest].
  - rewrite decide_False by (simpl; lia). done.
  - rewrite decide_True by (simpl; lia).
    replace (pre ++ a :: b :: rest) with ((pre ++ [a]) ++ b :: rest)
      by (by rewrite <-app_assoc).
    rewrite list_lookup_middle by (rewrite length_app; simpl; lia).
    replace (length pre + 1)%nat with (S (length pre)) by lia. done.
Qed.

Lemma visit_journey_nodes g journey :
  nodes (visit_journey g journey)
  = foldl ensure_step (nodes g)
          (zip (seq 0 (length (Journey.path journey))) (Journey.path journey)).
Proof. by apply (visit_steps_split journey [] (Journey.path journey) g). Qed.

Lemma visit_journey_links g journey :
  links (visit_journey g journey)
  = foldl (add_transition (Journey.count journey)) (links g)
          (transitions 0 (Journey.path journey)).
Proof. by apply (visit_steps_split journey [] (Journey.path journey) g). Qed.

(** ** Accumulation of link values *)

Lemma sumZ_cons x l : sumZ (x :: l) = x + sumZ l.
Proof. done. Qed.

Lemma sumZ_app l1 l2 : sumZ (l1 ++ l2) = sumZ l1 + sumZ l2.
Proof. unfold sumZ. induction l1; simpl; lia. Qed.

Lemma key_value_cons l ls key :
  key_value (l :: ls) key
  = (if decide (link_key l = key) then Link.value l else 0) + key_value ls key.
Proof.
  unfold key_value. rewrite filter_cons. by case_decide.
Qed.

Lemma key_value_app ls1 ls2 key :
  key_value (ls1 ++ ls2) key = key_value ls1 key + key_value ls2 key.
Proof. unfold key_value. by rewrite filter_app, fmap_app, sumZ_app. Qed.

Lemma key_value_alter ls k l c key :
  ls !! k = Some l →
  key_value (alter (Link.add_value c) k ls) key
  = key_value ls key + (if decide (link_key l = key) then c else 0).
Proof.
  revert k. induction ls as [|l0 ls IH]; intros [|k] Hk; simplify_eq/=.
  - rewrite !key_value_cons. unfold link_key; simpl.
    repeat case_decide; simpl; try done; lia.
  - rewrite !key_value_cons, (IH k) by done. lia.
Qed.

Lemma key_value_not_elem ls key :
  key ∉ link_key <$> ls → key_value ls key = 0.
Proof.
  induction ls as [|l ls IH]; [done|]. rewrite fmap_cons, not_elem_of_cons.
  intros [Hne Hnot]. rewrite key_value_cons, IH by done.
  by rewrite decide_False by done.
Qed.

Lemma key_value_NoDup ls l :
  NoDup (link_key <$> ls) → l ∈ ls → Link.value l = key_value ls (link_key l).
Proof.
  induction ls as [|l0 ls IH]; [by intros _ ?%elem_of_nil|].
  rewrite fmap_cons, NoDup_cons. intros [Hnot Hnd] [->|Hin]%elem_of_cons.
  - rewrite key_value_cons, decide_True, key_value_not_elem by done. lia.
  - rewrite key_value_cons, decide_False, <-IH by
      (try done; intros Heq; apply Hnot; rewrite Heq; by apply list_elem_of_fmap_2).
    lia.
Qed.

Lemma add_link_keys s t c ls :
  link_key <$> add_link s t c ls
  = if decide ((s, t) ∈ link_key <$> ls) then link_key <$> ls
    else (link_key <$> ls) ++ [(s, t)].
Proof.
  unfold add_link. destruct (list_find _ ls) as [[k l]|] eqn:Hf.
  - apply list_find_Some in Hf as (Hk & [Hs Ht] & _).
    rewrite decide_True.
    + rewrite (list_fmap_alter _ _ id) by (by apply Forall_forall).
      by apply list_alter_id.
    + apply list_elem_of_fmap. exists l. unfold link_key.
      rewrite Hs, Ht. eauto using list_elem_of_lookup_2.
  - rewrite list_find_None, Forall_forall in Hf.
    rewrite decide_False, fmap_app; [done|].
    intros (l & [= Hs Ht] & Hin)%list_elem_of_fmap.
    by apply (Hf l Hin).
Qed.

Lemma add_link_key_value s t c ls key :
  key_value (add_link s t c ls) key
  = key_value ls key + (if decide ((s, t) = key) then c else 0).
Proof.
  unfold add_link. destruct (list_find _ ls) as [[k l]|] eqn:Hf.
  - apply list_find_Some in Hf as (Hk & [Hs Ht] & _).
    rewrite (key_value_alter _ _ l) by done.
    unfold link_key. by rewrite Hs, Ht.
  - rewrite key_value_app. unfold key_value at 2.
    rewrite filter_cons, filter_nil. unfold link_key; simpl.
    case_decide; simpl; lia.
Qed.

Lemma fold_add_event_keys evs ls key :
  key ∈ link_key <$> foldl add_event ls evs
  ↔ key ∈ link_key <$> ls ∨ key ∈ fst <$> evs.
Proof.
  revert ls. induction evs as [|[[s t] c] evs IH]; intros ls; simpl.
  - rewrite elem_of_nil. tauto.
  - rewrite IH. unfold add_event at 1. simpl. rewrite add_link_keys.
    rewrite elem_of_cons. case_decide.
    + split; [tauto|]. intros [?|[->|?]]; auto.
    + rewrite elem_of_app, list_elem_of_singleton. tauto.
Qed.

Lemma fold_add_event_NoDup evs ls :
  NoDup (link_key <$> ls) → NoDup (link_key <$> foldl add_event ls evs).
Proof.
  revert ls. induction evs as [|[[s t] c] evs IH]; intros ls Hnd; [done|].
  simpl. apply IH. unfold add_event; simpl. rewrite add_link_keys.
  case_decide; [done|]. apply NoDup_app. split_and!; [done| |apply NoDup_singleton].
  intros x Hx ->%list_elem_of_singleton. done.
Qed.

Lemma fold_add_event_value evs ls key :
  key_value (foldl add_event ls evs) key
  = key_value ls key + sumZ (snd <$> filter (λ e, e.1 = key) evs).
Proof.
  revert ls. induction evs as [|[[s t] c] evs IH]; intros ls; simpl.
  - unfold sumZ; simpl. lia.
  - rewrite IH. unfold add_event at 1. simpl. rewrite add_link_key_value.
    rewrite filter_cons. simpl. case_decide; rewrite ?fmap_cons, ?sumZ_cons; simpl; lia.
Qed.

Lemma fold_add_transition c trs ls :
  foldl (add_transition c) ls trs
  = foldl add_event ls ((λ st, (st, c)) <$> trs).
Proof. revert ls. induction trs as [|st trs IH]; intros ls; simpl; [done|]. apply IH. Qed.

Lemma fold_visit_journey_links js g :
  links (foldl visit_journey g js) = foldl add_event (links g) (link_events js).
Proof.
  revert g. induction js as [|j js IH]; intros g; [done|].
  simpl. rewrite IH, visit_journey_links, fold_add_transition.
  unfold link_events. simpl. by rewrite foldl_app.
Qed.

Lemma build_links js cutoff :
  links (build js cutoff) = foldl add_event [] (link_events (slice0 js cutoff)).
Proof. apply fold_visit_journey_links. Qed.

Lemma transitions_matching c i a b i0 p :
  sumZ (snd <$> filter (λ e, e.1 = (stepKey i a, stepKey (S i) b))
                       ((λ st, (st, c)) <$> transitions i0 p))
  = if decide (i0 ≤ i ∧ p !! (i - i0)%nat = Some a ∧ p !! (S i - i0)%nat = Some b)%nat
    then c else 0.
Proof.
  revert i0. induction p as [|a0 rest IH]; intros i0.
  { simpl. rewrite decide_False; [done|]. intros (_ & ? & _). done. }
  destruct rest as [|b0 rest].
  { simpl. rewrite decide_False; [done|]. intros (Hle & H1 & H2).
    replace (S i - i0)%nat with (S (i - i0)) in H2 by lia. done. }
  change (transitions i0 (a0 :: b0 :: rest))
    with ((stepKey i0 a0, stepKey (S i0) b0) :: transitions (S i0) (b0 :: rest)).
  rewrite fmap_cons, filter_cons. simpl fst.
  specialize (IH (S i0)).
  destruct (decide (i0 = i)) as [->|Hne].
  - rewrite (decide_False (P := (S i ≤ i ∧ _)%nat)) in IH by lia.
    replace (i - i)%nat with 0%nat by lia. replace (S i - i)%nat with 1%nat by lia.
    simpl lookup.
    destruct (decide (a0 = a ∧ b0 = b)) as [[-> ->]|Hab].
    + rewrite decide_True by done. rewrite fmap_cons, sumZ_cons, IH.
      rewrite decide_True by done. simpl. lia.
    + rewrite decide_False.
      * rewrite IH. rewrite decide_False; [done|].
        intros (_ & [= ->] & [= ->]). by apply Hab.
      * intros [= [_ ->]%stepKey_inj [_ ->]%stepKey_inj]. by apply Hab.
  - rewrite decide_False by (intros [= [? _]%stepKey_inj _]; done).
    rewrite IH. destruct (decide (i0 < i)%nat) as [Hlt|Hge].
    + replace (i - i0)%nat with (S (i - S i0)) by lia.
      replace (S i - i0)%nat with (S (S i - S i0)) by lia.
      simpl lookup. apply decide_ext. split; intros (? & ? & ?); split_and!; (done || lia).
    + rewrite !decide_False; [done|lia|lia].
Qed.

Lemma journey_events_matching j i a b :
  sumZ (snd <$> filter (λ e, e.1 = (stepKey i a, stepKey (S i) b)) (journey_events j))
  = if decide (has_transition j i a b) then Journey.count j else 0.
Proof.
  unfold journey_events. rewrite transitions_matching.
  replace (i - 0)%nat with i by lia. replace (S i - 0)%nat with (S i) by lia.
  apply decide_ext. unfold has_transition. split; [tauto|].
  intros [??]; split_and!; (done || lia).
Qed.

Lemma link_events_matching js i a b :
  sumZ (snd <$> filter (λ e, e.1 = (stepKey i a, stepKey (S i) b)) (link_events js))
  = sumZ ((λ j, if decide (has_transition j i a b) then Journey.count j else 0) <$> js).
Proof.
  unfold link_events. induction js as [|j js IH]; [done|].
  rewrite !fmap_cons. simpl mjoin.
  rewrite filter_app, fmap_app, sumZ_app, IH, journey_events_matching.
  by rewrite sumZ_cons.
Qed.

Lemma transitions_elem st i0 p :
  st ∈ transitions i0 p
  ↔ ∃ i a b, st = (stepKey (i0 + i) a, stepKey (S (i0 + i)) b)
             ∧ p !! i = Some a ∧ p !! S i = Some b.
Proof.
  revert i0. induction p as [|a0 rest IH]; intros i0.
  { simpl. rewrite elem_of_nil. split; [done|]. by intros (? & ? & ? & _ & ? & _). }
  destruct rest as [|b0 rest].
  { simpl. rewrite elem_of_nil. split; [done|]. by intros (? & ? & ? & _ & _ & ?). }
  change (transitions i0 (a0 :: b0 :: rest))
    with ((stepKey i0 a0, stepKey (S i0) b0) :: transitions (S i0) (b0 :: rest)).
  rewrite elem_of_cons, IH. split.
  - intros [->|(i & a & b & -> & Ha & Hb)].
    + exists 0%nat, a0, b0. by rewrite Nat.add_0_r.
    + exists (S i), a, b. split_and!; [|done..]. by rewrite <-Nat.add_succ_comm.
  - intros ([|i] & a & b & -> & Ha & Hb).
    + left. simplify_eq/=. by rewrite Nat.add_0_r.
    + right. exists i, a, b. split_and!; [|done..]. by rewrite <-Nat.add_succ_comm.
Qed.

Lemma link_events_elem js key :
  key ∈ fst <$> link_events js
  ↔ ∃ j i a b, j ∈ js ∧ has_transition j i a b
               ∧ key = (stepKey i a, stepKey (S i) b).
Proof.
  unfold link_events, journey_events. rewrite list_elem_of_fmap. split.
  - intros ([st c] & -> & (evs & Hst & (j & -> & Hj)%list_elem_of_fmap)%list_elem_of_join).
    apply list_elem_of_fmap in Hst as (st' & [= <- _] & Hin).
    apply transitions_elem in Hin as (i & a & b & -> & Ha & Hb).
    exists j, i, a, b. done.
  - intros (j & i & a & b & Hj & [Ha Hb] & ->).
    exists (stepKey i a, stepKey (S i) b, Journey.count j). split; [done|].
    apply list_elem_of_join. eexists. split; [|by apply list_elem_of_fmap_2].
    apply list_elem_of_fmap. eexists; split; [done|].
    apply transitions_elem. by exists i, a, b.
Qed.

(** ** Node creation *)

Lemma fold_visit_journey_nodes js g :
  nodes (foldl visit_journey g js) = foldl ensure_step (nodes g) (node_events js).
Proof.
  revert g. induction js as [|j js IH]; intros g; [done|].
  simpl. rewrite IH, visit_journey_nodes.
  unfold node_events. rewrite fmap_cons. simpl mjoin. by rewrite foldl_app.
Qed.

Lemma build_nodes js cutoff :
  nodes (build js cutoff) = foldl ensure_step [] (node_events (slice0 js cutoff)).
Proof. apply fold_visit_journey_nodes. Qed.

Lemma zip_seq_elem {A} (p : list A) i0 i a :
  (i, a) ∈ zip (seq i0 (length p)) p ↔ (i0 ≤ i)%nat ∧ p !! (i - i0)%nat = Some a.
Proof.
  revert i0. induction p as [|a0 p IH]; intros i0; simpl.
  - rewrite elem_of_nil. split; [done|]. by intros [_ ?].
  - rewrite elem_of_cons, IH. split.
    + intros [[= -> ->]|[Hle Hl]].
      * split; [lia|]. by replace (i0 - i0)%nat with 0%nat by lia.
      * split; [lia|]. by replace (i - i0)%nat with (S (i - S i0)) by lia.
    + intros [Hle Hl]. destruct (decide (i = i0)) as [->|Hne].
      * left. replace (i0 - i0)%nat with 0%nat in Hl by lia. by simplify_eq/=.
      * right. split; [lia|].
        by replace (i - i0)%nat with (S (i - S i0)) in Hl by lia.
Qed.

Lemma node_events_elem js i a :
  (i, a) ∈ node_events js ↔ ∃ j, j ∈ js ∧ Journey.path j !! i = Some a.
Proof.
  unfold node_events. rewrite list_elem_of_join. split.
  - intros (evs & Hin & (j & -> & Hj)%list_elem_of_fmap).
    apply zip_seq_elem in Hin as [_ Hl]. exists j.
    by replace (i - 0)%nat with i in Hl by lia.
  - intros (j & Hj & Hl). eexists. split; [|by apply list_elem_of_fmap_2].
    apply zip_seq_elem. split; [lia|]. by replace (i - 0)%nat with i by lia.
Qed.

Lemma ensure_node_ids i a ns :
  Node.id <$> ensure_node i a ns
  = if decide (stepKey i a ∈ Node.id <$> ns) then Node.id <$> ns
    else (Node.id <$> ns) ++ [stepKey i a].
Proof.
  unfold ensure_node. destruct (list_find _ ns) as [[k n]|] eqn:Hf.
  - apply list_find_Some in Hf as (Hk & Hid & _).
    rewrite decide_True; [done|]. rewrite <-Hid.
    apply list_elem_of_fmap_2. eauto using list_elem_of_lookup_2.
  - rewrite list_find_None, Forall_forall in Hf.
    rewrite decide_False, fmap_app; [done|].
    intros (n & Hid & Hin)%list_elem_of_fmap. by apply (Hf n Hin).
Qed.

Lemma ensure_node_fresh i a ns :
  Forall fresh_node ns → Forall fresh_node (ensure_node i a ns).
Proof.
  intros Hns. unfold ensure_node. destruct (list_find _ ns); [done|].
  apply Forall_app. split; [done|]. by apply Forall_singleton.
Qed.

Lemma fold_ensure_fresh evs ns :
  Forall fresh_node ns → Forall fresh_node (foldl ensure_step ns evs).
Proof.
  revert ns. induction evs as [|[i a] evs IH]; intros ns Hns; [done|].
  simpl. apply IH. by apply ensure_node_fresh.
Qed.

Lemma fold_ensure_NoDup evs ns :
  NoDup (Node.id <$> ns) → NoDup (Node.id <$> foldl ensure_step ns evs).
Proof.
  revert ns. induction evs as [|[i a] evs IH]; intros ns Hnd; [done|].
  simpl. apply IH. unfold ensure_step; simpl. rewrite ensure_node_ids.
  case_decide; [done|]. apply NoDup_app. split_and!; [done| |apply NoDup_singleton].
  intros x Hx ->%list_elem_of_singleton. done.
Qed.

Lemma fold_ensure_ids evs ns s :
  s ∈ Node.id <$> foldl ensure_step ns evs
  ↔ s ∈ Node.id <$> ns ∨ ∃ i a, (i, a) ∈ evs ∧ s = stepKey i a.
Proof.
  revert ns. induction evs as [|[i a] evs IH]; intros ns; simpl.
  - split; [auto|]. intros [?|(? & ? & ?%elem_of_nil & _)]; done.
  - rewrite IH. unfold ensure_step at 1. simpl. rewrite ensure_node_ids.
    setoid_rewrite elem_of_cons. case_decide.
    + split; [naive_solver|]. intros [?|(i' & a' & [[= -> ->]|?] & ->)]; eauto.
    + rewrite elem_of_app, list_elem_of_singleton. naive_solver.
Qed.

(** ** References to the links that satisfy a predicate *)

Lemma zip_seq_snoc {A} (l : list A) x :
  zip (seq 0 (length (l ++ [x]))) (l ++ [x])
  = zip (seq 0 (length l)) l ++ [(length l, x)].
Proof.
  rewrite length_app. simpl. rewrite seq_app. simpl.
  rewrite zip_with_app by (by rewrite length_seq). done.
Qed.

Section refs.
Context (P : Link.t → Prop) `{∀ l, Decision (P l)}.

Lemma refs_with_snoc ls l :
  refs_with P (ls ++ [l])
  = refs_with P ls ++ (if decide (P l) then [length ls] else []).
Proof.
  unfold refs_with. rewrite zip_seq_snoc, filter_app, fmap_app.
  rewrite filter_cons, filter_nil. simpl. by case_decide.
Qed.

Lemma elem_of_refs_with ls k :
  k ∈ refs_with P ls ↔ ∃ l, ls !! k = Some l ∧ P l.
Proof.
  induction ls as [|l ls IH] using rev_ind.
  { unfold refs_with; simpl. rewrite elem_of_nil. split; [done|].
    by intros (? & ? & _). }
  rewrite refs_with_snoc, elem_of_app, IH. split.
  - intros [(l' & Hl & HP)|Hk].
    + exists l'. split; [|done]. by apply lookup_app_l_Some.
    + case_decide; [|by apply elem_of_nil in Hk].
      apply list_elem_of_singleton in Hk as ->. exists l.
      by rewrite list_lookup_middle.
  - intros (l' & Hl & HP).
    apply lookup_app_Some in Hl as [Hl|[Hle Hl]]; [left; eauto|].
    right. apply list_lookup_singleton_Some in Hl as [Hk ->].
    rewrite decide_True by done. apply list_elem_of_singleton. lia.
Qed.

Lemma refs_with_lt ls k : k ∈ refs_with P ls → (k < length ls)%nat.
Proof. intros (l & Hl & _)%elem_of_refs_with. by eapply lookup_lt_Some. Qed.

Lemma NoDup_refs_with ls : NoDup (refs_with P ls).
Proof.
  induction ls as [|l ls IH] using rev_ind; [constructor|].
  rewrite refs_with_snoc. apply NoDup_app. split_and!; [done| |].
  - intros k Hk%refs_with_lt. case_decide; [|apply not_elem_of_nil].
    rewrite list_elem_of_singleton. lia.
  - case_decide; [apply NoDup_singleton|constructor].
Qed.

Lemma refs_with_values ls :
  sumZ (link_value ls <$> refs_with P ls) = sumZ (Link.value <$> filter P ls).
Proof.
  induction ls as [|l ls IH] using rev_ind; [done|].
  rewrite refs_with_snoc, filter_app, !fmap_app, !sumZ_app, <-IH. f_equal.
  - f_equal. apply list_fmap_ext. intros i k Hk.
    apply list_elem_of_lookup_2, refs_with_lt in Hk.
    unfold link_value. by rewrite lookup_app_l by done.
  - rewrite filter_cons, filter_nil. case_decide; [|done].
    simpl. unfold link_value. by rewrite list_lookup_middle.
Qed.
End refs.

Lemma foldl_sum_values ls ks z :
  foldl (λ sum k, sum + link_value ls k) z ks = z + sumZ (link_value ls <$> ks).
Proof.
  revert z. induction ks as [|k ks IH]; intros z.
  - unfold sumZ; simpl. lia.
  - rewrite fmap_cons, sumZ_cons. cbn [foldl]. rewrite IH. lia.
Qed.

Lemma sum_values_sumZ ls ks : sum_values ls ks = sumZ (link_value ls <$> ks).
Proof. unfold sum_values. rewrite foldl_sum_values. lia. Qed.

(** ** Link tracking *)

(** Updating the node found by its key, when keys are unique, is the
    pointwise update of the nodes with that key. *)
Lemma find_node_fmap_id (h : Node.t → Node.t) key ns :
  (∀ n, Node.id (h n) = Node.id n) →
  find_node key (h <$> ns) = prod_map id h <$> find_node key ns.
Proof.
  intros Hh. unfold find_node. rewrite list_find_fmap.
  f_equal. apply list_find_ext. intros n. simpl. by rewrite Hh.
Qed.

Lemma fmap_ids_preserved (h : Node.t → Node.t) (ns : list Node.t) :
  (∀ n, Node.id (h n) = Node.id n) → Node.id <$> (h <$> ns) = Node.id <$> ns.
Proof.
  intros Hh. rewrite <-list_fmap_compose. apply list_fmap_ext. intros i n _. apply Hh.
Qed.

Lemma alter_found_node (h : Node.t → Node.t) key ns :
  NoDup (Node.id <$> ns) →
  match find_node key ns with
  | Some (p, _) => alter h p ns
  | None => ns
  end = (λ n, if decide (Node.id n = key) then h n else n) <$> ns.
Proof.
  unfold find_node. induction ns as [|n ns IH]; [done|].
  rewrite fmap_cons, NoDup_cons. intros [Hnot Hnd].
  cbn [list_find]. case_decide as Hid.
  - simpl. rewrite decide_True by done. f_equal.
    rewrite <-(list_fmap_id ns) at 1. apply list_fmap_ext.
    intros i m Hm. rewrite decide_False; [done|].
    intros Heq. apply Hnot. rewrite Hid, <-Heq.
    apply list_elem_of_fmap_2. eauto using list_elem_of_lookup_2.
  - rewrite fmap_cons, decide_False by done. rewrite <-(IH Hnd).
    by destruct (list_find _ ns) as [[p m]|].
Qed.

Lemma track_link_spec (ns : list Node.t) k l :
  NoDup (Node.id <$> ns) →
  track_link ns (k, l)
  = (λ n, if decide (Node.id n = Link.target l)
          then Node.push_incoming k
                 (if decide (Node.id n = Link.source l) then Node.push_outgoing k n else n)
          else if decide (Node.id n = Link.source l) then Node.push_outgoing k n else n)
    <$> ns.
Proof.
  intros Hnd. unfold track_link. cbn [fst snd].
  pose proof (alter_found_node (Node.push_outgoing k) (Link.source l) ns Hnd) as Hsrc.
  set (upd := λ n : Node.t,
         if decide (Node.id n = Link.source l) then Node.push_outgoing k n else n) in *.
  assert (Hupd : ∀ n, Node.id (upd n) = Node.id n).
  { intros n. unfold upd. by case_decide. }
  rewrite Hsrc.
  assert (Hnd' : NoDup (Node.id <$> (upd <$> ns))).
  { by rewrite fmap_ids_preserved. }
  pose proof (alter_found_node (Node.push_incoming k) (Link.target l) (upd <$> ns) Hnd')
    as Htgt.
  rewrite (find_node_fmap_id upd) in Htgt by done.
  destruct (find_node (Link.target l) ns) as [[p m]|]; simpl in Htgt; rewrite Htgt;
    rewrite <-list_fmap_compose; apply list_fmap_ext; intros i n _; simpl;
    rewrite Hupd; by case_decide.
Qed.

Lemma with_refs_nil (ns : list Node.t) : with_refs [] <$> ns = ns.
Proof.
  rewrite <-(list_fmap_id ns) at 2. apply list_fmap_ext. intros i [] _.
  unfold with_refs, Node.set_link_lists, refs_with. simpl. by rewrite !app_nil_r.
Qed.

Lemma track_links_spec (ns : list Node.t) ls :
  NoDup (Node.id <$> ns) → track_links ns ls = with_refs ls <$> ns.
Proof.
  intros Hnd. unfold track_links.
  induction ls as [|l ls IH] using rev_ind.
  { simpl. by rewrite with_refs_nil. }
  rewrite zip_seq_snoc, foldl_app, IH. simpl.
  rewrite track_link_spec.
  2:{ by rewrite fmap_ids_preserved. }
  rewrite <-list_fmap_compose. apply list_fmap_ext. intros i n _. simpl.
  unfold with_refs. rewrite !refs_with_snoc.
  destruct n as [nid nname nstep ninc nout nh nc np ny].
  unfold Node.set_link_lists, Node.push_incoming, Node.push_outgoing. simpl.
  repeat case_decide; simpl; rewrite ?app_nil_r, <-?app_assoc; congruence.
Qed.

(** ** What the layout passes leave unchanged *)

Lemma same_but_y_refl n : same_but_y n n.
Proof. by destruct n. Qed.

Lemma place_node_same ns0 st p :
  Forall2 same_but_y ns0 st.1 → Forall2 same_but_y ns0 (place_node st p).1.
Proof.
  intros Hst. unfold place_node. destruct (st.1 !! p) as [node|]; [|done].
  simpl. apply Forall2_alter_r; [done|].
  intros n n' _ _ ->. by destruct n.
Qed.

Lemma place_nodes_same ns0 ps st :
  Forall2 same_but_y ns0 st.1 → Forall2 same_but_y ns0 (foldl place_node st ps).1.
Proof.
  revert st. induction ps as [|p ps IH]; intros st Hst; [done|].
  simpl. by apply IH, place_node_same.
Qed.

Lemma position_nodes_same ns : Forall2 same_but_y ns (position_nodes ns).
Proof.
  unfold position_nodes. generalize (nodesByStep ns). intros groups.
  assert (Hinit : Forall2 same_but_y ns ns).
  { apply Forall2_same_length_lookup. split; [done|].
    intros i n n' ? ?. simplify_eq. apply same_but_y_refl. }
  revert Hinit. generalize ns at 2 4. intros cur Hcur. revert cur Hcur.
  induction groups as [|e groups IH]; intros cur Hcur; [done|].
  simpl. apply IH. by apply (place_nodes_same ns e.2 (cur, 0%Q)).
Qed.

Lemma link_value_core ls ls' k :
  link_core <$> ls = link_core <$> ls' → link_value ls k = link_value ls' k.
Proof.
  intros Hcore. unfold link_value.
  assert (Hk : (link_core <$> ls) !! k = (link_core <$> ls') !! k) by by rewrite Hcore.
  rewrite !list_lookup_fmap in Hk.
  destruct (ls !! k), (ls' !! k); simplify_eq/=; [|done].
  unfold link_core in Hk. by simplify_eq.
Qed.

Lemma sort_desc_core ls ls' ks :
  link_core <$> ls = link_core <$> ls' → sort_desc ls ks = sort_desc ls' ks.
Proof.
  intros Hcore. unfold sort_desc. induction ks as [|k ks IH]; [done|].
  simpl. rewrite IH. generalize (foldr (insert_desc ls') [] ks). intros sorted.
  induction sorted as [|k' sorted IHs]; [done|].
  simpl. rewrite !(link_value_core ls ls') by done.
  case_decide; [done|]. by rewrite IHs.
Qed.

Lemma stack_core set mx ks y0 ls :
  (∀ v l, link_core (set v l) = link_core l) →
  link_core <$> stack set mx ks y0 ls = link_core <$> ls.
Proof.
  intros Hset. revert y0 ls. induction ks as [|k ks IH]; intros y0 ls; [done|].
  simpl. rewrite IH. rewrite (list_fmap_alter _ _ id) by (by apply Forall_forall).
  by apply list_alter_id.
Qed.

Lemma position_links_node_core mx ls node :
  link_core <$> (position_links_node mx ls node).2 = link_core <$> ls.
Proof. unfold position_links_node. simpl. by rewrite !stack_core. Qed.

Lemma position_links_spec mx ns ls :
  nodes (position_links mx ns ls) = sorted_lists ls <$> ns
  ∧ link_core <$> links (position_links mx ns ls) = link_core <$> ls.
Proof.
  revert ls. induction ns as [|node ns IH]; intros ls; [done|].
  cbn [position_links].
  pose proof (position_links_node_core mx ls node) as Hcore.
  destruct (position_links_node mx ls node) as [node' ls'] eqn:Hnode.
  destruct (IH ls') as [IHn IHl]. cbn [nodes links]. rewrite IHn, IHl.
  split; [|done]. rewrite fmap_cons. f_equal.
  - unfold position_links_node in Hnode. by simplify_eq.
  - apply list_fmap_ext. intros i n _. unfold sorted_lists.
    by rewrite !(sort_desc_core ls' ls).
Qed.

(** ** Shape of the finished graph *)

Lemma build_ids_NoDup js cutoff : NoDup (Node.id <$> nodes (build js cutoff)).
Proof. rewrite build_nodes. apply fold_ensure_NoDup. constructor. Qed.

Lemma build_fresh js cutoff : Forall fresh_node (nodes (build js cutoff)).
Proof. rewrite build_nodes. by apply fold_ensure_fresh. Qed.

Lemma build_link_keys_NoDup js cutoff :
  NoDup (link_key <$> links (build js cutoff)).
Proof. rewrite build_links. apply fold_add_event_NoDup. constructor. Qed.

Lemma final_links_core js cutoff :
  link_core <$> links (SankeyDiagram js cutoff)
  = link_core <$> links (build js cutoff).
Proof. unfold SankeyDiagram. apply position_links_spec. Qed.

Lemma final_links_length js cutoff :
  length (links (SankeyDiagram js cutoff)) = length (links (build js cutoff)).
Proof. by rewrite <-(length_fmap link_core), final_links_core, length_fmap. Qed.

Lemma final_nodes_shape js cutoff :
  let ls := links (build js cutoff) in
  Forall2 (λ n0 n, n = Node.set_y (Node.y n) (sorted_lists ls (described js ls n0)))
          (nodes (build js cutoff)) (nodes (SankeyDiagram js cutoff)).
Proof.
  intros ls. unfold SankeyDiagram. fold ls.
  destruct (position_links_spec (maxLinkValue ls)
    (position_nodes (node_meta js ls (maxLinkValue ls)
                       <$> track_links (nodes (build js cutoff)) ls)) ls) as [-> _].
  rewrite track_links_spec by apply build_ids_NoDup.
  rewrite <-list_fmap_compose.
  apply Forall2_fmap_r.
  eapply Forall2_impl.
  - eapply Forall2_fmap_l. apply position_nodes_same.
  - intros n0 n3 ->. simpl. unfold described. by destruct (node_meta _ _ _ _).
Qed.

Lemma final_node_lookup js cutoff p n :
  nodes (SankeyDiagram js cutoff) !! p = Some n →
  let ls := links (build js cutoff) in
  ∃ n0, nodes (build js cutoff) !! p = Some n0 ∧ fresh_node n0
        ∧ n = Node.set_y (Node.y n) (sorted_lists ls (described js ls n0)).
Proof.
  intros Hn ls. pose proof (final_nodes_shape js cutoff) as Hshape.
  destruct (Forall2_lookup_r _ _ _ _ _ Hshape Hn) as (n0 & Hn0 & Heq).
  exists n0. split_and!; [done| |done].
  pose proof (build_fresh js cutoff) as Hfresh.
  rewrite Forall_lookup in Hfresh. by eapply Hfresh.
Qed.

Lemma final_nodes_length js cutoff :
  length (nodes (SankeyDiagram js cutoff)) = length (nodes (build js cutoff)).
Proof. symmetry. eapply Forall2_length, final_nodes_shape. Qed.

Lemma final_nodes_keys js cutoff :
  (λ n, (Node.id n, Node.name n, Node.step n)) <$> nodes (SankeyDiagram js cutoff)
  = (λ n, (Node.id n, Node.name n, Node.step n)) <$> nodes (build js cutoff).
Proof.
  apply list_eq_same_length with (length (nodes (build js cutoff))).
  - by rewrite length_fmap.
  - by rewrite length_fmap, final_nodes_length.
  - intros i x y _. rewrite !list_lookup_fmap. intros Hx Hy.
    destruct (nodes (SankeyDiagram js cutoff) !! i) as [n|] eqn:Hn; [|done].
    apply final_node_lookup in Hn as (n0 & Hn0 & _ & Heq).
    rewrite Hn0 in Hy. simplify_eq/=. by rewrite Heq.
Qed.

Lemma final_node_keys js cutoff :
  node_key <$> nodes (SankeyDiagram js cutoff) = node_key <$> nodes (build js cutoff).
Proof.
  pose proof (f_equal (fmap (λ t : string * string * nat, (t.2, t.1.2)))
                (final_nodes_keys js cutoff)) as Heq.
  by rewrite <-!list_fmap_compose in Heq.
Qed.

Lemma final_node_ids js cutoff :
  Node.id <$> nodes (SankeyDiagram js cutoff) = Node.id <$> nodes (build js cutoff).
Proof.
  pose proof (f_equal (fmap (λ t : string * string * nat, t.1.1))
                (final_nodes_keys js cutoff)) as Heq.
  by rewrite <-!list_fmap_compose in Heq.
Qed.

Lemma final_link_keys js cutoff :
  link_key <$> links (SankeyDiagram js cutoff) = link_key <$> links (build js cutoff).
Proof.
  pose proof (f_equal (fmap (λ t : string * string * Z, t.1))
                (final_links_core js cutoff)) as Heq.
  by rewrite <-!list_fmap_compose in Heq.
Qed.

Lemma key_value_core ls key :
  key_value ls key = sumZ (snd <$> filter (λ c, c.1 = key) (link_core <$> ls)).
Proof.
  induction ls as [|l ls IH]; [done|].
  rewrite key_value_cons, IH, fmap_cons, filter_cons.
  change ((link_core l).1) with (link_key l).
  case_decide; [by rewrite fmap_cons, sumZ_cons|lia].
Qed.

Lemma final_key_value js cutoff key :
  key_value (links (SankeyDiagram js cutoff)) key
  = key_value (links (build js cutoff)) key.
Proof. by rewrite !key_value_core, final_links_core. Qed.

Lemma final_id_stepKey js cutoff n :
  n ∈ nodes (SankeyDiagram js cutoff) →
  Node.id n = stepKey (Node.step n) (Node.name n).
Proof.
  intros (p & Hp)%list_elem_of_lookup_1.
  apply final_node_lookup in Hp as (n0 & _ & (Hid & _) & ->). done.
Qed.

Lemma build_node_keys js cutoff i a :
  (i, a) ∈ node_key <$> nodes (build js cutoff)
  ↔ ∃ j, j ∈ slice0 js cutoff ∧ Journey.path j !! i = Some a.
Proof.
  rewrite <-node_events_elem.
  pose proof (build_fresh js cutoff) as Hfresh. rewrite Forall_forall in Hfresh.
  pose proof (fold_ensure_ids (node_events (slice0 js cutoff)) [] (stepKey i a)) as Hids.
  rewrite <-build_nodes in Hids. split.
  - intros (n & [= -> ->] & Hn)%list_elem_of_fmap.
    destruct (Hfresh n Hn) as [Hkey _].
    assert (Hin : stepKey (Node.step n) (Node.name n)
                  ∈ Node.id <$> nodes (build js cutoff)).
    { rewrite <-Hkey. by apply list_elem_of_fmap_2. }
    apply Hids in Hin as [Hnil|(i' & a' & Hin & [-> ->]%stepKey_inj)];
      [by apply elem_of_nil in Hnil|done].
  - intros Hin.
    assert (Hid : stepKey i a ∈ Node.id <$> nodes (build js cutoff)).
    { apply Hids. right. eauto. }
    apply list_elem_of_fmap in Hid as (n & Hid & Hn).
    destruct (Hfresh n Hn) as [Hkey _]. rewrite Hkey in Hid.
    apply stepKey_inj in Hid as [-> ->]. by apply (list_elem_of_fmap_2 node_key).
Qed.

Lemma build_node_keys_NoDup js cutoff :
  NoDup (node_key <$> nodes (build js cutoff)).
Proof.
  apply (NoDup_fmap_1 (λ k : nat * string, stepKey k.1 k.2)).
  rewrite <-list_fmap_compose.
  erewrite list_fmap_ext; [apply build_ids_NoDup|].
  intros i n Hn%list_elem_of_lookup_2. simpl.
  pose proof (build_fresh js cutoff) as Hfresh. rewrite Forall_forall in Hfresh.
  by destruct (Hfresh n Hn) as [-> _].
Qed.

Lemma build_link_transition js cutoff l :
  l ∈ links (build js cutoff) →
  ∃ j i a b, j ∈ slice0 js cutoff ∧ has_transition j i a b
             ∧ Link.source l = stepKey i a ∧ Link.target l = stepKey (S i) b.
Proof.
  intros Hl. apply (list_elem_of_fmap_2 link_key) in Hl.
  rewrite build_links, fold_add_event_keys in Hl.
  destruct Hl as [Hnil|Hl]; [by apply elem_of_nil in Hnil|].
  apply link_events_elem in Hl as (j & i & a & b & Hj & Htr & [= Hs Ht]).
  by exists j, i, a, b.
Qed.

Lemma build_transition_link js cutoff j i a b :
  j ∈ slice0 js cutoff → has_transition j i a b →
  (stepKey i a, stepKey (S i) b) ∈ link_key <$> links (build js cutoff).
Proof.
  intros Hj Htr. rewrite build_links, fold_add_event_keys. right.
  apply link_events_elem. by exists j, i, a, b.
Qed.

Lemma build_link_value js cutoff l i a b :
  l ∈ links (build js cutoff) →
  Link.source l = stepKey i a → Link.target l = stepKey (S i) b →
  Link.value l
  = sumZ ((λ j, if decide (has_transition j i a b) then Journey.count j else 0)
          <$> slice0 js cutoff).
Proof.
  intros Hl Hs Ht.
  rewrite (key_value_NoDup _ l (build_link_keys_NoDup js cutoff) Hl).
  unfold link_key. rewrite Hs, Ht, build_links, fold_add_event_value.
  rewrite link_events_matching. unfold key_value. simpl. lia.
Qed.

(** ** Graph builder: links (C1) *)

Lemma links_accumulate_core js cutoff ls :
  link_core <$> ls = link_core <$> links (build js cutoff) →
  links_accumulate (slice0 js cutoff) ls.
Proof.
  intros Hcore.
  assert (Hkeys : link_key <$> ls = link_key <$> links (build js cutoff)).
  { pose proof (f_equal (fmap (λ t : string * string * Z, t.1)) Hcore) as Heq.
    by rewrite <-!list_fmap_compose in Heq. }
  split_and!.
  - rewrite Hkeys. apply build_link_keys_NoDup.
  - intros l Hl. apply (list_elem_of_fmap_2 link_core) in Hl.
    rewrite Hcore in Hl. apply list_elem_of_fmap in Hl as (l0 & [= Hs Ht Hv] & Hl0).
    destruct (build_link_transition _ _ _ Hl0) as (j & i & a & b & Hj & Htr & Hs0 & Ht0).
    exists i, a, b. rewrite Hs, Ht, Hv. split_and!; [done..|by exists j|].
    by apply build_link_value.
  - intros j i a b Hj Htr.
    pose proof (build_transition_link _ _ _ _ _ _ Hj Htr) as Hin.
    rewrite <-Hkeys in Hin. apply list_elem_of_fmap in Hin as (l & [= Hs Ht] & Hl).
    by exists l.
Qed.

(** C1: after the builder loop, and in the finished graph, there is at most
    one link per ordered (source, target) pair; every link joins the key of
    some label [a] at some layer [i] to the key of a label [b] at layer
    [i + 1] for a transition that some considered journey makes, and its
    value is the sum of the counts of the considered journeys whose path has
    [a] at [i] and [b] at [i + 1]; every such transition of a considered
    journey has its link. *)
Theorem C1_link_values_accumulate js cutoff :
  links_accumulate (slice0 js cutoff) (links (build js cutoff))
  ∧ links_accumulate (slice0 js cutoff) (links (SankeyDiagram js cutoff)).
Proof.
  split; apply links_accumulate_core; [done|apply final_links_core].
Qed.

(** ** Graph builder: nodes (C6) *)

Lemma nodes_unique_build js cutoff :
  nodes_unique (slice0 js cutoff) (nodes (build js cutoff)).
Proof.
  split_and!.
  - apply build_node_keys_NoDup.
  - apply build_ids_NoDup.
  - intros n Hn. pose proof (build_fresh js cutoff) as Hfresh.
    rewrite Forall_forall in Hfresh. by destruct (Hfresh n Hn).
  - apply build_node_keys.
Qed.

Lemma nodes_unique_final js cutoff :
  nodes_unique (slice0 js cutoff) (nodes (SankeyDiagram js cutoff)).
Proof.
  destruct (nodes_unique_build js cutoff) as (H1 & H2 & H3 & H4).
  split_and!.
  - by rewrite final_node_keys.
  - by rewrite final_node_ids.
  - apply final_id_stepKey.
  - intros i a. by rewrite final_node_keys.
Qed.

Lemma links_adjacent_of js g :
  nodes_unique js (nodes g) → links_accumulate js (links g) → links_adjacent g.
Proof.
  intros (_ & _ & Hid & Hkeys) (_ & Hl & _) l Hin.
  destruct (Hl l Hin) as (i & a & b & Hs & Ht & (j & Hj & Ha & Hb) & _).
  assert (H1 : (i, a) ∈ node_key <$> nodes g) by (apply Hkeys; eauto).
  assert (H2 : (S i, b) ∈ node_key <$> nodes g) by (apply Hkeys; eauto).
  apply list_elem_of_fmap in H1 as (n1 & [= E1 E1'] & Hn1).
  apply list_elem_of_fmap in H2 as (n2 & [= E2 E2'] & Hn2).
  exists n1, n2. rewrite (Hid n1 Hn1), (Hid n2 Hn2), Hs, Ht, <-E1, <-E1', <-E2, <-E2'.
  done.
Qed.

(** C6: in the builder's result and in the finished graph, the pairs
    (layer index, label) of the nodes are pairwise distinct and are exactly
    the pairs that occur in a considered journey; the key of a node is the
    one of its pair, so equal labels at different layers are different
    nodes; and every link goes from a node at some layer to a node at the
    next layer. *)
Theorem C6_one_node_per_layer_label js cutoff :
  (nodes_unique (slice0 js cutoff) (nodes (build js cutoff))
   ∧ links_adjacent (build js cutoff))
  ∧ (nodes_unique (slice0 js cutoff) (nodes (SankeyDiagram js cutoff))
     ∧ links_adjacent (SankeyDiagram js cutoff)).
Proof.
  pose proof (links_accumulate_core js cutoff _ eq_refl) as Hb.
  pose proof (links_accumulate_core js cutoff _ (final_links_core js cutoff)) as Hf.
  split; (split; [|eapply links_adjacent_of; [|done]]);
    auto using nodes_unique_build, nodes_unique_final.
Qed.

(** ** Percentage of a node (C7) *)

Lemma final_node_percentage js cutoff n :
  n ∈ nodes (SankeyDiagram js cutoff) →
  Node.percentage n
  = match list_find (matches n) js with
    | Some (_, j) => Journey.percentage j
    | None => 0%Q
    end.
Proof.
  intros (p & Hp)%list_elem_of_lookup_1.
  apply final_node_lookup in Hp as (n0 & _ & _ & ->). done.
Qed.

(** C7: the percentage of a node of the finished graph is the [percentage]
    of the first journey, in the order of the whole input, whose path has
    the node's label at the node's layer; it is 0 when no journey of the
    input has. *)
Theorem C7_percentage_first_match js cutoff p n :
  nodes (SankeyDiagram js cutoff) !! p = Some n →
  percentage_rule js n.
Proof.
  intros Hn%list_elem_of_lookup_2. unfold percentage_rule.
  rewrite (final_node_percentage _ _ _ Hn).
  destruct (list_find (matches n) js) as [[k j]|] eqn:Hfind.
  - left. apply list_find_Some in Hfind as (Hk & Hm & Hfirst).
    exists k, j. split_and!; [done..| |done].
    intros k' j' Hlt Hk'. by eapply Hfirst.
  - right. rewrite list_find_None, Forall_forall in Hfind. done.
Qed.

(** ** The journey cutoff (C8) *)

Lemma slice0_take {A} (l : list A) stop : ∃ m, slice0 l stop = take m l.
Proof. unfold slice0. case_decide; eauto. Qed.

Lemma slice0_nonneg {A} (l : list A) stop :
  0 ≤ stop → slice0 l stop = take (Z.to_nat stop) l.
Proof. intros. unfold slice0. by rewrite decide_False by lia. Qed.

Lemma finish_considered js cutoff :
  SankeyDiagram js cutoff = finish (slice0 js cutoff) (build js cutoff).
Proof.
  unfold SankeyDiagram, finish. cbv zeta. do 2 f_equal.
  rewrite track_links_spec by apply build_ids_NoDup.
  rewrite <-!list_fmap_compose. apply list_fmap_ext.
  intros i n0 Hn0%list_elem_of_lookup_2. simpl.
  unfold node_meta. f_equal. cbn [Node.step Node.name with_refs Node.set_link_lists].
  assert (Hkey : (Node.step n0, Node.name n0) ∈ node_key <$> nodes (build js cutoff))
    by by apply (list_elem_of_fmap_2 node_key).
  apply build_node_keys in Hkey as (j & Hj & Hpath).
  destruct (slice0_take js cutoff) as [m Hm]. rewrite Hm in *.
  destruct (list_find _ (take m js)) as [[k j']|] eqn:Hfind.
  - rewrite <-(take_drop m js) at 1. by erewrite list_find_app_l.
  - rewrite list_find_None, Forall_forall in Hfind. by destruct (Hfind j Hj).
Qed.

(** C8: with a non-negative cutoff the considered journeys are the first
    [cutoff] ones and the graph depends on nothing else of the input; an
    empty input, a zero cutoff, or journeys that all have an empty path
    give the empty graph.  The pass is a total function: it has no error
    outcome. *)
Theorem C8_cutoff_and_empty js cutoff :
  (0 ≤ cutoff →
     slice0 js cutoff = take (Z.to_nat cutoff) js
     ∧ ∀ js', take (Z.to_nat cutoff) js' = take (Z.to_nat cutoff) js →
         build js' cutoff = build js cutoff
         ∧ SankeyDiagram js' cutoff = SankeyDiagram js cutoff)
  ∧ SankeyDiagram [] cutoff = mkGraph [] []
  ∧ SankeyDiagram js 0 = mkGraph [] []
  ∧ (Forall (λ j, Journey.path j = []) js →
       SankeyDiagram js cutoff = mkGraph [] []).
Proof.
  split_and!.
  - intros Hle. split; [by apply slice0_nonneg|]. intros js' Htake.
    assert (Hslice : slice0 js' cutoff = slice0 js cutoff)
      by by rewrite !slice0_nonneg.
    assert (Hbuild : build js' cutoff = build js cutoff)
      by (unfold build; by rewrite Hslice).
    split; [done|]. by rewrite !finish_considered, Hslice, Hbuild.
  - rewrite finish_considered. unfold build.
    destruct (slice0_take (@nil Journey.t) cutoff) as [m ->]. by rewrite take_nil.
  - done.
  - intros Hempty. rewrite finish_considered. unfold build.
    assert (Hsl : Forall (λ j, Journey.path j = []) (slice0 js cutoff)).
    { destruct (slice0_take js cutoff) as [m ->]. by apply Forall_take. }
    assert (Hfold : foldl visit_journey (mkGraph [] []) (slice0 js cutoff)
                    = mkGraph [] []).
    { induction Hsl as [|j l Hj _ IH]; [done|].
      simpl. unfold visit_journey at 2. rewrite Hj. simpl. apply IH. }
    by rewrite Hfold.
Qed.

(** ** The sort of the link references *)

Lemma insert_desc_perm ls k ks : insert_desc ls k ks ≡ₚ k :: ks.
Proof.
  induction ks as [|k' ks IH]; [done|]. simpl. case_decide; [done|].
  rewrite IH. apply Permutation_swap.
Qed.

Lemma sort_desc_perm ls ks : sort_desc ls ks ≡ₚ ks.
Proof.
  unfold sort_desc. induction ks as [|k ks IH]; [done|].
  simpl. by rewrite insert_desc_perm, IH.
Qed.

Global Instance sumZ_perm : Proper ((≡ₚ) ==> (=)) sumZ.
Proof.
  intros l1 l2 Hperm. induction Hperm; rewrite ?sumZ_cons; lia.
Qed.

Lemma filter_core_values (P : string * string * Z → Prop) `{∀ c, Decision (P c)} ls :
  sumZ (Link.value <$> filter (λ l, P (link_core l)) ls)
  = sumZ (snd <$> filter P (link_core <$> ls)).
Proof.
  induction ls as [|l ls IH]; [done|].
  rewrite fmap_cons, !filter_cons. case_decide.
  - by rewrite !fmap_cons, !sumZ_cons, IH.
  - done.
Qed.

(** ** Facts about a node of the finished graph *)

Lemma final_node_facts js cutoff p n :
  nodes (SankeyDiagram js cutoff) !! p = Some n →
  let ls := links (build js cutoff) in
  Node.outgoingLinks n = sort_desc ls (outgoing_refs ls n)
  ∧ Node.incomingLinks n = sort_desc ls (incoming_refs ls n)
  ∧ Node.count n = (if decide (Node.step n = 0%nat)
                    then sum_values ls (outgoing_refs ls n)
                    else sum_values ls (incoming_refs ls n))
  ∧ Node.height n
    = Qmax (linkWidthScale (maxLinkValue ls)
              (Z.max (sum_values ls (incoming_refs ls n))
                     (sum_values ls (outgoing_refs ls n))))
           MIN_NODE_HEIGHT.
Proof.
  intros Hn ls.
  apply final_node_lookup in Hn as (n0 & _ & (_ & Hin & Hout) & ->).
  fold ls. unfold outgoing_refs, incoming_refs, described, node_meta, with_refs.
  cbn. rewrite Hin, Hout. done.
Qed.

Lemma link_value_final js cutoff k :
  link_value (links (SankeyDiagram js cutoff)) k
  = link_value (links (build js cutoff)) k.
Proof. apply link_value_core, final_links_core. Qed.

Lemma refs_with_core (P : string * string * Z → Prop) `{∀ c, Decision (P c)} ls ls' :
  link_core <$> ls = link_core <$> ls' →
  refs_with (λ l, P (link_core l)) ls = refs_with (λ l, P (link_core l)) ls'.
Proof.
  revert ls'. induction ls as [|l ls IH] using rev_ind; intros ls' Hcore.
  { by destruct ls'. }
  destruct ls' as [|l' ls' _] using rev_ind.
  { rewrite fmap_app in Hcore. by destruct (link_core <$> ls). }
  rewrite !fmap_app in Hcore. simpl in Hcore.
  apply app_inj_2 in Hcore as [Hcore Hl]; [|done].
  assert (Hl' : link_core l = link_core l') by congruence.
  rewrite !refs_with_snoc, (IH ls' Hcore), Hl'.
  assert (Hlen : length ls = length ls').
  { by rewrite <-(length_fmap link_core ls), Hcore, length_fmap. }
  by rewrite Hlen.
Qed.

Lemma outgoing_refs_final js cutoff n :
  outgoing_refs (links (SankeyDiagram js cutoff)) n
  = outgoing_refs (links (build js cutoff)) n.
Proof.
  exact (refs_with_core (λ c, c.1.1 = Node.id n) _ _ (final_links_core js cutoff)).
Qed.

Lemma incoming_refs_final js cutoff n :
  incoming_refs (links (SankeyDiagram js cutoff)) n
  = incoming_refs (links (build js cutoff)) n.
Proof.
  exact (refs_with_core (λ c, c.1.2 = Node.id n) _ _ (final_links_core js cutoff)).
Qed.

Lemma sort_desc_final js cutoff ks :
  sort_desc (links (SankeyDiagram js cutoff)) ks
  = sort_desc (links (build js cutoff)) ks.
Proof. apply sort_desc_core, final_links_core. Qed.

Lemma sum_values_final js cutoff ks :
  sum_values (links (SankeyDiagram js cutoff)) ks
  = sum_values (links (build js cutoff)) ks.
Proof.
  rewrite !sum_values_sumZ. f_equal. apply list_fmap_ext.
  intros i k _. apply link_value_final.
Qed.

Lemma sum_values_perm ls ks ks' : ks ≡ₚ ks' → sum_values ls ks = sum_values ls ks'.
Proof. intros Hp. rewrite !sum_values_sumZ. by rewrite Hp. Qed.

(** ** Total flow of a node (C2) *)

(** C2: the [count] of a node of the finished graph is the sum of the values
    of its outgoing links when its layer index is 0 and the sum of the
    values of its incoming links otherwise, where its outgoing (incoming)
    links are exactly the links of the graph whose source (target) is the
    node. *)
Theorem C2_total_flow js cutoff p n :
  nodes (SankeyDiagram js cutoff) !! p = Some n →
  total_flow_rule (SankeyDiagram js cutoff) n.
Proof.
  intros Hn. unfold total_flow_rule.
  destruct (final_node_facts _ _ _ _ Hn) as (Hout & Hin & Hcount & _).
  assert (Hpo : Node.outgoingLinks n ≡ₚ outgoing_refs (links (SankeyDiagram js cutoff)) n).
  { by rewrite Hout, sort_desc_perm, outgoing_refs_final. }
  assert (Hpi : Node.incomingLinks n ≡ₚ incoming_refs (links (SankeyDiagram js cutoff)) n).
  { by rewrite Hin, sort_desc_perm, incoming_refs_final. }
  split_and!; [|done|done| |].
  - rewrite Hcount, !sum_values_final, Hout, Hin.
    by rewrite !(sum_values_perm _ _ _ (sort_desc_perm _ _)).
  - rewrite (sum_values_perm _ _ _ Hpo), sum_values_sumZ.
    apply (refs_with_values (λ l, Link.source l = Node.id n)).
  - rewrite (sum_values_perm _ _ _ Hpi), sum_values_sumZ.
    apply (refs_with_values (λ l, Link.target l = Node.id n)).
Qed.

(** ** The sort is a stable sort by descending value *)






(** ** Stacking of the links of one side of a node *)

Section stack.
Context (set : Q → Link.t → Link.t) (get : Link.t → option Q).
Context (Hcore : ∀ v l, link_core (set v l) = link_core l).
Context (Hget : ∀ v l, get (set v l) = Some v).

Lemma stack_length mx ks y0 ls : length (stack set mx ks y0 ls) = length ls.
Proof. by rewrite <-(length_fmap link_core), stack_core, length_fmap. Qed.

Lemma stack_lookup_notin mx ks y0 ls k :
  k ∉ ks → stack set mx ks y0 ls !! k = ls !! k.
Proof.
  revert y0 ls. induction ks as [|k0 ks IH]; intros y0 ls Hk; [done|].
  apply not_elem_of_cons in Hk as [Hne Hk]. simpl.
  rewrite IH by done. by rewrite list_lookup_alter_ne.
Qed.

Lemma stack_lookup_in mx ks y0 ls q k :
  NoDup ks → ks !! q = Some k → (k < length ls)%nat →
  get <$> stack set mx ks y0 ls !! k
  = Some (Some (running y0 (thickness mx ls <$> take q ks)
                + thickness mx ls k / 2)%Q).
Proof.
  revert q y0 ls. induction ks as [|k0 ks IH]; intros q y0 ls Hnd Hq Hlt; [done|].
  apply NoDup_cons in Hnd as [Hnot Hnd]. destruct q as [|q]; simplify_eq/=.
  - rewrite stack_lookup_notin by done. rewrite list_lookup_alter_eq.
    destruct (lookup_lt_is_Some_2 ls k Hlt) as [l ->]. simpl.
    by rewrite Hget.
  - rewrite (IH q) by (by rewrite ?length_alter).
    assert (Hsame : link_core <$> alter (set (y0 + linkWidthScale mx (link_value ls k0) / 2)%Q) k0 ls
                    = link_core <$> ls).
    { rewrite (list_fmap_alter _ _ id) by (by apply Forall_forall).
      by apply list_alter_id. }
    unfold thickness.
    rewrite (link_value_core _ _ k Hsame).
    erewrite list_fmap_ext; [done|].
    intros i x _. simpl. by rewrite (link_value_core _ _ x Hsame).
Qed.
End stack.

Lemma stack_get_other set (get : Link.t → option Q) mx ks y0 ls :
  (∀ v l, get (set v l) = get l) →
  get <$> stack set mx ks y0 ls = get <$> ls.
Proof.
  intros Hother. revert y0 ls. induction ks as [|k ks IH]; intros y0 ls; [done|].
  simpl. rewrite IH. rewrite (list_fmap_alter _ _ id) by (by apply Forall_forall).
  by apply list_alter_id.
Qed.

(** ** Anchors written by the link positioning pass *)

Lemma set_sourceY_core v l : link_core (Link.set_sourceY v l) = link_core l.
Proof. done. Qed.
Lemma set_targetY_core v l : link_core (Link.set_targetY v l) = link_core l.
Proof. done. Qed.

Lemma elem_of_sort_desc ls ks k : k ∈ sort_desc ls ks ↔ k ∈ ks.
Proof. by rewrite sort_desc_perm. Qed.

Lemma position_links_node_sourceY_notin mx ls node k :
  k ∉ Node.outgoingLinks node →
  Link.sourceY <$> (position_links_node mx ls node).2 !! k = Link.sourceY <$> ls !! k.
Proof.
  intros Hk. unfold position_links_node. cbn [snd].
  rewrite <-!list_lookup_fmap.
  rewrite (stack_get_other Link.set_targetY Link.sourceY) by done.
  rewrite !list_lookup_fmap, stack_lookup_notin; [done|].
  by rewrite elem_of_sort_desc.
Qed.

Lemma position_links_node_targetY_notin mx ls node k :
  k ∉ Node.incomingLinks node →
  Link.targetY <$> (position_links_node mx ls node).2 !! k = Link.targetY <$> ls !! k.
Proof.
  intros Hk. unfold position_links_node. cbn [snd].
  rewrite stack_lookup_notin by (by rewrite elem_of_sort_desc).
  rewrite <-!list_lookup_fmap.
  by rewrite (stack_get_other Link.set_sourceY Link.targetY) by done.
Qed.

Lemma position_links_node_sourceY_in mx ls node q k :
  NoDup (Node.outgoingLinks node) →
  sort_desc ls (Node.outgoingLinks node) !! q = Some k → (k < length ls)%nat →
  Link.sourceY <$> (position_links_node mx ls node).2 !! k
  = Some (Some (running (top_edge node)
                  (thickness mx ls <$> take q (sort_desc ls (Node.outgoingLinks node)))
                + thickness mx ls k / 2)%Q).
Proof.
  intros Hnd Hq Hlt. unfold position_links_node. cbn [snd].
  rewrite <-!list_lookup_fmap.
  rewrite (stack_get_other Link.set_targetY Link.sourceY) by done.
  rewrite list_lookup_fmap.
  apply (stack_lookup_in Link.set_sourceY Link.sourceY); try done.
  by rewrite sort_desc_perm.
Qed.

Lemma position_links_node_targetY_in mx ls node q k :
  NoDup (Node.incomingLinks node) →
  sort_desc ls (Node.incomingLinks node) !! q = Some k → (k < length ls)%nat →
  Link.targetY <$> (position_links_node mx ls node).2 !! k
  = Some (Some (running (top_edge node)
                  (thickness mx ls <$> take q (sort_desc ls (Node.incomingLinks node)))
                + thickness mx ls k / 2)%Q).
Proof.
  intros Hnd Hq Hlt. unfold position_links_node. cbn [snd].
  set (ls1 := stack Link.set_sourceY mx _ _ ls).
  assert (Hsame : link_core <$> ls1 = link_core <$> ls) by by apply stack_core.
  rewrite (stack_lookup_in Link.set_targetY Link.targetY set_targetY_core
             (λ _ _, eq_refl) mx _ _ ls1 q k);
    [|by rewrite sort_desc_perm|done|].
  - unfold thickness. rewrite (link_value_core _ _ k Hsame).
    do 4 f_equal. apply list_fmap_ext. intros i x _.
    by rewrite (link_value_core _ _ x Hsame).
  - by rewrite <-(length_fmap link_core), Hsame, length_fmap.
Qed.

(** The anchor of one side of a link is written by the one node that holds
    the link in its list of that side. *)
Section anchors.
Context (refs : Node.t → list nat) (get : Link.t → option Q).
Context (Hnotin : ∀ mx ls node k, k ∉ refs node →
  get <$> (position_links_node mx ls node).2 !! k = get <$> ls !! k).
Context (Hin : ∀ mx ls node q k, NoDup (refs node) →
  sort_desc ls (refs node) !! q = Some k → (k < length ls)%nat →
  get <$> (position_links_node mx ls node).2 !! k
  = Some (Some (running (top_edge node)
                  (thickness mx ls <$> take q (sort_desc ls (refs node)))
                + thickness mx ls k / 2)%Q)).

Lemma position_links_get_notin mx ns ls k :
  (∀ n, n ∈ ns → k ∉ refs n) →
  get <$> links (position_links mx ns ls) !! k = get <$> ls !! k.
Proof.
  revert ls. induction ns as [|node ns IH]; intros ls Hk; [done|].
  cbn [position_links].
  pose proof (Hnotin mx ls node k) as Hstep.
  destruct (position_links_node mx ls node) as [node' ls'].
  cbn [links snd] in *. rewrite IH, Hstep; [done| |].
  - apply Hk. by left.
  - intros n Hn. apply Hk. by right.
Qed.

Lemma position_links_get_in mx ns ls p node q k :
  ns !! p = Some node →
  (∀ p' n', ns !! p' = Some n' → k ∈ refs n' → p' = p) →
  NoDup (refs node) →
  sort_desc ls (refs node) !! q = Some k → (k < length ls)%nat →
  get <$> links (position_links mx ns ls) !! k
  = Some (Some (running (top_edge node)
                  (thickness mx ls <$> take q (sort_desc ls (refs node)))
                + thickness mx ls k / 2)%Q).
Proof.
  revert ls p. induction ns as [|n1 ns IH]; intros ls p Hp Huniq Hnd Hq Hlt; [done|].
  cbn [position_links].
  pose proof (position_links_node_core mx ls n1) as Hsame.
  pose proof (Hnotin mx ls n1 k) as Hstep_notin.
  pose proof (Hin mx ls n1 q k) as Hstep_in.
  destruct (position_links_node mx ls n1) as [n1' ls'].
  cbn [links snd] in *. destruct p as [|p]; simplify_eq/=.
  - rewrite position_links_get_notin, Hstep_in; [done..|].
    intros n Hn Hk. apply list_elem_of_lookup_1 in Hn as [p' Hp'].
    by specialize (Huniq (S p') n Hp' Hk).
  - assert (Hk1 : k ∉ refs n1).
    { intros Hk. by specialize (Huniq 0%nat n1 eq_refl Hk). }
    rewrite (IH ls' p); try done.
    + rewrite (sort_desc_core ls' ls) by done. unfold thickness.
      rewrite (link_value_core ls' ls k) by done.
      do 4 f_equal. apply list_fmap_ext. intros i x _.
      by rewrite (link_value_core ls' ls x).
    + intros p' n' Hp' Hk. specialize (Huniq (S p') n' Hp' Hk). lia.
    + by rewrite (sort_desc_core ls' ls).
    + by rewrite <-(length_fmap link_core), Hsame, length_fmap.
Qed.
End anchors.

(** ** Anchors in the finished graph *)

Lemma running_sumQ y0 hs : (running y0 hs == y0 + sumQ hs)%Q.
Proof.
  unfold running. revert y0. induction hs as [|h hs IH]; intros y0; simpl.
  - ring.
  - rewrite IH. ring.
Qed.

Lemma SankeyDiagram_laid_out js cutoff :
  SankeyDiagram js cutoff
  = position_links (maxLinkValue (links (build js cutoff))) (laid_out js cutoff)
                   (links (build js cutoff)).
Proof. done. Qed.

Lemma final_nodes_laid_out js cutoff :
  nodes (SankeyDiagram js cutoff)
  = sorted_lists (links (build js cutoff)) <$> laid_out js cutoff.
Proof. rewrite SankeyDiagram_laid_out. apply position_links_spec. Qed.

Lemma laid_out_lookup js cutoff p n3 :
  laid_out js cutoff !! p = Some n3 →
  let ls := links (build js cutoff) in
  ∃ n0, nodes (build js cutoff) !! p = Some n0 ∧ fresh_node n0
        ∧ n3 = Node.set_y (Node.y n3) (described js ls n0).
Proof.
  intros Hn ls. unfold laid_out in Hn. fold ls in Hn.
  rewrite track_links_spec in Hn by apply build_ids_NoDup.
  rewrite <-list_fmap_compose in Hn.
  pose proof (position_nodes_same
    (node_meta js ls (maxLinkValue ls) ∘ with_refs ls <$> nodes (build js cutoff)))
    as Hsame.
  destruct (Forall2_lookup_r _ _ _ _ _ Hsame Hn) as (n2 & Hn2 & Heq).
  rewrite list_lookup_fmap in Hn2.
  destruct (nodes (build js cutoff) !! p) as [n0|] eqn:Hn0; [|done].
  exists n0. split_and!; [done| |by simplify_eq/=].
  pose proof (build_fresh js cutoff) as Hfresh.
  rewrite Forall_lookup in Hfresh. by eapply Hfresh.
Qed.

Lemma laid_out_ids js cutoff :
  Node.id <$> laid_out js cutoff = Node.id <$> nodes (build js cutoff).
Proof.
  rewrite <-final_node_ids, final_nodes_laid_out.
  by rewrite fmap_ids_preserved.
Qed.

Lemma laid_out_refs js cutoff p n3 :
  laid_out js cutoff !! p = Some n3 →
  let ls := links (build js cutoff) in
  Node.outgoingLinks n3 = outgoing_refs ls n3
  ∧ Node.incomingLinks n3 = incoming_refs ls n3.
Proof.
  intros Hn ls. apply laid_out_lookup in Hn as (n0 & _ & (_ & Hin & Hout) & ->).
  fold ls. unfold outgoing_refs, incoming_refs, described, node_meta, with_refs.
  cbn. by rewrite Hin, Hout.
Qed.

Lemma laid_out_owner js cutoff p p' n n' :
  laid_out js cutoff !! p = Some n → laid_out js cutoff !! p' = Some n' →
  Node.id n' = Node.id n → p' = p.
Proof.
  intros Hp Hp' Hid.
  pose proof (build_ids_NoDup js cutoff) as Hnd. rewrite <-laid_out_ids in Hnd.
  eapply NoDup_lookup; [done| |].
  - rewrite list_lookup_fmap, Hp'. simpl. by rewrite Hid.
  - by rewrite list_lookup_fmap, Hp.
Qed.

Lemma maxLinkValue_core ls ls' :
  link_core <$> ls = link_core <$> ls' → maxLinkValue ls = maxLinkValue ls'.
Proof.
  intros Hcore. unfold maxLinkValue.
  pose proof (f_equal (fmap (λ t : string * string * Z, t.2)) Hcore) as Heq.
  rewrite <-!list_fmap_compose in Heq.
  by replace (Link.value <$> ls) with (Link.value <$> ls').
Qed.

Lemma thickness_final js cutoff k :
  thickness (maxLinkValue (links (SankeyDiagram js cutoff)))
            (links (SankeyDiagram js cutoff)) k
  = thickness (maxLinkValue (links (build js cutoff))) (links (build js cutoff)) k.
Proof.
  unfold thickness.
  by rewrite link_value_final, (maxLinkValue_core _ _ (final_links_core js cutoff)).
Qed.

Lemma fmap_thickness_final js cutoff (ks : list nat) :
  thickness (maxLinkValue (links (SankeyDiagram js cutoff)))
            (links (SankeyDiagram js cutoff)) <$> ks
  = thickness (maxLinkValue (links (build js cutoff))) (links (build js cutoff)) <$> ks.
Proof. apply list_fmap_ext. intros i k _. apply thickness_final. Qed.

(** The anchors of the outgoing and of the incoming links of a node. *)
Lemma final_anchor js cutoff p n :
  let g := SankeyDiagram js cutoff in
  let mx := maxLinkValue (links g) in
  nodes g !! p = Some n →
  (∀ q k, Node.outgoingLinks n !! q = Some k →
     Link.sourceY <$> links g !! k
     = Some (Some (running (top_edge n)
                     (thickness mx (links g) <$> take q (Node.outgoingLinks n))
                   + thickness mx (links g) k / 2)%Q))
  ∧ (∀ q k, Node.incomingLinks n !! q = Some k →
     Link.targetY <$> links g !! k
     = Some (Some (running (top_edge n)
                     (thickness mx (links g) <$> take q (Node.incomingLinks n))
                   + thickness mx (links g) k / 2)%Q)).
Proof.
  intros g mx Hn. subst g mx.
  rewrite final_nodes_laid_out, list_lookup_fmap in Hn.
  destruct (laid_out js cutoff !! p) as [n3|] eqn:Hn3; [|done].
  simplify_eq/=. destruct (laid_out_refs _ _ _ _ Hn3) as [Hout Hin].
  set (ls := links (build js cutoff)) in *.
  split; intros q k Hq; rewrite fmap_thickness_final, thickness_final;
    rewrite SankeyDiagram_laid_out; fold ls.
  - apply (position_links_get_in Node.outgoingLinks Link.sourceY
             position_links_node_sourceY_notin position_links_node_sourceY_in
             (maxLinkValue ls) _ ls p n3 q k); try done.
    + intros p' n' Hp' Hk. destruct (laid_out_refs _ _ _ _ Hp') as [Hout' _].
      fold ls in Hout'. rewrite Hout' in Hk.
      apply elem_of_refs_with in Hk as (l & Hl & Hs).
      assert (Hk3 : k ∈ outgoing_refs ls n3).
      { rewrite <-Hout, <-(elem_of_sort_desc ls). eauto using list_elem_of_lookup_2. }
      apply elem_of_refs_with in Hk3 as (l3 & Hl3 & Hs3).
      eapply laid_out_owner; [done..|]. congruence.
    + rewrite Hout. apply NoDup_refs_with.
    + apply list_elem_of_lookup_2, elem_of_sort_desc in Hq.
      rewrite Hout in Hq. by apply refs_with_lt in Hq.
  - apply (position_links_get_in Node.incomingLinks Link.targetY
             position_links_node_targetY_notin position_links_node_targetY_in
             (maxLinkValue ls) _ ls p n3 q k); try done.
    + intros p' n' Hp' Hk. destruct (laid_out_refs _ _ _ _ Hp') as [_ Hin'].
      fold ls in Hin'. rewrite Hin' in Hk.
      apply elem_of_refs_with in Hk as (l & Hl & Hs).
      assert (Hk3 : k ∈ incoming_refs ls n3).
      { rewrite <-Hin, <-(elem_of_sort_desc ls). eauto using list_elem_of_lookup_2. }
      apply elem_of_refs_with in Hk3 as (l3 & Hl3 & Hs3).
      eapply laid_out_owner; [done..|]. congruence.
    + rewrite Hin. apply NoDup_refs_with.
    + apply list_elem_of_lookup_2, elem_of_sort_desc in Hq.
      rewrite Hin in Hq. by apply refs_with_lt in Hq.
Qed.

(** ** The scale is linear (C10) *)

Lemma scale_slope mx v : (linkWidthScale mx v == inject_Z v * slope mx)%Q.
Proof.
  unfold linkWidthScale, slope, MIN_LINK_HEIGHT, MAX_LINK_HEIGHT, Qdiv. ring.
Qed.

Lemma slope_nonneg mx : 0 < mx → (0 <= slope mx)%Q.
Proof.
  intros Hmx. unfold slope, MIN_LINK_HEIGHT, MAX_LINK_HEIGHT.
  apply Qmult_le_0_compat; [|done].
  apply Qinv_le_0_compat.
  assert (Heq : (inject_Z mx - 0 == inject_Z mx)%Q) by ring.
  rewrite Heq. change 0%Q with (inject_Z 0). rewrite <-Zle_Qle. lia.
Qed.

Lemma scale_mono mx a b :
  0 < mx → a ≤ b → (linkWidthScale mx a <= linkWidthScale mx b)%Q.
Proof.
  intros Hmx Hab. rewrite !scale_slope.
  apply Qmult_le_compat_r; [by rewrite <-Zle_Qle|by apply slope_nonneg].
Qed.

Lemma scale_nonneg mx v : 0 < mx → 0 ≤ v → (0 <= linkWidthScale mx v)%Q.
Proof.
  intros Hmx Hv. rewrite scale_slope.
  apply Qmult_le_0_compat; [|by apply slope_nonneg].
  change 0%Q with (inject_Z 0). by rewrite <-Zle_Qle.
Qed.

Lemma sumQ_thickness mx ls ks :
  (sumQ (thickness mx ls <$> ks)
   == linkWidthScale mx (sumZ (link_value ls <$> ks)))%Q.
Proof.
  induction ks as [|k ks IH].
  - simpl. rewrite scale_slope. unfold sumZ. simpl. ring.
  - rewrite !fmap_cons, sumZ_cons. cbn [sumQ foldr]. fold (sumQ (thickness mx ls <$> ks)).
    rewrite IH. unfold thickness. rewrite !scale_slope, inject_Z_plus. ring.
Qed.

Lemma sumQ_app l1 l2 : (sumQ (l1 ++ l2) == sumQ l1 + sumQ l2)%Q.
Proof.
  induction l1 as [|x l1 IH]; simpl; [ring|].
  fold (sumQ (l1 ++ l2)). fold (sumQ l1). rewrite IH. ring.
Qed.

Lemma sumQ_nonneg l : Forall (λ x, (0 <= x)%Q) l → (0 <= sumQ l)%Q.
Proof.
  induction 1 as [|x l Hx Hl IH]; simpl; [done|].
  fold (sumQ l). change 0%Q with (0 + 0)%Q. by apply Qplus_le_compat.
Qed.

(** ** Larger flows are anchored above smaller ones *)

Lemma slope_pos mx : 0 < mx → (0 < slope mx)%Q.
Proof.
  intros Hmx. unfold slope, MIN_LINK_HEIGHT, MAX_LINK_HEIGHT.
  apply Qmult_lt_0_compat; [|done].
  apply Qinv_lt_0_compat.
  assert (Heq : (inject_Z mx - 0 == inject_Z mx)%Q) by ring.
  rewrite Heq. change 0%Q with (inject_Z 0). rewrite <-Zlt_Qlt. lia.
Qed.

Lemma scale_pos mx v : 0 < mx → 0 < v → (0 < linkWidthScale mx v)%Q.
Proof.
  intros Hmx Hv. rewrite scale_slope.
  apply Qmult_lt_0_compat; [|by apply slope_pos].
  change 0%Q with (inject_Z 0). by rewrite <-Zlt_Qlt.
Qed.

Lemma foldl_max_lower v vs : v ≤ foldl Z.max v vs.
Proof.
  revert v. induction vs as [|x vs IH]; intros v; simpl; [lia|].
  specialize (IH (Z.max v x)). lia.
Qed.

Lemma foldl_max_ge x v vs : x ∈ v :: vs → x ≤ foldl Z.max v vs.
Proof.
  revert v. induction vs as [|y vs IH]; intros v.
  - intros Hx%list_elem_of_singleton. simpl. lia.
  - intros Hx. rewrite !elem_of_cons in Hx. simpl.
    pose proof (foldl_max_lower (Z.max v y) vs).
    destruct Hx as [Hx|[Hx|Hx]]; [lia|lia|].
    apply IH. by right.
Qed.

Lemma maxLinkValue_ge ls l :
  l ∈ ls → 0 < Link.value l → Link.value l ≤ maxLinkValue ls.
Proof.
  intros Hl Hpos. unfold maxLinkValue.
  destruct ls as [|l0 ls]; [by apply elem_of_nil in Hl|].
  rewrite fmap_cons. cbn [d3_max].
  pose proof (foldl_max_ge (Link.value l) (Link.value l0) (Link.value <$> ls)) as Hge.
  rewrite <-fmap_cons in Hge. specialize (Hge (list_elem_of_fmap_2 _ _ _ Hl)).
  case_decide; lia.
Qed.



(** ** Link stacking (C5) *)



Lemma final_node_lists js cutoff p n :
  let g := SankeyDiagram js cutoff in
  nodes g !! p = Some n →
  Node.outgoingLinks n = sort_desc (links g) (outgoing_refs (links g) n)
  ∧ Node.incomingLinks n = sort_desc (links g) (incoming_refs (links g) n).
Proof.
  intros g Hn. subst g.
  destruct (final_node_facts _ _ _ _ Hn) as (Hout & Hin & _).
  by rewrite !sort_desc_final, outgoing_refs_final, incoming_refs_final.
Qed.



(** ** Link values are non-negative when the counts are *)

Lemma transition_count_nonneg js i a b :
  (∀ j, j ∈ js → 0 ≤ Journey.count j) → 0 ≤ transition_count js i a b.
Proof.
  intros Hjs. unfold transition_count. induction js as [|j js IH]; [done|].
  rewrite fmap_cons, sumZ_cons.
  assert (0 ≤ Journey.count j) by (apply Hjs; by left).
  assert (0 ≤ sumZ ((λ j, if decide (has_transition j i a b)
                          then Journey.count j else 0) <$> js)).
  { apply IH. intros j' Hj'. apply Hjs. by right. }
  case_decide; lia.
Qed.

Lemma maxLinkValue_pos ls :
  Forall (λ l, 0 ≤ Link.value l) ls → 0 < maxLinkValue ls.
Proof.
  intros Hls. unfold maxLinkValue.
  destruct ls as [|l ls]; [done|]. rewrite fmap_cons. cbn [d3_max].
  apply Forall_cons in Hls as [Hl _].
  pose proof (foldl_max_lower (Link.value l) (Link.value <$> ls)).
  case_decide; lia.
Qed.

Lemma final_values_nonneg js cutoff :
  (∀ j, j ∈ slice0 js cutoff → 0 ≤ Journey.count j) →
  Forall (λ l, 0 ≤ Link.value l) (links (SankeyDiagram js cutoff)).
Proof.
  intros Hjs. apply Forall_forall. intros l Hl.
  destruct (links_accumulate_core js cutoff _ (final_links_core js cutoff))
    as (_ & Hval & _).
  destruct (Hval l Hl) as (i & a & b & _ & _ & _ & ->).
  by apply transition_count_nonneg.
Qed.

Lemma link_value_nonneg ls k :
  Forall (λ l, 0 ≤ Link.value l) ls → 0 ≤ link_value ls k.
Proof.
  intros Hls. unfold link_value. destruct (ls !! k) as [l|] eqn:Hl; [|done].
  simpl. rewrite Forall_lookup in Hls. by apply (Hls k).
Qed.

(** ** Links start within their node (C10) *)

Lemma final_node_sums js cutoff p n :
  let g := SankeyDiagram js cutoff in
  nodes g !! p = Some n →
  sum_values (links g) (Node.outgoingLinks n)
  = sum_values (links (build js cutoff)) (outgoing_refs (links (build js cutoff)) n)
  ∧ sum_values (links g) (Node.incomingLinks n)
    = sum_values (links (build js cutoff)) (incoming_refs (links (build js cutoff)) n).
Proof.
  intros g Hn. subst g.
  destruct (final_node_facts _ _ _ _ Hn) as (Hout & Hin & _).
  rewrite !sum_values_final, Hout, Hin.
  by rewrite !(sum_values_perm _ _ _ (sort_desc_perm _ _)).
Qed.

Lemma final_node_height js cutoff p n :
  let g := SankeyDiagram js cutoff in
  nodes g !! p = Some n →
  Node.height n
  = Qmax (linkWidthScale (maxLinkValue (links g))
            (Z.max (sum_values (links g) (Node.incomingLinks n))
                   (sum_values (links g) (Node.outgoingLinks n))))
         MIN_NODE_HEIGHT.
Proof.
  intros g Hn. subst g.
  destruct (final_node_sums _ _ _ _ Hn) as [-> ->].
  destruct (final_node_facts _ _ _ _ Hn) as (_ & _ & _ & ->).
  by rewrite (maxLinkValue_core _ _ (final_links_core js cutoff)).
Qed.

Lemma thickness_nonneg mx ls k :
  0 < mx → Forall (λ l, 0 ≤ Link.value l) ls → (0 <= thickness mx ls k)%Q.
Proof. intros. apply scale_nonneg; [done|]. by apply link_value_nonneg. Qed.

Lemma sumQ_thickness_nonneg mx ls ks :
  0 < mx → Forall (λ l, 0 ≤ Link.value l) ls →
  (0 <= sumQ (thickness mx ls <$> ks))%Q.
Proof.
  intros. apply sumQ_nonneg, Forall_fmap, Forall_forall.
  intros k _. by apply thickness_nonneg.
Qed.

Lemma sumZ_elem_le (vs : list Z) v :
  Forall (λ x, 0 ≤ x) vs → v ∈ vs → v ≤ sumZ vs.
Proof.
  induction 1 as [|x vs Hx Hvs IH]; [by intros ?%elem_of_nil|].
  rewrite sumZ_cons. intros [->|Hv]%elem_of_cons.
  - assert (0 ≤ sumZ vs); [|lia]. clear IH.
    induction Hvs as [|y vs Hy Hvs IH]; [done|]. rewrite sumZ_cons. lia.
  - specialize (IH Hv). lia.
Qed.





(** ** Insertion-ordered maps *)

Section ordered_map.
Context {V : Type}.
Implicit Types (m : list (string * V)) (e : string * V).

Lemma map_get_cons e m s :
  map_get (e :: m) s = if decide (e.1 = s) then Some e.2 else map_get m s.
Proof.
  unfold map_get. cbn [list_find]. case_decide; [done|].
  by destruct (list_find _ m) as [[i e']|].
Qed.

Lemma map_set_cons e m s v :
  map_set (e :: m) s v
  = if decide (e.1 = s) then (s, v) :: m else e :: map_set m s v.
Proof.
  unfold map_set. cbn [list_find]. case_decide; [done|].
  by destruct (list_find _ m) as [[i e']|].
Qed.

Lemma map_get_set m s v s' :
  map_get (map_set m s v) s' = if decide (s' = s) then Some v else map_get m s'.
Proof.
  induction m as [|e m IH].
  - change (map_set [] s v) with [(s, v)]. rewrite map_get_cons.
    change (map_get [] s') with (@None V). simpl.
    repeat case_decide; congruence.
  - rewrite map_set_cons. destruct (decide (e.1 = s)) as [He|He].
    + rewrite !map_get_cons. simpl. repeat case_decide; congruence.
    + rewrite !map_get_cons, IH. repeat case_decide; congruence.
Qed.

Lemma map_set_keys m s v :
  (map_set m s v).*1
  = if decide (s ∈ m.*1) then m.*1 else m.*1 ++ [s].
Proof.
  induction m as [|e m IH].
  - by rewrite decide_False by apply not_elem_of_nil.
  - rewrite map_set_cons. destruct (decide (e.1 = s)) as [He|He].
    + rewrite decide_True by (rewrite fmap_cons, He; by left).
      by rewrite !fmap_cons, He.
    + rewrite !fmap_cons, IH. case_decide as Hin.
      * by rewrite decide_True by (by right).
      * rewrite decide_False; [done|].
        intros [?|?]%elem_of_cons; congruence.
Qed.

Lemma map_get_None m s : map_get m s = None ↔ s ∉ m.*1.
Proof.
  induction m as [|e m IH].
  - split; [intros _; apply not_elem_of_nil|done].
  - rewrite map_get_cons, fmap_cons, not_elem_of_cons. case_decide.
    + split; [done|]. intros [? _]. congruence.
    + rewrite IH. split; [|tauto]. intros ?. split; [congruence|done].
Qed.

Lemma map_get_lookup m i s v :
  NoDup m.*1 → m !! i = Some (s, v) → map_get m s = Some v.
Proof.
  revert i. induction m as [|e m IH]; intros i Hnd Hi; [done|].
  rewrite fmap_cons, NoDup_cons in Hnd. destruct Hnd as [Hnot Hnd].
  rewrite map_get_cons. destruct i as [|i]; simplify_eq/=.
  - by rewrite decide_True.
  - rewrite decide_False; [by eapply IH|].
    intros He. apply Hnot. rewrite He.
    apply (list_elem_of_fmap_2 fst m (s, v)).
    eauto using list_elem_of_lookup_2.
Qed.
End ordered_map.

(** ** Segment keys in first-seen order, and their occurrence counts *)

Lemma occurrences_snoc s keys x :
  occurrences s (keys ++ [x])
  = (occurrences s keys + if decide (x = s) then 1 else 0)%nat.
Proof.
  unfold occurrences. rewrite filter_app, length_app, filter_cons, filter_nil.
  by case_decide.
Qed.

Lemma first_seen_snoc keys x :
  first_seen (keys ++ [x])
  = if decide (x ∈ first_seen keys) then first_seen keys else first_seen keys ++ [x].
Proof. unfold first_seen. by rewrite foldl_snoc. Qed.

Lemma elem_of_first_seen keys s : s ∈ first_seen keys ↔ s ∈ keys.
Proof.
  induction keys as [|x keys IH] using rev_ind; [done|].
  rewrite first_seen_snoc, elem_of_app, list_elem_of_singleton.
  case_decide as Hx; rewrite ?elem_of_app, ?list_elem_of_singleton, IH; [|done].
  split; [tauto|]. intros [Hs|Hs]; [done|]. subst s. by apply IH.
Qed.

Lemma NoDup_first_seen keys : NoDup (first_seen keys).
Proof.
  induction keys as [|x keys IH] using rev_ind; [constructor|].
  rewrite first_seen_snoc. case_decide; [done|].
  apply NoDup_app. split_and!; [done| |apply NoDup_singleton].
  intros y Hy ->%list_elem_of_singleton. done.
Qed.

Lemma occurrences_pos s keys : s ∈ keys ↔ (0 < occurrences s keys)%nat.
Proof.
  unfold occurrences. split.
  - intros Hs. assert (Hin : s ∈ filter (λ x, x = s) keys)
      by by apply list_elem_of_filter.
    destruct (filter _ keys); [by apply elem_of_nil in Hin|simpl; lia].
  - intros Hlen. destruct (filter (λ x, x = s) keys) as [|y l] eqn:Hf;
      [simpl in Hlen; lia|].
    assert (Hy : y ∈ filter (λ x, x = s) keys) by (rewrite Hf; by left).
    by apply list_elem_of_filter in Hy as [-> ?].
Qed.

(** ** Segment counts and colours *)

Lemma segment_keys_snoc ns n :
  segment_keys (ns ++ [n]) = segment_keys ns ++ [getFirstSegment (Node.name n)].
Proof. unfold segment_keys. by rewrite fmap_app. Qed.

Lemma segmentCounts_spec ns :
  (segmentCounts ns).*1 = first_seen (segment_keys ns)
  ∧ ∀ s, map_get (segmentCounts ns) s
         = if decide (occurrences s (segment_keys ns) = 0%nat) then None
           else Some (occurrences s (segment_keys ns)).
Proof.
  induction ns as [|n ns [IHk IHg]] using rev_ind; [done|].
  unfold segmentCounts in *. rewrite foldl_snoc, segment_keys_snoc.
  assert (Hstep : ∀ m, count_segment m n
            = map_set m (getFirstSegment (Node.name n))
                (default 0%nat (map_get m (getFirstSegment (Node.name n))) + 1)%nat)
    by done.
  rewrite Hstep. split.
  - rewrite map_set_keys, IHk, first_seen_snoc. done.
  - intros s. rewrite map_get_set, occurrences_snoc, !IHg.
    destruct (decide (s = getFirstSegment (Node.name n))) as [->|Hne].
    + rewrite (decide_True (P := getFirstSegment (Node.name n) = _)) by done.
      rewrite (decide_False (P := (_ + 1)%nat = 0%nat)) by lia.
      f_equal. case_decide as Hz; simpl; [rewrite Hz|]; lia.
    + rewrite (decide_False (P := getFirstSegment (Node.name n) = s)) by done.
      rewrite Nat.add_0_r. done.
Qed.

Lemma segmentCounts_entries ns :
  Forall (λ e, e.2 = occurrences e.1 (segment_keys ns)) (segmentCounts ns).
Proof.
  destruct (segmentCounts_spec ns) as [Hk Hg].
  apply Forall_lookup. intros i [s c] Hi. simpl.
  pose proof (NoDup_first_seen (segment_keys ns)) as Hnd. rewrite <-Hk in Hnd.
  pose proof (map_get_lookup _ _ _ _ Hnd Hi) as Hget.
  rewrite Hg in Hget. case_decide; congruence.
Qed.

Lemma map_set_fresh {V} (m : list (string * V)) s v :
  s ∉ m.*1 → map_set m s v = m ++ [(s, v)].
Proof.
  induction m as [|e m IH]; [done|].
  rewrite fmap_cons, not_elem_of_cons. intros [Hne Hnot].
  rewrite map_set_cons, decide_False by done. by rewrite IH.
Qed.

Lemma imap_colors_keys (l : list (string * nat)) (f : nat → string) :
  (imap (λ r e, (e.1, f r)) l).*1 = l.*1.
Proof.
  revert f. induction l as [|e l IH]; intros f; [done|].
  rewrite imap_cons, !fmap_cons. simpl. f_equal. apply (IH (f ∘ S)).
Qed.

Lemma assign_color_fold (m : list (string * nat)) :
  NoDup m.*1 →
  foldl assign_color ([], 0%nat) m
  = (imap (λ r e, (e.1, color_at r)) (filter is_repeated m),
     length (filter is_repeated m)).
Proof.
  induction m as [|e m IH] using rev_ind; intros Hnd; [done|].
  rewrite fmap_app in Hnd. apply NoDup_app in Hnd as (Hnd & Hfresh & _).
  rewrite foldl_snoc, IH by done. rewrite filter_app, filter_cons, filter_nil.
  unfold assign_color. cbn [fst snd].
  destruct (decide (1 < e.2)%nat) as [Hrep|Hrep].
  - rewrite decide_True by done.
    rewrite imap_app, length_app. cbn [imap length]. rewrite Nat.add_0_r.
    rewrite map_set_fresh; [done|].
    rewrite imap_colors_keys. intros Hin.
    assert (Hin' : e.1 ∈ m.*1).
    { apply list_elem_of_fmap in Hin as (e' & -> & He').
      apply list_elem_of_filter in He' as [_ He']. by apply list_elem_of_fmap_2. }
    apply (Hfresh _ Hin'). simpl. by left.
  - rewrite decide_False by done. by rewrite !app_nil_r.
Qed.

Lemma repeated_entries_keys ns :
  (filter is_repeated (segmentCounts ns)).*1 = repeated_keys ns.
Proof.
  unfold repeated_keys. destruct (segmentCounts_spec ns) as [<- _].
  pose proof (segmentCounts_entries ns) as Hall.
  induction Hall as [|e m He Hall IH]; [done|].
  rewrite fmap_cons, !filter_cons.
  destruct (decide (is_repeated e)) as [Hrep|Hrep]; unfold is_repeated in Hrep;
    rewrite He in Hrep.
  - rewrite decide_True by done. by rewrite fmap_cons, IH.
  - by rewrite decide_False by done.
Qed.

Lemma NoDup_repeated_keys ns : NoDup (repeated_keys ns).
Proof. apply NoDup_filter, NoDup_first_seen. Qed.

Lemma elem_of_repeated_keys ns s :
  s ∈ repeated_keys ns ↔ (1 < occurrences s (segment_keys ns))%nat.
Proof.
  unfold repeated_keys. rewrite list_elem_of_filter, elem_of_first_seen.
  split; [tauto|]. intros Hocc. split; [done|]. apply occurrences_pos. lia.
Qed.

Lemma segmentColors_spec ns :
  segmentColors ns
  = imap (λ r e, (e.1, color_at r)) (filter is_repeated (segmentCounts ns)).
Proof.
  unfold segmentColors. rewrite assign_color_fold; [done|].
  destruct (segmentCounts_spec ns) as [-> _]. apply NoDup_first_seen.
Qed.

Lemma segmentColors_keys ns : (segmentColors ns).*1 = repeated_keys ns.
Proof. by rewrite segmentColors_spec, imap_colors_keys, repeated_entries_keys. Qed.

Lemma segmentColors_get_repeated ns r s :
  repeated_keys ns !! r = Some s →
  map_get (segmentColors ns) s = Some (color_at r).
Proof.
  intros Hr. apply (map_get_lookup _ r).
  - rewrite segmentColors_keys. apply NoDup_repeated_keys.
  - rewrite segmentColors_spec, list_lookup_imap.
    rewrite <-repeated_entries_keys, list_lookup_fmap in Hr.
    destruct (filter is_repeated (segmentCounts ns) !! r) as [[s' c]|]; [|done].
    by simplify_eq/=.
Qed.

Lemma color_at_palette r :
  colorPalette !! (r `mod` length colorPalette)%nat = Some (color_at r)
  ∧ color_at r ≠ "".
Proof.
  unfold color_at.
  assert (Hlt : (r `mod` length colorPalette < length colorPalette)%nat).
  { apply Nat.mod_upper_bound. done. }
  destruct (lookup_lt_is_Some_2 _ _ Hlt) as [c Hc]. rewrite Hc. simpl.
  split; [done|].
  assert (Hall : Forall (λ c, c ≠ "") colorPalette).
  { unfold colorPalette. repeat constructor; discriminate. }
  rewrite Forall_lookup in Hall. by eapply Hall.
Qed.

(** ** Colours of nodes and links (C9) *)

Lemma getNodeColor_repeated ns n r :
  repeated_keys ns !! r = Some (getFirstSegment (Node.name n)) →
  colorPalette !! (r `mod` length colorPalette)%nat = Some (getNodeColor ns n).
Proof.
  intros Hr. unfold getNodeColor. rewrite (segmentColors_get_repeated _ _ _ Hr).
  destruct (color_at_palette r) as [Hc Hne]. by rewrite decide_False.
Qed.

Lemma getNodeColor_single ns n :
  (occurrences (getFirstSegment (Node.name n)) (segment_keys ns) ≤ 1)%nat →
  getNodeColor ns n = defaultColor.
Proof.
  intros Hocc. unfold getNodeColor.
  assert (Hnone : map_get (segmentColors ns) (getFirstSegment (Node.name n)) = None).
  { apply map_get_None. rewrite segmentColors_keys, elem_of_repeated_keys. lia. }
  by rewrite Hnone.
Qed.

Lemma find_node_Some key ns n :
  n ∈ ns → Node.id n = key →
  ∃ p n', find_node key ns = Some (p, n') ∧ n' ∈ ns ∧ Node.id n' = key.
Proof.
  intros Hn Hid.
  destruct (list_find_elem_of (λ n, Node.id n = key) ns n Hn Hid) as [[p n'] Hf].
  exists p, n'. split; [done|].
  apply list_find_Some in Hf as (Hp & Hid' & _).
  eauto using list_elem_of_lookup_2.
Qed.

Lemma final_link_source_node js cutoff l :
  l ∈ links (SankeyDiagram js cutoff) →
  ∃ p n, find_node (Link.source l) (nodes (SankeyDiagram js cutoff)) = Some (p, n)
         ∧ n ∈ nodes (SankeyDiagram js cutoff) ∧ Node.id n = Link.source l.
Proof.
  intros Hl.
  pose proof (links_accumulate_core js cutoff _ (final_links_core js cutoff)) as Hacc.
  pose proof (links_adjacent_of _ _ (nodes_unique_final js cutoff) Hacc l Hl)
    as (n1 & _ & Hn1 & _ & Hid & _).
  by eapply find_node_Some.
Qed.

(** ** The segment key is the first non-empty component *)

Lemma split_slash_head s :
  ∃ w ws rest, split_slash s = w :: ws ∧ s = w +:+ rest ∧ no_slash w
               ∧ (rest = "" ∨ ∃ r, rest = String "/" r).
Proof.
  induction s as [|c s (w & ws & rest & Hsplit & Hs & Hw & Hrest)].
  { exists "", [], "". by split_and!; [| | |left]. }
  simpl. destruct (decide (c = "/"%char)) as [->|Hc].
  - exists "", (split_slash s), (String "/" s). split_and!; [done..|]. right. eauto.
  - rewrite Hsplit. exists (String c w), ws, rest.
    split_and!; [done|by rewrite Hs at 1|done|done].
Qed.

Lemma segments_spec path :
  (all_slashes path ∧ filter (λ w, w ≠ "") (split_slash path) = [])
  ∨ (∃ seg segs, first_component path seg
                 ∧ filter (λ w, w ≠ "") (split_slash path) = seg :: segs).
Proof.
  induction path as [|c p IH].
  { left. by split. }
  destruct (decide (c = "/"%char)) as [->|Hc].
  - assert (Hf : filter (λ w, w ≠ "") (split_slash (String "/" p))
                 = filter (λ w, w ≠ "") (split_slash p)).
    { cbn [split_slash]. rewrite decide_True by done.
      by rewrite filter_cons_False by (by intros ?). }
    rewrite Hf.
    destruct IH as [[Hall Hnil]|(seg & segs & (pre & rest & Hp & Hpre & Hrest) & Hcons)].
    + left. by split.
    + right. exists seg, segs. split; [|done].
      exists (String "/" pre), rest. split_and!; [by rewrite Hp at 1|done|apply Hrest..].
  - right. destruct (split_slash_head p) as (w & ws & rest & Hsplit & Hp & Hw & Hrest).
    exists (String c w), (filter (λ w, w ≠ "") ws). split.
    + exists "", rest. split_and!; [by rewrite Hp at 1|done|done|done|done].
    + cbn [split_slash]. rewrite decide_False by done. rewrite Hsplit.
      by rewrite filter_cons_True.
Qed.

Lemma getFirstSegment_rule path : segment_key_rule path (getFirstSegment path).
Proof.
  unfold segment_key_rule, getFirstSegment.
  destruct (segments_spec path) as [[Hall ->]|(seg & segs & Hfirst & ->)].
  - by left.
  - right. by exists seg.
Qed.

Lemma component_end_unique seg seg' rest rest' :
  no_slash seg → no_slash seg' →
  (rest = "" ∨ ∃ r, rest = String "/" r) → (rest' = "" ∨ ∃ r, rest' = String "/" r) →
  seg +:+ rest = seg' +:+ rest' → seg = seg'.
Proof.
  revert seg'. induction seg as [|c seg IH]; intros seg' Hs Hs' Hr Hr' Heq.
  - destruct seg' as [|c' seg']; [done|]. simpl in Heq. destruct Hs' as [Hc' _].
    destruct Hr as [->|(r & ->)]; [done|]. by injection Heq as <- _.
  - destruct Hs as [Hc Hs]. destruct seg' as [|c' seg'].
    + simpl in Heq. destruct Hr' as [->|(r & ->)]; [done|]. by injection Heq as -> _.
    + destruct Hs' as [_ Hs']. simpl in Heq. injection Heq as -> Heq.
      f_equal. by eapply IH.
Qed.

Lemma first_component_unique path seg seg' :
  first_component path seg → first_component path seg' → seg = seg'.
Proof.
  intros (pre & rest & -> & Hpre & Hs & Hne & Hrest)
         (pre' & rest' & Heq & Hpre' & Hs' & Hne' & Hrest').
  revert pre' Hpre' Heq. induction pre as [|c pre IH]; intros pre' Hpre' Heq.
  - destruct pre' as [|c' pre'].
    + simpl in Heq. by eapply (component_end_unique seg seg' rest rest').
    + destruct Hpre' as [-> _]. destruct seg as [|c seg]; [done|].
      destruct Hs as [Hc _]. simpl in Heq. by injection Heq as -> _.
  - destruct Hpre as [-> Hpre]. destruct pre' as [|c' pre'].
    + destruct seg' as [|c' seg']; [done|].
      destruct Hs' as [Hc' _]. simpl in Heq. by injection Heq as <- _.
    + destruct Hpre' as [_ Hpre']. simpl in Heq. injection Heq as _ Heq.
      by eapply IH.
Qed.

Lemma all_slashes_no_component path seg :
  all_slashes path → first_component path seg → False.
Proof.
  intros Hall (pre & rest & -> & _ & Hs & Hne & _).
  induction pre as [|c pre IH].
  - destruct seg as [|c seg]; [done|]. destruct Hs as [Hc _].
    simpl in Hall. by destruct Hall as [-> _].
  - simpl in Hall. apply IH, Hall.
Qed.

Lemma getFirstSegment_component path seg :
  first_component path seg → getFirstSegment path = "/" +:+ seg.
Proof.
  intros Hfirst.
  destruct (getFirstSegment_rule path) as [[Hall _]|(seg' & Hfirst' & ->)].
  - destruct (all_slashes_no_component _ _ Hall Hfirst).
  - by rewrite (first_component_unique _ _ _ Hfirst Hfirst').
Qed.

Lemma getFirstSegment_all_slashes path :
  all_slashes path → getFirstSegment path = path.
Proof.
  intros Hall.
  destruct (getFirstSegment_rule path) as [[_ ->]|(seg & Hfirst & _)]; [done|].
  destruct (all_slashes_no_component _ _ Hall Hfirst).
Qed.

(** C9: the segment key of a label is [/] followed by the first non-empty
    [/]-separated component of the label, or the label itself when it has no
    such component; in the finished graph the segment keys that occur more
    than once among the nodes, taken in first-seen order, receive the
    palette colours in turn, wrapping around at the end of the palette; a
    node whose key occurs once has the default colour; the colour of a node
    depends only on its key; and a link has the colour of its source
    node. *)
Theorem C9_segment_colours js cutoff linkColor :
  let g := SankeyDiagram js cutoff in
  let ns := nodes g in
  NoDup (repeated_keys ns)
  ∧ (∀ s, s ∈ repeated_keys ns ↔ (1 < occurrences s (segment_keys ns))%nat)
  ∧ (∀ n r, n ∈ ns →
       repeated_keys ns !! r = Some (getFirstSegment (Node.name n)) →
       colorPalette !! (r `mod` length colorPalette)%nat = Some (getNodeColor ns n))
  ∧ (∀ n, n ∈ ns →
       occurrences (getFirstSegment (Node.name n)) (segment_keys ns) = 1%nat →
       getNodeColor ns n = defaultColor)
  ∧ (∀ n n', getFirstSegment (Node.name n) = getFirstSegment (Node.name n') →
       getNodeColor ns n = getNodeColor ns n')
  ∧ (∀ l, l ∈ links g →
       ∃ n, n ∈ ns ∧ Node.id n = Link.source l
            ∧ getLinkColor linkColor g l = getNodeColor ns n)
  ∧ (∀ path, segment_key_rule path (getFirstSegment path))
  ∧ (∀ path seg, first_component path seg → getFirstSegment path = "/" +:+ seg)
  ∧ (∀ path, all_slashes path → getFirstSegment path = path).
Proof.
  intros g ns. split_and!.
  - apply NoDup_repeated_keys.
  - apply elem_of_repeated_keys.
  - intros n r _ Hr. by apply getNodeColor_repeated.
  - intros n _ Hocc. apply getNodeColor_single. lia.
  - intros n n' Hkey. unfold getNodeColor. by rewrite Hkey.
  - intros l Hl.
    destruct (final_link_source_node js cutoff l Hl) as (p & n & Hfind & Hn & Hid).
    exists n. split_and!; [done..|].
    unfold getLinkColor. subst g ns. by rewrite Hfind.
  - apply getFirstSegment_rule.
  - apply getFirstSegment_component.
  - apply getFirstSegment_all_slashes.
Qed.

(** ** Reachability: the relation the traversal follows *)

Lemma node_degree_le n ns :
  n ∈ ns →
  (length (Node.incomingLinks n) + length (Node.outgoingLinks n) ≤ degree_sum ns)%nat.
Proof.
  unfold degree_sum. induction ns as [|m ns IH]; [by intros ?%elem_of_nil|].
  rewrite fmap_cons. cbn [sum_list sum_list_with id].
  intros [->|Hn]%elem_of_cons; [lia|]. specialize (IH Hn). lia.
Qed.

Lemma next_links_length g dir l :
  (length (next_links g dir l) ≤ degree_sum (nodes g))%nat.
Proof.
  unfold next_links, find_node. destruct dir.
  - destruct (list_find _ (nodes g)) as [[p n]|] eqn:Hf; [|simpl; lia].
    apply list_find_Some in Hf as (Hp & _ & _).
    pose proof (node_degree_le n (nodes g)) as Hle.
    specialize (Hle ltac:(eauto using list_elem_of_lookup_2)). lia.
  - destruct (list_find _ (nodes g)) as [[p n]|] eqn:Hf; [|simpl; lia].
    apply list_find_Some in Hf as (Hp & _ & _).
    pose proof (node_degree_le n (nodes g)) as Hle.
    specialize (Hle ltac:(eauto using list_elem_of_lookup_2)). lia.
Qed.

Lemma size_unvisited (X V : gset string) x :
  x ∈ X → x ∉ V → size (X ∖ V) = S (size (X ∖ ({[x]} ∪ V))).
Proof.
  intros HX HV.
  assert (Heq : X ∖ V = {[x]} ∪ X ∖ ({[x]} ∪ V)).
  { apply set_eq. intros y. destruct (decide (y = x)); set_solver. }
  rewrite Heq, size_union, size_singleton by set_solver. done.
Qed.

(** ** The traversal: invariant and termination *)

Lemma ref_id_lookup g k l : links g !! k = Some l → ref_id g k = linkId l.
Proof. intros Hl. unfold ref_id. by rewrite Hl. Qed.

Lemma ref_id_inj g k1 k2 :
  NoDup (linkId <$> links g) →
  (k1 < length (links g))%nat → (k2 < length (links g))%nat →
  ref_id g k1 = ref_id g k2 → k1 = k2.
Proof.
  intros Hnd H1 H2 Heq.
  destruct (lookup_lt_is_Some_2 _ _ H1) as [l1 Hl1].
  destruct (lookup_lt_is_Some_2 _ _ H2) as [l2 Hl2].
  rewrite (ref_id_lookup _ _ _ Hl1), (ref_id_lookup _ _ _ Hl2) in Heq.
  eapply NoDup_lookup; [done| |]; rewrite list_lookup_fmap.
  - by rewrite Hl1.
  - rewrite Hl2. simpl. by rewrite Heq.
Qed.

Lemma ref_id_all_ids g k l : links g !! k = Some l → linkId l ∈ all_ids g.
Proof.
  intros Hl. unfold all_ids. apply elem_of_list_to_set, list_elem_of_fmap_2.
  eauto using list_elem_of_lookup_2.
Qed.

Section traversal.
Context (g : Graph) (dir : direction) (seed : nat).
Context (Hadj : adjacency_exact g).

Lemma bfs_inv_skip k l queue visited acc :
  links g !! k = Some l → linkId l ∈ visited →
  bfs_inv g dir seed (k :: queue) visited acc →
  bfs_inv g dir seed queue visited acc.
Proof.
  intros Hl Hvis (Hq & Hacc & Hv & Hnd & Hreach & Hseed & Hclosed).
  apply Forall_cons in Hq as [Hk Hq].
  split_and!; [done..| | |].
  - intros k' [?|?]; apply Hreach; [left; by right|by right].
  - destruct acc as [|a acc]; [|done].
    subst visited. by apply not_elem_of_empty in Hvis.
  - intros Hinj k1 k2 Hk1 Hstep.
    destruct (Hclosed Hinj k1 k2 Hk1 Hstep) as [?|[->|?]%elem_of_cons]; auto.
    left. subst visited. apply elem_of_list_to_set in Hvis.
    apply list_elem_of_fmap in Hvis as (k' & Hid & Hk').
    rewrite <-(ref_id_lookup _ _ _ Hl) in Hid.
    rewrite Forall_forall in Hacc.
    by rewrite (ref_id_inj g k k' Hinj Hk (Hacc _ Hk') Hid).
Qed.

Lemma bfs_inv_record k l queue visited acc :
  links g !! k = Some l → linkId l ∉ visited →
  bfs_inv g dir seed (k :: queue) visited acc →
  bfs_inv g dir seed (queue ++ next_links g dir l)
          ({[linkId l]} ∪ visited) (acc ++ [k]).
Proof.
  intros Hl Hvis (Hq & Hacc & Hv & Hnd & Hreach & Hseed & Hclosed).
  apply Forall_cons in Hq as [Hk Hq].
  assert (Hnext : ∀ k2, k2 ∈ next_links g dir l → step_rel g dir k k2).
  { intros k2. by apply Hadj. }
  split_and!.
  - apply Forall_app. split; [done|]. apply Forall_forall.
    intros k2 (_ & l2 & _ & Hl2 & _)%Hnext. by eapply lookup_lt_Some.
  - apply Forall_app. split; [done|]. by apply Forall_singleton.
  - subst visited. rewrite fmap_app, list_to_set_app_L. simpl.
    rewrite (ref_id_lookup _ _ _ Hl). set_solver.
  - rewrite fmap_app. apply NoDup_app. split_and!; [done| |apply NoDup_singleton].
    intros x Hx ->%list_elem_of_singleton. apply Hvis. subst visited.
    rewrite <-(ref_id_lookup _ _ _ Hl). by apply elem_of_list_to_set.
  - assert (Hrk : reach g dir seed k) by (apply Hreach; left; by left).
    intros k' [[?|Hk']%elem_of_app|[?| ->%list_elem_of_singleton]%elem_of_app].
    + apply Hreach. left. by right.
    + eapply rtc_r; [done|]. by apply Hnext.
    + apply Hreach. by right.
    + done.
  - destruct acc as [|a acc]; simpl in *.
    + simplify_eq. by left.
    + apply elem_of_cons in Hseed as [->|?]; [by left|].
      right. apply elem_of_app. by left.
  - intros Hinj k1 k2 [Hk1| ->%list_elem_of_singleton]%elem_of_app Hstep.
    + destruct (Hclosed Hinj k1 k2 Hk1 Hstep) as [?|[->|?]%elem_of_cons].
      * left. apply elem_of_app. by left.
      * left. apply elem_of_app. right. by left.
      * right. apply elem_of_app. by left.
    + right. apply elem_of_app. right. by apply (Hadj dir k l k2).
Qed.

Lemma bfs_run fuel queue visited acc :
  bfs_inv g dir seed queue visited acc →
  (bfs_measure g queue visited < fuel)%nat →
  ∃ res visited',
    bfs fuel g dir queue visited acc = Done res
    ∧ bfs_inv g dir seed [] visited' res.
Proof.
  revert queue visited acc.
  induction fuel as [|fuel IH]; intros queue visited acc Hinv Hfuel; [lia|].
  destruct queue as [|k queue].
  { exists acc, visited. done. }
  assert (Hk : (k < length (links g))%nat).
  { destruct Hinv as (Hq & _). by apply Forall_cons in Hq as [? _]. }
  destruct (lookup_lt_is_Some_2 _ _ Hk) as [l Hl].
  cbn [bfs]. rewrite Hl. unfold bfs_measure in Hfuel. cbn [length] in Hfuel.
  case_decide as Hvis.
  - apply IH; [by eapply bfs_inv_skip|]. unfold bfs_measure. lia.
  - apply IH; [by eapply bfs_inv_record|]. unfold bfs_measure.
    rewrite length_app.
    pose proof (next_links_length g dir l).
    rewrite (size_unvisited (all_ids g) visited (linkId l)) in Hfuel
      by eauto using ref_id_all_ids.
    lia.
Qed.
End traversal.

Lemma bfs_fuel_mono fuel fuel' g dir queue visited acc res :
  bfs fuel g dir queue visited acc = Done res → (fuel ≤ fuel')%nat →
  bfs fuel' g dir queue visited acc = Done res.
Proof.
  revert fuel' queue visited acc.
  induction fuel as [|fuel IH]; intros fuel' queue visited acc Hrun Hle.
  { destruct queue; [|done]. by destruct fuel'. }
  destruct fuel' as [|fuel']; [lia|].
  destruct queue as [|k queue]; [done|]. cbn [bfs] in *.
  destruct (links g !! k) as [l|]; [|done].
  case_decide; apply IH; (done || lia).
Qed.

Lemma size_list_to_set_le (l : list string) :
  (size (list_to_set (C := gset string) l) ≤ length l)%nat.
Proof.
  induction l as [|x l IH].
  - rewrite list_to_set_nil, size_empty. done.
  - rewrite list_to_set_cons, size_union_alt, size_singleton. cbn [length].
    pose proof (subseteq_size (list_to_set (C := gset string) l ∖ {[x]})
                              (list_to_set l)) as Hsub.
    specialize (Hsub ltac:(set_solver)). lia.
Qed.

Lemma NoDup_bounded_length (l : list nat) n :
  NoDup l → Forall (λ k, (k < n)%nat) l → (length l ≤ n)%nat.
Proof.
  intros Hnd Hall. trans (length (seq 0 n)); [|by rewrite length_seq].
  apply submseteq_length, NoDup_submseteq; [done|].
  intros k Hk. rewrite Forall_forall in Hall. apply elem_of_seq.
  specialize (Hall k Hk). lia.
Qed.

(** Result of one traversal of a graph whose reference lists are its
    adjacency. *)
Lemma findAllConnectedPaths_spec g dir seed :
  adjacency_exact g → (seed < length (links g))%nat →
  ∃ res,
    findAllConnectedPaths g seed dir = Done res
    ∧ (∀ fuel, (bfs_fuel g ≤ fuel)%nat → bfs fuel g dir [seed] ∅ [] = Done res)
    ∧ NoDup res
    ∧ NoDup (ref_id g <$> res)
    ∧ Forall (λ k, (k < length (links g))%nat) res
    ∧ (length res ≤ length (links g))%nat
    ∧ seed ∈ res
    ∧ (∀ k, k ∈ res → reach g dir seed k)
    ∧ (NoDup (linkId <$> links g) → ∀ k, reach g dir seed k → k ∈ res).
Proof.
  intros Hadj Hseed.
  assert (Hinit : bfs_inv g dir seed [seed] ∅ []).
  { split_and!; try done.
    - by apply Forall_singleton.
    - constructor.
    - intros k [->%list_elem_of_singleton|?%elem_of_nil]; [|done]. apply rtc_refl.
    - intros _ k k2 ?%elem_of_nil. done. }
  assert (Hfuel : (bfs_measure g [seed] ∅ < bfs_fuel g)%nat).
  { unfold bfs_measure, bfs_fuel, all_ids. simpl.
    pose proof (size_list_to_set_le (linkId <$> links g)) as Hsz.
    rewrite length_fmap in Hsz.
    assert (Hd : list_to_set (C := gset string) (linkId <$> links g) ∖ ∅
                 = list_to_set (linkId <$> links g)) by set_solver.
    rewrite Hd. nia. }
  destruct (bfs_run g dir seed Hadj _ _ _ _ Hinit Hfuel)
    as (res & visited' & Hrun & (_ & Hvalid & _ & Hnd & Hreach & Hin & Hclosed)).
  exists res. split_and!; try done.
  - intros fuel Hle. by eapply bfs_fuel_mono.
  - by eapply NoDup_fmap_1.
  - apply NoDup_bounded_length; [by eapply NoDup_fmap_1|done].
  - destruct res; [done|]. done.
  - intros k Hk. apply Hreach. by right.
  - intros Hinj. apply rtc_ind_r.
    + by destruct res.
    + intros k1 k2 _ Hstep IH.
      destruct (Hclosed Hinj k1 k2 IH Hstep) as [?|?%elem_of_nil]; done.
Qed.

(** ** The finished graph: adjacency (C4) *)

Lemma final_link_nodes js cutoff l :
  l ∈ links (SankeyDiagram js cutoff) →
  links_adjacent (SankeyDiagram js cutoff).
Proof.
  intros _. eapply links_adjacent_of; [apply nodes_unique_final|].
  apply links_accumulate_core, final_links_core.
Qed.

Lemma final_adjacency js cutoff : adjacency_exact (SankeyDiagram js cutoff).
Proof.
  intros dir k1 l1 k2 Hl1.
  assert (Hin : l1 ∈ links (SankeyDiagram js cutoff))
    by eauto using list_elem_of_lookup_2.
  destruct (final_link_nodes js cutoff l1 Hin l1 Hin)
    as (n1 & n2 & Hn1 & Hn2 & Hid1 & Hid2 & _).
  unfold next_links, step_rel. destruct dir.
  - destruct (find_node_Some _ _ _ Hn2 Hid2) as (p & n & Hfind & _ & Hid).
    rewrite Hfind. unfold find_node in Hfind.
    apply list_find_Some in Hfind as (Hp & _ & _).
    destruct (final_node_lists _ _ _ _ Hp) as [-> _].
    rewrite elem_of_sort_desc. unfold outgoing_refs. rewrite elem_of_refs_with.
    split.
    + intros (l2 & Hl2 & Hs). exists l1, l2. simpl. split_and!; [done..|congruence].
    + intros (l1' & l2 & Hl1' & Hl2 & Hf). exists l2. simpl in Hf.
      split; [done|]. congruence.
  - destruct (find_node_Some _ _ _ Hn1 Hid1) as (p & n & Hfind & _ & Hid).
    rewrite Hfind. unfold find_node in Hfind.
    apply list_find_Some in Hfind as (Hp & _ & _).
    destruct (final_node_lists _ _ _ _ Hp) as [_ ->].
    rewrite elem_of_sort_desc. unfold incoming_refs. rewrite elem_of_refs_with.
    split.
    + intros (l2 & Hl2 & Hs). exists l1, l2. simpl. split_and!; [done..|congruence].
    + intros (l1' & l2 & Hl1' & Hl2 & Hf). exists l2. simpl in Hf.
      split; [done|]. congruence.
Qed.

(** C4: on the finished graph, from any of its links and in either
    direction, the traversal returns (the budget [bfs_fuel] and any larger
    one suffice, with the same result); the recorded references are
    pairwise distinct, and so are the (source, target) keys of the links
    they point to; every one is a link of the graph; hence the result is at
    most as long as the list of links. *)
Theorem C4_traversal_terminates js cutoff startLink dir :
  (startLink < length (links (SankeyDiagram js cutoff)))%nat →
  ∃ res, traversal_result (SankeyDiagram js cutoff) startLink dir res.
Proof.
  intros Hseed.
  destruct (findAllConnectedPaths_spec _ dir startLink (final_adjacency js cutoff) Hseed)
    as (res & H1 & H2 & H3 & H4 & H5 & H6 & _).
  exists res. done.
Qed.

(** ** Node hover (C3) *)

Lemma directLinks_spec g nodeId d :
  d ∈ directLinks g nodeId
  ↔ ∃ l, links g !! d = Some l ∧ (Link.source l = nodeId ∨ Link.target l = nodeId).
Proof.
  exact (elem_of_refs_with
           (λ l, Link.source l = nodeId ∨ Link.target l = nodeId) (links g) d).
Qed.

Lemma step_weakly_connected g dir k1 k2 l1 l2 :
  step_rel g dir k1 k2 → links g !! k1 = Some l1 → links g !! k2 = Some l2 →
  weakly_connected g (Link.source l1) (Link.source l2).
Proof.
  intros (l1' & l2' & H1 & H2 & Hf) Hl1 Hl2.
  rewrite Hl1 in H1. rewrite Hl2 in H2.
  injection H1 as <-. injection H2 as <-.
  apply rtc_once. destruct dir; simpl in Hf.
  - exists k1, l1. split; [done|]. left. by rewrite Hf.
  - exists k2, l2. split; [done|]. right. by rewrite Hf.
Qed.

Lemma reach_weakly_connected g dir d k ld l :
  reach g dir d k → links g !! d = Some ld → links g !! k = Some l →
  weakly_connected g (Link.source ld) (Link.source l).
Proof.
  intros Hreach Hd. revert k Hreach l. apply (rtc_ind_r (λ k, ∀ l, _ → _)).
  - intros l Hl. simplify_eq. apply rtc_refl.
  - intros k1 k2 _ Hstep IH l2 Hl2.
    pose proof Hstep as (l1 & _ & Hl1 & _).
    etrans; [by apply IH|]. by eapply step_weakly_connected.
Qed.

Lemma link_ends_connected g k l :
  links g !! k = Some l → weakly_connected g (Link.source l) (Link.target l).
Proof. intros Hl. apply rtc_once. exists k, l. split; [done|]. by left. Qed.

Lemma direct_weakly_connected g nodeId d l :
  links g !! d = Some l → Link.source l = nodeId ∨ Link.target l = nodeId →
  weakly_connected g nodeId (Link.source l).
Proof.
  intros Hl [<-|<-]; [apply rtc_refl|].
  apply rtc_once. exists d, l. split; [done|]. by right.
Qed.

Lemma reach_valid g dir d k :
  (d < length (links g))%nat → reach g dir d k → (k < length (links g))%nat.
Proof.
  intros Hd. revert k. apply rtc_ind_r; [done|].
  intros k1 k2 _ (_ & l2 & _ & Hl2 & _) _. by eapply lookup_lt_Some.
Qed.

(** Result of [directLinks.forEach]. *)
Lemma gather_spec g ds acc0 :
  adjacency_exact g → Forall (λ k, (k < length (links g))%nat) ds →
  ∃ all,
    foldl (gather_link g) (Done acc0) ds = Done all
    ∧ (∀ k, k ∈ all →
         k ∈ acc0 ∨ ∃ d, d ∈ ds ∧ (reach g forward d k ∨ reach g backward d k))
    ∧ (∀ k, k ∈ acc0 → k ∈ all)
    ∧ (NoDup (linkId <$> links g) →
       ∀ d k, d ∈ ds → reach g forward d k ∨ reach g backward d k → k ∈ all).
Proof.
  intros Hadj Hds. revert acc0. induction Hds as [|d ds Hd Hds IH]; intros acc0.
  { exists acc0. split_and!; [done|auto|auto|].
    intros _ d k ?%elem_of_nil. done. }
  destruct (findAllConnectedPaths_spec g forward d Hadj Hd)
    as (fw & Hfw & _ & _ & _ & _ & _ & _ & Hfs & Hfc).
  destruct (findAllConnectedPaths_spec g backward d Hadj Hd)
    as (bw & Hbw & _ & _ & _ & _ & _ & _ & Hbs & Hbc).
  cbn [foldl]. unfold gather_link at 2. cbn [bind]. rewrite Hfw, Hbw. cbn [bind].
  destruct (IH (acc0 ++ [d] ++ fw ++ bw)) as (all & Hrun & Hsound & Hkeep & Hcompl).
  exists all. split_and!; [done| | |].
  - intros k Hk. destruct (Hsound k Hk) as [Hacc|(d' & Hd' & Hr)].
    + rewrite !elem_of_app, list_elem_of_singleton in Hacc.
      destruct Hacc as [?|[->|[?|?]]]; [by left|right; exists d..].
      * split; [by left|]. left. apply rtc_refl.
      * split; [by left|]. left. by apply Hfs.
      * split; [by left|]. right. by apply Hbs.
    + right. exists d'. split; [by right|done].
  - intros k Hk. apply Hkeep. apply elem_of_app. by left.
  - intros Hinj d' k [->|Hd']%elem_of_cons Hr; [|by eapply Hcompl].
    apply Hkeep. rewrite !elem_of_app. right. right.
    destruct Hr as [Hr|Hr]; [left; by apply Hfc|right; by apply Hbc].
Qed.

Lemma allConnectedLinks_valid g nodeId all :
  adjacency_exact g → allConnectedLinks g nodeId = Done all →
  Forall (λ k, (k < length (links g))%nat) all.
Proof.
  intros Hadj Hall.
  assert (Hds : Forall (λ k, (k < length (links g))%nat) (directLinks g nodeId)).
  { apply Forall_forall. intros d (l & Hl & _)%directLinks_spec.
    by eapply lookup_lt_Some. }
  destruct (gather_spec g _ [] Hadj Hds) as (all' & Hrun & Hsound & _).
  unfold allConnectedLinks in Hall. rewrite Hrun in Hall. simplify_eq.
  apply Forall_forall. intros k Hk.
  destruct (Hsound k Hk) as [?%elem_of_nil|(d & Hd & Hr)]; [done|].
  assert (Hdv : (d < length (links g))%nat) by (rewrite Forall_forall in Hds; auto).
  destruct Hr; by eapply reach_valid.
Qed.

(** Result of [allConnectedLinks.forEach]. *)
Lemma collect_spec g all h0 :
  Forall (λ k, (k < length (links g))%nat) all →
  ∃ h,
    foldl (collect_link g) (Done h0) all = Done h
    ∧ (∀ x, x ∈ connectedLinkIds h
         ↔ x ∈ connectedLinkIds h0
           ∨ ∃ k l, k ∈ all ∧ links g !! k = Some l ∧ x = linkId l)
    ∧ (∀ x, x ∈ connectedNodeIds h
         ↔ x ∈ connectedNodeIds h0
           ∨ ∃ k l, k ∈ all ∧ links g !! k = Some l
                    ∧ (x = Link.source l ∨ x = Link.target l)).
Proof.
  intros Hall. revert h0. induction Hall as [|k all Hk Hall IH]; intros h0.
  { exists h0. split_and!; [done| |]; intros x; split; auto;
      intros [?|(? & ? & ?%elem_of_nil & _)]; done. }
  destruct (lookup_lt_is_Some_2 _ _ Hk) as [l Hl].
  cbn [foldl]. unfold collect_link at 2. cbn [bind]. rewrite Hl.
  destruct (IH (mkHighlight ({[linkId l]} ∪ connectedLinkIds h0)
                 ({[Link.target l]} ∪ ({[Link.source l]} ∪ connectedNodeIds h0))))
    as (h & Hrun & Hlids & Hnids).
  exists h. split_and!; [done| |]; intros x.
  - rewrite Hlids. cbn [connectedLinkIds]. rewrite elem_of_union, elem_of_singleton.
    split.
    + intros [[->|?]|(k' & l' & Hk' & Hl' & ->)]; [right|by left|right].
      * exists k, l. split_and!; [by left|done..].
      * exists k', l'. split_and!; [by right|done..].
    + intros [?|(k' & l' & [->|Hk']%elem_of_cons & Hl' & ->)]; [by left; right| |].
      * left. left. congruence.
      * right. by exists k', l'.
  - rewrite Hnids. cbn [connectedNodeIds].
    rewrite !elem_of_union, !elem_of_singleton. split.
    + intros [[->|[->|?]]|(k' & l' & Hk' & Hl' & Hx)]; [right|right|by left|right].
      * exists k, l. split_and!; [by left|done|by right].
      * exists k, l. split_and!; [by left|done|by left].
      * exists k', l'. split_and!; [by right|done..].
    + intros [?|(k' & l' & [->|Hk']%elem_of_cons & Hl' & Hx)]; [left; by do 2 right| |].
      * left. simplify_eq. destruct Hx as [->| ->]; auto.
      * right. by exists k', l'.
Qed.

(** C3 (as stated) fails: with the journeys [/a -> /b] and [/c -> /b],
    hovering the node [/a] of layer 0 highlights the link [/a -> /b] only;
    the link [/c -> /b] and the node [/c] are weakly connected to the
    hovered node through [/b] and are not highlighted. *)
Lemma C3_counterexample :
  let g := SankeyDiagram merge_scenario 10 in
  ∃ h l, node_mouseenter g "0_/a" = Done h
         ∧ links g !! 1%nat = Some l
         ∧ weakly_connected g "0_/a" (Link.source l)
         ∧ (linkId l ∉ connectedLinkIds h)
         ∧ (Link.source l ∉ connectedNodeIds h).
Proof.
  intros g. subst g. eexists _, _. split_and!.
  - vm_compute. reflexivity.
  - vm_compute. reflexivity.
  - eapply rtc_l; [|apply rtc_once].
    + exists 0%nat. eexists. split; [vm_compute; reflexivity|]. left. split; reflexivity.
    + exists 1%nat. eexists. split; [vm_compute; reflexivity|]. right. split; reflexivity.
  - apply (bool_decide_unpack _). vm_compute. exact I.
  - apply (bool_decide_unpack _). vm_compute. exact I.
Qed.

(** C3 (amended): hovering a node of the finished graph returns both
    highlight sets; the listed links are the links that touch the node and
    the links reached from one of those by following links forward (from a
    target to the links leaving it) or backward (from a source to the links
    entering it) - all of them when no two links of the graph have the same
    [source|||target] key; the highlighted keys are the keys of the listed
    links, the highlighted nodes are the hovered node and the ends of the
    listed links; every listed link and every highlighted node is weakly
    connected to the hovered node, and so is every link with a highlighted
    key when no two links of the graph have the same key. *)
Theorem C3_hover_reachable js cutoff nodeId :
  let g := SankeyDiagram js cutoff in
  ∃ all h,
    allConnectedLinks g nodeId = Done all
    ∧ node_mouseenter g nodeId = Done h
    ∧ (∀ x, x ∈ connectedLinkIds h
         ↔ ∃ k l, k ∈ all ∧ links g !! k = Some l ∧ x = linkId l)
    ∧ (∀ x, x ∈ connectedNodeIds h
         ↔ x = nodeId
           ∨ ∃ k l, k ∈ all ∧ links g !! k = Some l
                    ∧ (x = Link.source l ∨ x = Link.target l))
    ∧ (∀ d, d ∈ directLinks g nodeId
         ↔ ∃ l, links g !! d = Some l
                ∧ (Link.source l = nodeId ∨ Link.target l = nodeId))
    ∧ (∀ k, k ∈ all →
         ∃ d, d ∈ directLinks g nodeId
              ∧ (reach g forward d k ∨ reach g backward d k))
    ∧ (NoDup (linkId <$> links g) →
       ∀ d k, d ∈ directLinks g nodeId →
         reach g forward d k ∨ reach g backward d k → k ∈ all)
    ∧ (∀ k l, k ∈ all → links g !! k = Some l →
         weakly_connected g nodeId (Link.source l)
         ∧ weakly_connected g nodeId (Link.target l))
    ∧ (∀ x, x ∈ connectedNodeIds h → weakly_connected g nodeId x)
    ∧ (NoDup (linkId <$> links g) →
       ∀ k l, links g !! k = Some l → linkId l ∈ connectedLinkIds h →
         k ∈ all
         ∧ weakly_connected g nodeId (Link.source l)
         ∧ weakly_connected g nodeId (Link.target l)).
Proof.
  intros g. pose proof (final_adjacency js cutoff) as Hadj. fold g in Hadj.
  assert (Hds : Forall (λ k, (k < length (links g))%nat) (directLinks g nodeId)).
  { apply Forall_forall. intros d (l & Hl & _)%directLinks_spec.
    by eapply lookup_lt_Some. }
  destruct (gather_spec g _ [] Hadj Hds) as (all & Hrun & Hsound & _ & Hcompl).
  assert (Hall : allConnectedLinks g nodeId = Done all) by done.
  pose proof (allConnectedLinks_valid g nodeId all Hadj Hall) as Hvalid.
  destruct (collect_spec g all (mkHighlight ∅ {[nodeId]}) Hvalid)
    as (h & Hcollect & Hlids & Hnids).
  assert (Hsound' : ∀ k, k ∈ all → ∃ d, d ∈ directLinks g nodeId
                     ∧ (reach g forward d k ∨ reach g backward d k)).
  { intros k Hk. by destruct (Hsound k Hk) as [?%elem_of_nil|?]. }
  assert (Hlinks : ∀ x, x ∈ connectedLinkIds h
                    ↔ ∃ k l, k ∈ all ∧ links g !! k = Some l ∧ x = linkId l).
  { intros x. rewrite Hlids. cbn [connectedLinkIds]. split; [|by right].
    intros [?%elem_of_empty|?]; done. }
  assert (Hnodes : ∀ x, x ∈ connectedNodeIds h
                    ↔ x = nodeId
                      ∨ ∃ k l, k ∈ all ∧ links g !! k = Some l
                               ∧ (x = Link.source l ∨ x = Link.target l)).
  { intros x. rewrite Hnids. cbn [connectedNodeIds]. by rewrite elem_of_singleton. }
  assert (Hwc : ∀ k l, k ∈ all → links g !! k = Some l →
            weakly_connected g nodeId (Link.source l)
            ∧ weakly_connected g nodeId (Link.target l)).
  { intros k l Hk Hl.
    destruct (Hsound' k Hk) as (d & (ld & Hld & Hd)%directLinks_spec & Hr).
    assert (Hsrc : weakly_connected g nodeId (Link.source l)).
    { etrans; [by eapply direct_weakly_connected|].
      destruct Hr; by eapply reach_weakly_connected. }
    split; [done|]. etrans; [done|]. by eapply link_ends_connected. }
  exists all, h.
  split_and!; [done| |done|done|apply directLinks_spec|done|done|done| |].
  - unfold node_mouseenter. rewrite Hall. done.
  - intros x [->|(k & l & Hk & Hl & [->| ->])]%Hnodes;
      [apply rtc_refl|by apply (Hwc k l)..].
  - intros Hnd k l Hl Hin.
    destruct (proj1 (Hlinks _) Hin) as (k' & l' & Hk' & Hl' & Heq).
    assert (k = k').
    { eapply NoDup_lookup; [exact Hnd| |]; rewrite list_lookup_fmap.
      - by rewrite Hl.
      - rewrite Hl'. simpl. f_equal. symmetry. exact Heq. }
    subst k'. split; [done|]. by apply (Hwc k l).
Qed.

(** * The theorems at the scenario of the specification *)

Lemma C2_total_flow_witness :
  nodes (SankeyDiagram scenario_5_3 2) !! 0%nat = Some scenario_node
  ∧ total_flow_rule (SankeyDiagram scenario_5_3 2) scenario_node.
Proof.
  assert (H : nodes (SankeyDiagram scenario_5_3 2) !! 0%nat = Some scenario_node)
    by (vm_compute; reflexivity).
  split; [exact H|]. exact (C2_total_flow scenario_5_3 2 0 scenario_node H).
Defined.

Lemma C4_traversal_terminates_witness :
  (0 < length (links (SankeyDiagram scenario_5_3 2)))%nat
  ∧ ∃ res, traversal_result (SankeyDiagram scenario_5_3 2) 0 forward res.
Proof.
  assert (H : (0 < length (links (SankeyDiagram scenario_5_3 2)))%nat)
    by (vm_compute; lia).
  split; [exact H|]. exact (C4_traversal_terminates scenario_5_3 2 0 forward H).
Defined.


Lemma C7_percentage_first_match_witness :
  nodes (SankeyDiagram scenario_5_3 2) !! 0%nat = Some scenario_node
  ∧ percentage_rule scenario_5_3 scenario_node.
Proof.
  assert (H : nodes (SankeyDiagram scenario_5_3 2) !! 0%nat = Some scenario_node)
    by (vm_compute; reflexivity).
  split; [exact H|]. exact (C7_percentage_first_match scenario_5_3 2 0 scenario_node H).
Defined.



(** * Scenarios of the specification *)

(** One journey [/a -> /b] of count 10: one link of value 10, two nodes, and
    a total flow of 10 on both. *)
Example single_journey_graph :
  let g := SankeyDiagram [Journey.mk ["/a"; "/b"] 10 (100 # 1)] 1 in
  link_core <$> links g = [("0_/a", "1_/b", 10)]
  ∧ (λ n, (Node.name n, Node.step n, Node.count n)) <$> nodes g
    = [("/a", 0%nat, 10); ("/b", 1%nat, 10)].
Proof. by vm_compute. Qed.

(** With no further link downstream or upstream, both traversals from the
    link [/a -> /b] return that link alone. *)
Example single_link_traversals :
  let g := SankeyDiagram [Journey.mk ["/a"; "/b"] 10 (100 # 1)] 1 in
  findAllConnectedPaths g 0 forward = Done [0%nat]
  ∧ findAllConnectedPaths g 0 backward = Done [0%nat].
Proof. by vm_compute. Qed.

(** Two journeys out of [/a] with counts 5 and 3: the outgoing references of
    [/a] are the link to [/b] and then the link to [/c], whichever journey
    comes first. *)
Example outgoing_sorted_by_value :
  Node.outgoingLinks <$> nodes (SankeyDiagram scenario_5_3 2) !! 0%nat
  = Some [0%nat; 1%nat]
  ∧ Node.outgoingLinks <$> nodes (SankeyDiagram (reverse scenario_5_3) 2) !! 0%nat
    = Some [1%nat; 0%nat].
Proof. by vm_compute. Qed.

(** Segment keys. *)
Example first_segments :
  getFirstSegment "/blog/post" = "/blog" ∧ getFirstSegment "docs" = "/docs"
  ∧ getFirstSegment "//x/y" = "/x" ∧ getFirstSegment "/" = "/"
  ∧ getFirstSegment "" = "".
Proof. by vm_compute. Qed.

(** A negative cutoff drops journeys from the end of the input, as
    [Array.prototype.slice] does. *)
Example negative_cutoff :
  slice0 scenario_5_3 (-1) = take 1 scenario_5_3.
Proof. by vm_compute. Qed.

(** When two links have the same [source|||target] key the traversal records
    only the first it meets: here the last link is reachable forward from
    the first one and is not in the result. *)
Example key_collision_hides_link :
  let g := SankeyDiagram collision_scenario 2 in
  ref_id g 2 = ref_id g 4
  ∧ reach g forward 0 4
  ∧ findAllConnectedPaths g 0 forward = Done [0; 1; 3; 2]%nat.
Proof.
  intros g. subst g. split_and!; [by vm_compute| |by vm_compute].
  apply (rtc_l _ _ 3%nat); [|apply rtc_once];
    eexists _, _; (split_and!; [vm_compute; reflexivity..|reflexivity]).
Qed.

(** * Further properties of the pass *)

(** ** Conservation of flow in the builder *)

Section pvalue.
Context (P : string * string → Prop) `{∀ key, Decision (P key)}.

Lemma pvalue_cons l ls :
  pvalue P (l :: ls)
  = (if decide (P (link_key l)) then Link.value l else 0) + pvalue P ls.
Proof. unfold pvalue. rewrite filter_cons. by case_decide. Qed.

Lemma pvalue_app ls1 ls2 : pvalue P (ls1 ++ ls2) = pvalue P ls1 + pvalue P ls2.
Proof. unfold pvalue. by rewrite filter_app, fmap_app, sumZ_app. Qed.

Lemma pvalue_alter ls k l c :
  ls !! k = Some l →
  pvalue P (alter (Link.add_value c) k ls)
  = pvalue P ls + (if decide (P (link_key l)) then c else 0).
Proof.
  revert k. induction ls as [|l0 ls IH]; intros [|k] Hk; simplify_eq/=.
  - rewrite !pvalue_cons. change (link_key (Link.add_value c l)) with (link_key l).
    case_decide; simpl; lia.
  - rewrite !pvalue_cons, (IH k) by done. lia.
Qed.

Lemma pvalue_add_link s t c ls :
  pvalue P (add_link s t c ls)
  = pvalue P ls + (if decide (P (s, t)) then c else 0).
Proof.
  unfold add_link. destruct (list_find _ ls) as [[k l]|] eqn:Hf.
  - apply list_find_Some in Hf as (Hk & [Hs Ht] & _).
    rewrite (pvalue_alter _ _ l) by done. unfold link_key. by rewrite Hs, Ht.
  - rewrite pvalue_app, pvalue_cons. unfold pvalue at 2. simpl.
    change (link_key (Link.mk s t c None None)) with (s, t).
    case_decide; unfold sumZ; simpl; lia.
Qed.

Lemma pvalue_fold_add_event evs ls :
  pvalue P (foldl add_event ls evs)
  = pvalue P ls + sumZ (snd <$> filter (λ e, P e.1) evs).
Proof.
  revert ls. induction evs as [|[[s t] c] evs IH]; intros ls; simpl.
  - unfold sumZ; simpl. lia.
  - rewrite IH. unfold add_event at 1. simpl. rewrite pvalue_add_link.
    rewrite filter_cons. simpl.
    case_decide; rewrite ?fmap_cons, ?sumZ_cons; simpl; lia.
Qed.

Lemma pvalue_core ls ls' :
  link_core <$> ls = link_core <$> ls' → pvalue P ls = pvalue P ls'.
Proof.
  intros Hcore. unfold pvalue.
  trans (sumZ (snd <$> filter (λ c : string * string * Z, P c.1) (link_core <$> ls))).
  - exact (filter_core_values (λ c, P c.1) ls).
  - rewrite Hcore. symmetry. exact (filter_core_values (λ c, P c.1) ls').
Qed.
End pvalue.

Lemma pvalue_build (P : string * string → Prop) `{∀ key, Decision (P key)} js cutoff :
  pvalue P (links (SankeyDiagram js cutoff))
  = sumZ ((λ j, sumZ (snd <$> filter (λ e, P e.1) (journey_events j)))
          <$> slice0 js cutoff).
Proof.
  rewrite (pvalue_core P _ _ (final_links_core js cutoff)).
  rewrite build_links, pvalue_fold_add_event.
  change (pvalue P []) with 0. rewrite Z.add_0_l.
  unfold link_events. induction (slice0 js cutoff) as [|j l IH]; [done|].
  rewrite !fmap_cons. simpl mjoin.
  by rewrite filter_app, fmap_app, sumZ_app, sumZ_cons, IH.
Qed.

Lemma length_transitions i p : length (transitions i p) = (length p - 1)%nat.
Proof.
  revert i. induction p as [|a rest IH]; intros i; [done|].
  destruct rest as [|b rest]; [done|].
  change (transitions i (a :: b :: rest))
    with ((stepKey i a, stepKey (S i) b) :: transitions (S i) (b :: rest)).
  cbn [length]. rewrite (IH (S i)). simpl. lia.
Qed.

Lemma sumZ_const c (l : list (string * string)) :
  sumZ (snd <$> ((λ st, (st, c)) <$> l)) = c * Z.of_nat (length l).
Proof.
  induction l as [|x l IH]; [unfold sumZ; simpl; lia|].
  rewrite !fmap_cons, sumZ_cons, IH. cbn [length snd]. lia.
Qed.

Lemma filter_all {A} (P : A → Prop) `{∀ x, Decision (P x)} (l : list A) :
  (∀ x, P x) → filter P l = l.
Proof.
  intros HP. induction l as [|x l IH]; [done|].
  by rewrite filter_cons_True, IH.
Qed.

(** X1: no flow is lost or invented: the values of all the links of the
    finished graph add up to the sum, over the considered journeys, of the
    count times the number of transitions of the path. *)
Theorem X1_flow_conserved js cutoff :
  sumZ (Link.value <$> links (SankeyDiagram js cutoff))
  = sumZ ((λ j, Journey.count j * Z.of_nat (length (Journey.path j) - 1))
          <$> slice0 js cutoff).
Proof.
  pose proof (pvalue_build (λ _, True) js cutoff) as Hp.
  unfold pvalue in Hp. rewrite filter_all in Hp by done.
  rewrite Hp. f_equal. apply list_fmap_ext. intros i j _. simpl.
  rewrite filter_all by done. unfold journey_events.
  by rewrite sumZ_const, length_transitions.
Qed.

(** ** The count of a node *)

Lemma transitions_target c i a i0 p :
  sumZ (snd <$> filter (λ e, e.1.2 = stepKey i a)
                       ((λ st, (st, c)) <$> transitions i0 p))
  = if decide (i0 < i ∧ p !! (i - i0)%nat = Some a)%nat then c else 0.
Proof.
  revert i0. induction p as [|a0 rest IH]; intros i0.
  { simpl. rewrite decide_False; [done|]. by intros (_ & ?). }
  destruct rest as [|b0 rest].
  { simpl. rewrite decide_False; [done|]. intros (Hlt & Hp).
    replace (i - i0)%nat with (S (i - S i0)) in Hp by lia. done. }
  change (transitions i0 (a0 :: b0 :: rest))
    with ((stepKey i0 a0, stepKey (S i0) b0) :: transitions (S i0) (b0 :: rest)).
  rewrite fmap_cons, filter_cons. cbn [fst snd].
  specialize (IH (S i0)).
  destruct (decide (S i0 = i)) as [<-|Hne].
  - rewrite (decide_False (P := (S i0 < S i0 ∧ _)%nat)) in IH by lia.
    replace (S i0 - i0)%nat with 1%nat by lia. simpl lookup.
    destruct (decide (b0 = a)) as [->|Hb].
    + rewrite decide_True by done. rewrite fmap_cons, sumZ_cons, IH.
      rewrite decide_True by (split; [lia|done]). simpl. lia.
    + rewrite decide_False by (intros [_ ?]%stepKey_inj; done).
      rewrite IH. rewrite decide_False; [done|]. intros (_ & [= ->]). done.
  - rewrite decide_False by (intros [? _]%stepKey_inj; done).
    rewrite IH. destruct (decide (S i0 < i)%nat) as [Hlt|Hge].
    + replace (i - i0)%nat with (S (i - S i0)) by lia.
      simpl lookup. apply decide_ext. split; intros (? & ?); (split; [lia|done]).
    + rewrite !decide_False; [done|lia|lia].
Qed.

Lemma transitions_source c i a i0 p :
  sumZ (snd <$> filter (λ e, e.1.1 = stepKey i a)
                       ((λ st, (st, c)) <$> transitions i0 p))
  = if decide (i0 ≤ i ∧ p !! (i - i0)%nat = Some a
               ∧ (S (i - i0) < length p))%nat then c else 0.
Proof.
  revert i0. induction p as [|a0 rest IH]; intros i0.
  { simpl. rewrite decide_False; [done|]. by intros (_ & ? & _). }
  destruct rest as [|b0 rest].
  { simpl. rewrite decide_False; [done|]. intros (_ & _ & Hlen). simpl in Hlen. lia. }
  change (transitions i0 (a0 :: b0 :: rest))
    with ((stepKey i0 a0, stepKey (S i0) b0) :: transitions (S i0) (b0 :: rest)).
  rewrite fmap_cons, filter_cons. cbn [fst snd].
  specialize (IH (S i0)).
  destruct (decide (i0 = i)) as [->|Hne].
  - rewrite (decide_False (P := (S i ≤ i ∧ _)%nat)) in IH by lia.
    replace (i - i)%nat with 0%nat by lia. simpl lookup.
    destruct (decide (a0 = a)) as [->|Ha].
    + rewrite decide_True by done. rewrite fmap_cons, sumZ_cons, IH.
      rewrite decide_True by (split_and!; [lia|done|simpl; lia]). simpl. lia.
    + rewrite decide_False by (intros [_ ?]%stepKey_inj; done).
      rewrite IH. rewrite decide_False; [done|]. intros (_ & [= ->] & _). done.
  - rewrite decide_False by (intros [? _]%stepKey_inj; done).
    rewrite IH. destruct (decide (i0 < i)%nat) as [Hlt|Hge].
    + replace (i - i0)%nat with (S (i - S i0)) by lia.
      simpl lookup. cbn [length]. apply decide_ext.
      split; intros (? & ? & ?); (split_and!; [lia|done|lia]).
    + rewrite !decide_False; [done|lia|lia].
Qed.

Lemma sum_values_refs (P : Link.t → Prop) `{∀ l, Decision (P l)} ls :
  sum_values ls (refs_with P ls) = sumZ (Link.value <$> filter P ls).
Proof. rewrite sum_values_sumZ. apply refs_with_values. Qed.

Lemma final_node_count js cutoff p n :
  nodes (SankeyDiagram js cutoff) !! p = Some n →
  Node.count n
  = if decide (Node.step n = 0%nat)
    then pvalue (λ key, key.1 = Node.id n) (links (SankeyDiagram js cutoff))
    else pvalue (λ key, key.2 = Node.id n) (links (SankeyDiagram js cutoff)).
Proof.
  intros Hn. destruct (final_node_facts _ _ _ _ Hn) as (_ & _ & -> & _).
  rewrite !(pvalue_core _ _ _ (final_links_core js cutoff)).
  unfold outgoing_refs, incoming_refs.
  case_decide.
  - exact (sum_values_refs (λ l, Link.source l = Node.id n) _).
  - exact (sum_values_refs (λ l, Link.target l = Node.id n) _).
Qed.

(** X2: the [count] of a node of the finished graph is the sum of the
    counts of the considered journeys whose path has the label of the node
    at the layer of the node and, for a node of layer 0, has a second
    step: a journey of a single step is not counted at its only node. *)
Theorem X2_count_is_visits js cutoff p n :
  nodes (SankeyDiagram js cutoff) !! p = Some n →
  Node.count n
  = sumZ ((λ j, if decide (visits n j) then Journey.count j else 0)
          <$> slice0 js cutoff).
Proof.
  intros Hn. rewrite (final_node_count _ _ _ _ Hn).
  rewrite (final_id_stepKey js cutoff n) by eauto using list_elem_of_lookup_2.
  destruct (decide (Node.step n = 0%nat)) as [H0|H0].
  - rewrite pvalue_build. f_equal. apply list_fmap_ext. intros i j _. simpl.
    unfold journey_events. rewrite transitions_source.
    apply decide_ext. unfold visits. rewrite H0. simpl.
    split.
    + intros (_ & Hp & Hlen). split; [done|]. intros _. lia.
    + intros (Hp & Hlen). split_and!; [lia|done|]. specialize (Hlen eq_refl). lia.
  - rewrite pvalue_build. f_equal. apply list_fmap_ext. intros i j _. simpl.
    unfold journey_events. rewrite transitions_target.
    apply decide_ext. unfold visits.
    replace (Node.step n - 0)%nat with (Node.step n) by lia.
    split; [intros (_ & Hp); split; [done|lia] | intros (Hp & _); split; [lia|done]].
Qed.

(** ** The percentage of a node comes from a considered journey *)

(** X3: every node of the finished graph has a matching journey among the
    considered ones, so the fallback 0 of the percentage is never taken for
    a node of the graph: the percentage is the one of the first matching
    journey, and that journey is a considered one. *)
Theorem X3_percentage_from_considered js cutoff p n :
  nodes (SankeyDiagram js cutoff) !! p = Some n →
  ∃ k j, slice0 js cutoff !! k = Some j ∧ js !! k = Some j ∧ matches n j
         ∧ (∀ k' j', (k' < k)%nat → js !! k' = Some j' → ¬ matches n j')
         ∧ Node.percentage n = Journey.percentage j.
Proof.
  intros Hn.
  assert (Hin : n ∈ nodes (SankeyDiagram js cutoff))
    by eauto using list_elem_of_lookup_2.
  rewrite (final_node_percentage _ _ _ Hin).
  assert (Hkey : node_key n ∈ node_key <$> nodes (build js cutoff)).
  { rewrite <-final_node_keys. by apply list_elem_of_fmap_2. }
  apply build_node_keys in Hkey as (j0 & Hj0 & Hpath).
  destruct (slice0_take js cutoff) as [m Hm]. rewrite Hm in *.
  apply list_elem_of_lookup_1 in Hj0 as (k0 & Hk0).
  apply lookup_take_Some in Hk0 as [Hk0 Hlt].
  destruct (list_find (matches n) js) as [[k j]|] eqn:Hfind.
  - apply list_find_Some in Hfind as (Hk & Hmatch & Hfirst).
    exists k, j. split_and!; [|done|done| |done].
    + assert (k ≤ k0)%nat.
      { destruct (decide (k ≤ k0)%nat); [done|].
        destruct (Hfirst k0 j0); [done|lia|done]. }
      rewrite lookup_take_Some. split; [done|lia].
    + intros k' j' Hlt' Hk'. by eapply Hfirst.
  - rewrite list_find_None, Forall_forall in Hfind.
    destruct (Hfind j0); [by eapply list_elem_of_lookup_2|done].
Qed.

(** ** The height of a node is the scaled count *)

Lemma sumZ_le {A} (f g : A → Z) (l : list A) :
  (∀ x, x ∈ l → f x ≤ g x) → sumZ (f <$> l) ≤ sumZ (g <$> l).
Proof.
  induction l as [|x l IH]; intros Hle; [done|].
  rewrite !fmap_cons, !sumZ_cons.
  pose proof (Hle x ltac:(left)) as Hx.
  assert (sumZ (f <$> l) ≤ sumZ (g <$> l)); [|lia].
  apply IH. intros y Hy. apply Hle. by right.
Qed.

Lemma sumZ_zero {A} (f : A → Z) (l : list A) :
  (∀ x, x ∈ l → f x = 0) → sumZ (f <$> l) = 0.
Proof.
  induction l as [|x l IH]; intros Hz; [done|].
  rewrite fmap_cons, sumZ_cons, (Hz x) by left.
  rewrite IH; [done|]. intros y Hy. apply Hz. by right.
Qed.

Lemma sumZ_nonneg {A} (f : A → Z) (l : list A) :
  (∀ x, x ∈ l → 0 ≤ f x) → 0 ≤ sumZ (f <$> l).
Proof.
  intros Hle. rewrite <-(sumZ_zero (λ _, 0) l) by done. by apply sumZ_le.
Qed.

(** The value sums of the two sides of a node, by journeys. *)
Lemma final_node_in_out js cutoff p n :
  nodes (SankeyDiagram js cutoff) !! p = Some n →
  let g := SankeyDiagram js cutoff in
  sum_values (links g) (Node.incomingLinks n)
  = sumZ ((λ j, if decide ((0 < Node.step n)%nat ∧ matches n j)
                then Journey.count j else 0) <$> slice0 js cutoff)
  ∧ sum_values (links g) (Node.outgoingLinks n)
    = sumZ ((λ j, if decide (matches n j
                             ∧ (S (Node.step n) < length (Journey.path j))%nat)
                  then Journey.count j else 0) <$> slice0 js cutoff).
Proof.
  intros Hn g. subst g.
  destruct (final_node_sums _ _ _ _ Hn) as [-> ->].
  unfold outgoing_refs, incoming_refs.
  rewrite (sum_values_refs (λ l, Link.target l = Node.id n)).
  rewrite (sum_values_refs (λ l, Link.source l = Node.id n)).
  change (sumZ (Link.value <$> filter (λ l, Link.target l = Node.id n)
                                      (links (build js cutoff))))
    with (pvalue (λ key, key.2 = Node.id n) (links (build js cutoff))).
  change (sumZ (Link.value <$> filter (λ l, Link.source l = Node.id n)
                                      (links (build js cutoff))))
    with (pvalue (λ key, key.1 = Node.id n) (links (build js cutoff))).
  rewrite <-!(pvalue_core _ _ _ (final_links_core js cutoff)).
  rewrite !pvalue_build.
  rewrite (final_id_stepKey js cutoff n) by eauto using list_elem_of_lookup_2.
  split; f_equal; apply list_fmap_ext; intros i j _; simpl; unfold journey_events.
  - rewrite transitions_target. apply decide_ext. unfold matches.
    replace (Node.step n - 0)%nat with (Node.step n) by lia. done.
  - rewrite transitions_source. apply decide_ext. unfold matches.
    replace (Node.step n - 0)%nat with (Node.step n) by lia.
    split; [intros (_ & ? & ?); done | intros (? & ?); split_and!; [lia|done..]].
Qed.

(** X4: when no considered journey has a negative count, the larger of the
    two value sums of a node is its [count], so that the height of a node
    of the finished graph is the scaled [count], raised to the minimum node
    height. *)
Theorem X4_height_is_scaled_count js cutoff p n :
  Forall (λ j, 0 ≤ Journey.count j) (slice0 js cutoff) →
  nodes (SankeyDiagram js cutoff) !! p = Some n →
  let g := SankeyDiagram js cutoff in
  Z.max (sum_values (links g) (Node.incomingLinks n))
        (sum_values (links g) (Node.outgoingLinks n)) = Node.count n
  ∧ Node.height n
    = Qmax (linkWidthScale (maxLinkValue (links g)) (Node.count n)) MIN_NODE_HEIGHT.
Proof.
  intros Hpos Hn g. subst g. rewrite Forall_forall in Hpos.
  assert (Hmax : Z.max (sum_values (links (SankeyDiagram js cutoff)) (Node.incomingLinks n))
                   (sum_values (links (SankeyDiagram js cutoff)) (Node.outgoingLinks n))
                 = Node.count n).
  { destruct (final_node_in_out _ _ _ _ Hn) as [Hin Hout].
    destruct (final_node_facts _ _ _ _ Hn) as (_ & _ & Hcount & _).
    destruct (final_node_sums _ _ _ _ Hn) as [Hout' Hin'].
    rewrite Hcount, <-Hout', <-Hin'. rewrite Hin, Hout.
    destruct (decide (Node.step n = 0%nat)) as [H0|H0].
    - rewrite (sumZ_zero (λ j, if decide ((0 < Node.step n)%nat ∧ matches n j)
                               then Journey.count j else 0)).
      + apply Z.max_r. apply sumZ_nonneg. intros j Hj. cbv beta.
        destruct (decide _); [auto|lia].
      + intros j _. cbv beta. rewrite decide_False; [done|lia].
    - apply Z.max_l. apply sumZ_le. intros j Hj. cbv beta.
      destruct (decide (matches n j ∧ _)) as [[Hm _]|_].
      + rewrite decide_True by (split; [lia|done]). lia.
      + destruct (decide _); [auto|lia]. }
  split; [done|]. rewrite (final_node_height _ _ _ _ Hn). by rewrite Hmax.
Qed.

(** ** Grouping of the nodes by layer *)

Lemma layer_refs_snoc ns n s :
  layer_refs (ns ++ [n]) s
  = layer_refs ns s ++ (if decide (Node.step n = s) then [length ns] else []).
Proof.
  unfold layer_refs. rewrite zip_seq_snoc, filter_app, fmap_app.
  rewrite filter_cons, filter_nil. simpl. by case_decide.
Qed.

Lemma elem_of_layer_refs ns s p :
  p ∈ layer_refs ns s ↔ ∃ n, ns !! p = Some n ∧ Node.step n = s.
Proof.
  induction ns as [|n ns IH] using rev_ind.
  { unfold layer_refs; simpl. rewrite elem_of_nil. split; [done|].
    by intros (? & ? & _). }
  rewrite layer_refs_snoc, elem_of_app, IH. split.
  - intros [(n' & Hn & Hs)|Hp].
    + exists n'. split; [|done]. by apply lookup_app_l_Some.
    + case_decide; [|by apply elem_of_nil in Hp].
      apply list_elem_of_singleton in Hp as ->. exists n.
      by rewrite list_lookup_middle.
  - intros (n' & Hn & Hs).
    apply lookup_app_Some in Hn as [Hn|[Hle Hn]]; [left; eauto|].
    right. apply list_lookup_singleton_Some in Hn as [Hp ->].
    rewrite decide_True by done. apply list_elem_of_singleton. lia.
Qed.

Lemma layer_refs_lt ns s p : p ∈ layer_refs ns s → (p < length ns)%nat.
Proof. intros (n & Hn & _)%elem_of_layer_refs. by eapply lookup_lt_Some. Qed.

Lemma NoDup_layer_refs ns s : NoDup (layer_refs ns s).
Proof.
  induction ns as [|n ns IH] using rev_ind; [constructor|].
  rewrite layer_refs_snoc. apply NoDup_app. split_and!; [done| |].
  - intros p Hp%layer_refs_lt. case_decide; [|apply not_elem_of_nil].
    rewrite list_elem_of_singleton. lia.
  - case_decide; [apply NoDup_singleton|constructor].
Qed.


Lemma layer_refs_empty ns s :
  (∀ n, n ∈ ns → Node.step n ≠ s) → layer_refs ns s = [].
Proof.
  intros Hns. destruct (layer_refs ns s) as [|p ps] eqn:Heq; [done|].
  assert (Hp : p ∈ layer_refs ns s) by (rewrite Heq; left).
  apply elem_of_layer_refs in Hp as (n & Hn & Hs).
  destruct (Hns n); [by eapply list_elem_of_lookup_2|done].
Qed.

Lemma layer_refs_steps (ns ns' : list Node.t) s :
  Node.step <$> ns = Node.step <$> ns' → layer_refs ns s = layer_refs ns' s.
Proof.
  revert ns'. induction ns as [|n ns IH] using rev_ind; intros ns' Heq.
  { by destruct ns'. }
  destruct ns' as [|n' ns' _] using rev_ind.
  { rewrite fmap_app in Heq. by destruct (Node.step <$> ns). }
  rewrite !fmap_app in Heq. simpl in Heq.
  apply app_inj_2 in Heq as [Heq Hn]; [|done].
  assert (Hn' : Node.step n = Node.step n') by congruence.
  rewrite !layer_refs_snoc, (IH ns' Heq), Hn'.
  assert (Hlen : length ns = length ns').
  { by rewrite <-(length_fmap Node.step ns), Heq, length_fmap. }
  by rewrite Hlen.
Qed.

Lemma nodesByStep_snoc ns n :
  nodesByStep (ns ++ [n]) = group_push (nodesByStep ns) (length ns, n).
Proof. unfold nodesByStep. by rewrite zip_seq_snoc, foldl_app. Qed.

Lemma nodesByStep_grouped ns : grouped ns (nodesByStep ns).
Proof.
  induction ns as [|n ns (Hnd & Hrefs & Hcov)] using rev_ind.
  { split_and!; [constructor|by intros ? ?%elem_of_nil|by intros ? ?%elem_of_nil]. }
  rewrite nodesByStep_snoc. unfold group_push. cbn [fst snd].
  destruct (list_find _ (nodesByStep ns)) as [[i e]|] eqn:Hfind.
  - apply list_find_Some in Hfind as (Hi & He & _).
    assert (Hkeys : (alter (λ e0 : nat * list nat, (e0.1, e0.2 ++ [length ns])) i
                       (nodesByStep ns)).*1 = (nodesByStep ns).*1).
    { rewrite (list_fmap_alter fst _ id) by (by apply Forall_forall).
      by apply list_alter_id. }
    split_and!.
    + by rewrite Hkeys.
    + intros e' (i' & Hi')%list_elem_of_lookup_1.
      destruct (decide (i = i')) as [<-|Hne].
      * rewrite list_lookup_alter_eq, Hi in Hi'. simplify_eq/=.
        rewrite layer_refs_snoc, decide_True by done.
        f_equal. apply Hrefs. by eapply list_elem_of_lookup_2.
      * rewrite list_lookup_alter_ne in Hi' by done.
        rewrite layer_refs_snoc, decide_False, app_nil_r.
        { apply Hrefs. by eapply list_elem_of_lookup_2. }
        intros Heq. apply Hne. eapply NoDup_lookup; [exact Hnd| |].
        -- by rewrite list_lookup_fmap, Hi.
        -- rewrite list_lookup_fmap, Hi'. simpl. congruence.
    + rewrite Hkeys. intros n' [Hn'| ->%list_elem_of_singleton]%elem_of_app; [auto|].
      rewrite <-He. apply (list_elem_of_fmap_2 fst). by eapply list_elem_of_lookup_2.
  - rewrite list_find_None, Forall_forall in Hfind.
    assert (Hfresh : Node.step n ∉ (nodesByStep ns).*1).
    { intros (e & He & Hin)%list_elem_of_fmap. by apply (Hfind e). }
    split_and!.
    + rewrite fmap_app. apply NoDup_app. split_and!; [done| |apply NoDup_singleton].
      intros s Hs ->%list_elem_of_singleton. done.
    + intros e' [He'| ->%list_elem_of_singleton]%elem_of_app.
      * rewrite layer_refs_snoc, decide_False, app_nil_r; [by apply Hrefs|].
        intros Heq. by apply (Hfind e').
      * cbn [fst snd]. rewrite layer_refs_snoc, decide_True by done.
        rewrite layer_refs_empty; [done|].
        intros n' Hn' Heq. apply Hfresh. rewrite <-Heq. by apply Hcov.
    + rewrite fmap_app. intros n' [Hn'| ->%list_elem_of_singleton]%elem_of_app.
      * apply elem_of_app. left. by apply Hcov.
      * apply elem_of_app. right. by left.
Qed.

(** ** Vertical positions of the nodes *)

Lemma same_but_y_trans n1 n2 n3 :
  same_but_y n1 n2 → same_but_y n2 n3 → same_but_y n1 n3.
Proof. unfold same_but_y. intros -> ->. by destruct n1. Qed.

Lemma node_height_same ns ns' p :
  Forall2 same_but_y ns ns' → node_height ns' p = node_height ns p.
Proof.
  intros Hsame. unfold node_height.
  destruct (ns !! p) as [n|] eqn:Hn.
  - destruct (Forall2_lookup_l _ _ _ _ _ Hsame Hn) as (n' & -> & ->). done.
  - apply lookup_ge_None in Hn. rewrite (Forall2_length _ _ _ Hsame) in Hn.
    apply lookup_ge_None in Hn. by rewrite Hn.
Qed.

Lemma slot_same ns ns' (ps : list nat) :
  Forall2 same_but_y ns ns' → slot ns' <$> ps = slot ns <$> ps.
Proof.
  intros Hsame. apply list_fmap_ext. intros i p _. unfold slot.
  by rewrite (node_height_same _ _ _ Hsame).
Qed.

Lemma Forall2_same_but_y_refl ns : Forall2 same_but_y ns ns.
Proof.
  apply Forall2_same_length_lookup. split; [done|].
  intros i n n' ? ?. simplify_eq. apply same_but_y_refl.
Qed.

(** The inner loop over the nodes of one column. *)
Lemma place_nodes_spec ps cur y0 :
  NoDup ps → Forall (λ p, (p < length cur)%nat) ps →
  (∀ p, p ∉ ps → (foldl place_node (cur, y0) ps).1 !! p = cur !! p)
  ∧ (∀ q p n, ps !! q = Some p → cur !! p = Some n →
       ∃ n', (foldl place_node (cur, y0) ps).1 !! p = Some n' ∧ same_but_y n n'
             ∧ (Node.y n' == y0 + sumQ (slot cur <$> take q ps) + Node.height n / 2)%Q).
Proof.
  revert cur y0. induction ps as [|p0 ps IH]; intros cur y0 Hnd Hlt.
  { split; [done|]. intros q p n Hq. by destruct q. }
  apply NoDup_cons in Hnd as [Hp0 Hnd]. apply Forall_cons in Hlt as [Hlt0 Hlt].
  destruct (lookup_lt_is_Some_2 _ _ Hlt0) as [node Hnode].
  cbn [foldl].
  assert (Hstep : place_node (cur, y0) p0
                  = (alter (Node.set_y (y0 + Node.height node / 2)%Q) p0 cur,
                     (y0 + (Node.height node + nodeGap))%Q)).
  { unfold place_node. cbn [fst snd]. by rewrite Hnode. }
  rewrite Hstep.
  set (cur' := alter (Node.set_y (y0 + Node.height node / 2)%Q) p0 cur).
  assert (Hsame : Forall2 same_but_y cur cur').
  { apply Forall2_alter_r; [apply Forall2_same_but_y_refl|].
    intros n n' _ _ ->. by destruct n. }
  destruct (IH cur' (y0 + (Node.height node + nodeGap))%Q Hnd) as [IH1 IH2].
  { unfold cur'. by rewrite length_alter. }
  split.
  - intros p [Hne Hp]%not_elem_of_cons. rewrite IH1 by done.
    unfold cur'. by rewrite list_lookup_alter_ne.
  - intros [|q] p n Hq Hp; simpl in Hq.
    + injection Hq as <-. rewrite Hnode in Hp. injection Hp as <-.
      exists (Node.set_y (y0 + Node.height node / 2)%Q node).
      split_and!.
      * rewrite IH1 by done. unfold cur'. by rewrite list_lookup_alter_eq, Hnode.
      * by destruct node.
      * simpl. ring.
    + assert (Hne : p0 ≠ p).
      { intros ->. apply Hp0. by eapply list_elem_of_lookup_2. }
      assert (Hp' : cur' !! p = Some n).
      { unfold cur'. by rewrite list_lookup_alter_ne. }
      destruct (IH2 q p n Hq Hp') as (n' & Hres & Hsb & Hy).
      exists n'. split_and!; [done..|].
      rewrite Hy, (slot_same _ _ _ Hsame). cbn [take]. rewrite fmap_cons.
      cbn [sumQ foldr]. fold (sumQ (slot cur <$> take q ps)).
      unfold slot at 2, node_height. rewrite Hnode. simpl. ring.
Qed.

(** The outer loop over the columns. *)
Lemma position_groups_spec gs cur :
  Forall (λ e : nat * list nat,
            NoDup e.2 ∧ Forall (λ p, (p < length cur)%nat) e.2) gs →
  (∀ i j e e' p, gs !! i = Some e → gs !! j = Some e' →
                 p ∈ e.2 → p ∈ e'.2 → i = j) →
  (∀ p, (∀ e, e ∈ gs → p ∉ e.2) →
        foldl (λ ns' e, (foldl place_node (ns', 0%Q) e.2).1) cur gs !! p = cur !! p)
  ∧ (∀ i e q p n, gs !! i = Some e → e.2 !! q = Some p → cur !! p = Some n →
       ∃ n', foldl (λ ns' e, (foldl place_node (ns', 0%Q) e.2).1) cur gs !! p
             = Some n'
             ∧ same_but_y n n'
             ∧ (Node.y n' == sumQ (slot cur <$> take q e.2) + Node.height n / 2)%Q).
Proof.
  revert cur. induction gs as [|e0 gs IH]; intros cur Hgs Hdisj.
  { split; [done|]. intros i e q p n Hi. by destruct i. }
  apply Forall_cons in Hgs as [[Hnd0 Hlt0] Hgs]. cbn [foldl].
  destruct (place_nodes_spec e0.2 cur 0%Q Hnd0 Hlt0) as [P1 P2].
  set (cur' := (foldl place_node (cur, 0%Q) e0.2).1) in *.
  assert (Hsame : Forall2 same_but_y cur cur').
  { apply (place_nodes_same cur e0.2 (cur, 0%Q)), Forall2_same_but_y_refl. }
  destruct (IH cur') as [IH1 IH2].
  { rewrite <-(Forall2_length _ _ _ Hsame). done. }
  { intros i j e e' p Hi Hj Hp Hp'.
    assert (S i = S j) by (by eapply (Hdisj (S i) (S j))). lia. }
  split.
  - intros p Hp. rewrite IH1.
    + apply P1. apply Hp. by left.
    + intros e He. apply Hp. by right.
  - intros [|i] e q p n Hi Hq Hp; simpl in Hi.
    + injection Hi as <-.
      destruct (P2 q p n Hq Hp) as (n' & Hres & Hsb & Hy).
      exists n'. split_and!; [|done|].
      * rewrite IH1; [done|]. intros e' (j & Hj)%list_elem_of_lookup_1 Hin.
        assert (0%nat = S j); [|done].
        eapply (Hdisj 0%nat (S j) e0 e' p); [done|done| |done].
        by eapply list_elem_of_lookup_2.
      * rewrite Hy. ring.
    + assert (Hnotin : p ∉ e0.2).
      { intros Hin. assert (S i = 0%nat); [|done].
        eapply (Hdisj (S i) 0%nat e e0 p); [done|done| |done].
        by eapply list_elem_of_lookup_2. }
      assert (Hp' : cur' !! p = Some n) by (by rewrite P1).
      destruct (IH2 i e q p n Hi Hq Hp') as (n' & Hres & Hsb & Hy).
      exists n'. split_and!; [done..|].
      by rewrite Hy, (slot_same _ _ _ Hsame).
Qed.

Lemma position_nodes_spec ns p n :
  ns !! p = Some n →
  ∃ q n', layer_refs ns (Node.step n) !! q = Some p
          ∧ position_nodes ns !! p = Some n' ∧ same_but_y n n'
          ∧ (Node.y n'
             == sumQ (slot ns <$> take q (layer_refs ns (Node.step n)))
                + Node.height n / 2)%Q.
Proof.
  intros Hn. destruct (nodesByStep_grouped ns) as (Hnd & Hrefs & Hcov).
  destruct (position_groups_spec (nodesByStep ns) ns) as [_ Hpos].
  { apply Forall_forall. intros e He. rewrite (Hrefs e He). split.
    - apply NoDup_layer_refs.
    - apply Forall_forall. intros p'. apply layer_refs_lt. }
  { intros i j e e' p' Hi Hj Hp Hp'.
    rewrite (Hrefs e) in Hp by (by eapply list_elem_of_lookup_2).
    rewrite (Hrefs e') in Hp' by (by eapply list_elem_of_lookup_2).
    apply elem_of_layer_refs in Hp as (n1 & Hn1 & Hs1).
    apply elem_of_layer_refs in Hp' as (n2 & Hn2 & Hs2).
    eapply NoDup_lookup; [exact Hnd| |].
    - by rewrite list_lookup_fmap, Hi.
    - rewrite list_lookup_fmap, Hj. simpl. congruence. }
  assert (Hs : Node.step n ∈ (nodesByStep ns).*1)
    by (apply Hcov; by eapply list_elem_of_lookup_2).
  apply list_elem_of_fmap in Hs as (e & He1 & (i & Hi)%list_elem_of_lookup_1).
  assert (He2 : e.2 = layer_refs ns (Node.step n)).
  { rewrite He1. apply Hrefs. by eapply list_elem_of_lookup_2. }
  assert (Hin : p ∈ e.2).
  { rewrite He2. apply elem_of_layer_refs. eauto. }
  apply list_elem_of_lookup_1 in Hin as (q & Hq).
  destruct (Hpos i e q p n Hi Hq Hn) as (n' & Hres & Hsb & Hy).
  exists q, n'. rewrite <-He2. done.
Qed.

(** ** Columns of the finished graph *)

(** Step and height of the nodes are settled after the metadata pass. *)
Lemma final_nodes_measured js cutoff :
  Forall2 (λ n2 n, Node.step n = Node.step n2 ∧ Node.height n = Node.height n2
                   ∧ ∃ n3, same_but_y n2 n3 ∧ Node.y n = Node.y n3)
          (measured js cutoff) (nodes (SankeyDiagram js cutoff)).
Proof.
  rewrite final_nodes_laid_out. apply Forall2_fmap_r.
  eapply Forall2_impl; [apply (position_nodes_same (measured js cutoff))|].
  intros n2 n3 Hsb. split_and!; [by rewrite Hsb..|]. exists n3. done.
Qed.

Lemma final_layer_refs js cutoff s :
  layer_refs (nodes (SankeyDiagram js cutoff)) s = layer_refs (measured js cutoff) s.
Proof.
  apply layer_refs_steps. apply list_eq_Forall2, Forall2_fmap, Forall2_flip.
  eapply Forall2_impl; [apply final_nodes_measured|]. by intros n2 n (-> & _).
Qed.

Lemma final_node_height_measured js cutoff p :
  node_height (nodes (SankeyDiagram js cutoff)) p = node_height (measured js cutoff) p.
Proof.
  pose proof (final_nodes_measured js cutoff) as Hm. unfold node_height.
  destruct (measured js cutoff !! p) as [n2|] eqn:Hn2.
  - destruct (Forall2_lookup_l _ _ _ _ _ Hm Hn2) as (n & -> & _ & Hh & _).
    simpl. by rewrite Hh.
  - apply lookup_ge_None in Hn2. rewrite (Forall2_length _ _ _ Hm) in Hn2.
    apply lookup_ge_None in Hn2. by rewrite Hn2.
Qed.

Lemma final_slot js cutoff (ps : list nat) :
  slot (nodes (SankeyDiagram js cutoff)) <$> ps = slot (measured js cutoff) <$> ps.
Proof.
  apply list_fmap_ext. intros i p _. unfold slot.
  by rewrite final_node_height_measured.
Qed.

Lemma final_node_column js cutoff p n :
  nodes (SankeyDiagram js cutoff) !! p = Some n →
  ∃ q, layer_refs (nodes (SankeyDiagram js cutoff)) (Node.step n) !! q = Some p
       ∧ (top_edge n
          == sumQ (slot (nodes (SankeyDiagram js cutoff))
                     <$> take q (layer_refs (nodes (SankeyDiagram js cutoff))
                                            (Node.step n))))%Q.
Proof.
  intros Hn.
  assert (Hlaid : sorted_lists (links (build js cutoff)) <$> laid_out js cutoff !! p
                  = Some n).
  { by rewrite <-list_lookup_fmap, <-final_nodes_laid_out. }
  destruct (laid_out js cutoff !! p) as [n3|] eqn:Hn3; [|done].
  injection Hlaid as <-.
  pose proof (position_nodes_same (measured js cutoff)) as Hsame.
  destruct (Forall2_lookup_r _ _ _ _ _ Hsame Hn3) as (n2 & Hn2 & Hsb).
  destruct (position_nodes_spec _ _ _ Hn2) as (q & n' & Hq & Hn' & _ & Hy).
  assert (n' = n3) as ->.
  { unfold laid_out in Hn3. unfold measured in Hn'. cbv zeta in Hn3, Hn'. congruence. }
  exists q. rewrite final_slot, final_layer_refs.
  change (Node.step (sorted_lists _ n3)) with (Node.step n3).
  assert (Hstep : Node.step n3 = Node.step n2) by (by rewrite Hsb).
  assert (Hh : Node.height n3 = Node.height n2) by (by rewrite Hsb).
  rewrite Hstep. split; [done|].
  unfold top_edge. change (Node.y (sorted_lists _ n3)) with (Node.y n3).
  change (Node.height (sorted_lists _ n3)) with (Node.height n3).
  rewrite Hy, Hh. ring.
Qed.

Lemma sumQ_cons x l : (sumQ (x :: l) == x + sumQ l)%Q.
Proof. reflexivity. Qed.

Lemma column_offset_slots ns (ps : list nat) :
  (column_offset ns ps == sumQ (slot ns <$> ps))%Q.
Proof.
  unfold column_offset.
  assert (Hgen : ∀ z, (foldl (λ currentY p, currentY + (node_height ns p + nodeGap))%Q z ps
                       == z + sumQ (slot ns <$> ps))%Q).
  { induction ps as [|p ps IH]; intros z.
    - simpl. ring.
    - cbn [foldl]. rewrite IH, fmap_cons, sumQ_cons. unfold slot at 2. ring. }
  rewrite Hgen. ring.
Qed.

(** X5: the nodes of a layer are stacked from the top of the drawing in the
    order of the node array: the ordinate of a node of the finished graph
    is [currentY + height / 2], where [currentY] has been advanced from 0
    by the height plus the node gap of every node of the same layer that
    comes before it. *)
Theorem X5_nodes_stacked_in_column js cutoff p n :
  let ns := nodes (SankeyDiagram js cutoff) in
  ns !! p = Some n →
  ∃ q, layer_refs ns (Node.step n) !! q = Some p
       ∧ (Node.y n
          == column_offset ns (take q (layer_refs ns (Node.step n)))
             + Node.height n / 2)%Q.
Proof.
  intros ns Hn. destruct (final_node_column _ _ _ _ Hn) as (q & Hq & Hy).
  exists q. split; [done|]. fold ns in Hy. rewrite column_offset_slots, <-Hy.
  unfold top_edge. ring.
Qed.

(** ** Nodes of a column do not overlap and fit in the drawing *)

Lemma final_height_min js cutoff p n :
  nodes (SankeyDiagram js cutoff) !! p = Some n →
  (MIN_NODE_HEIGHT <= Node.height n)%Q.
Proof. intros Hn. rewrite (final_node_height _ _ _ _ Hn). apply Q.le_max_r. Qed.

Lemma final_node_height_nonneg js cutoff p :
  (0 <= node_height (nodes (SankeyDiagram js cutoff)) p)%Q.
Proof.
  unfold node_height.
  destruct (nodes (SankeyDiagram js cutoff) !! p) as [n|] eqn:Hn; [|done].
  simpl. apply Qle_trans with MIN_NODE_HEIGHT; [done|]. by eapply final_height_min.
Qed.

Lemma final_slots_nonneg js cutoff (ps : list nat) :
  (0 <= sumQ (slot (nodes (SankeyDiagram js cutoff)) <$> ps))%Q.
Proof.
  apply sumQ_nonneg, Forall_fmap, Forall_forall. intros p _. simpl. unfold slot.
  pose proof (final_node_height_nonneg js cutoff p) as Hh.
  unfold nodeGap. lra.
Qed.



Lemma foldl_heights ns (ps : list nat) z :
  (foldl (λ sum p, sum + node_height ns p) z ps
   == z + sumQ (node_height ns <$> ps))%Q.
Proof.
  revert z. induction ps as [|p ps IH]; intros z.
  - simpl. ring.
  - cbn [foldl]. rewrite IH, fmap_cons, sumQ_cons. ring.
Qed.

Lemma sumQ_slots ns (ps : list nat) :
  (sumQ (slot ns <$> ps)
   == sumQ (node_height ns <$> ps) + inject_Z (Z.of_nat (length ps)) * nodeGap)%Q.
Proof.
  induction ps as [|p ps IH].
  - simpl. ring.
  - rewrite !fmap_cons, !sumQ_cons, IH. cbn [length].
    rewrite Nat2Z.inj_succ. unfold Z.succ. rewrite inject_Z_plus.
    unfold slot at 1. ring.
Qed.

Lemma foldl_Qmax_lower v vs : (v <= foldl Qmax v vs)%Q.
Proof.
  revert v. induction vs as [|x vs IH]; intros v; simpl; [apply Qle_refl|].
  apply Qle_trans with (Qmax v x); [apply Q.le_max_l|apply IH].
Qed.

Lemma foldl_Qmax_ge x v vs : x ∈ v :: vs → (x <= foldl Qmax v vs)%Q.
Proof.
  revert v. induction vs as [|y vs IH]; intros v.
  - intros Hx%list_elem_of_singleton. subst. apply Qle_refl.
  - intros Hx. rewrite !elem_of_cons in Hx. simpl.
    destruct Hx as [->|[->|Hx]].
    + apply Qle_trans with (Qmax v y); [apply Q.le_max_l|apply foldl_Qmax_lower].
    + apply Qle_trans with (Qmax v y); [apply Q.le_max_r|apply foldl_Qmax_lower].
    + apply IH. by right.
Qed.

Lemma svgHeight_ge ns h :
  h ∈ stepHeights ns → (h + verticalPadding * 2 <= svgHeight ns)%Q.
Proof.
  intros Hh. unfold svgHeight, Math_max.
  destruct (stepHeights ns) as [|v vs]; [by apply elem_of_nil in Hh|].
  apply Qle_trans with (foldl Qmax v vs + verticalPadding * 2)%Q; [|apply Q.le_max_r].
  apply Qplus_le_compat; [by apply foldl_Qmax_ge|apply Qle_refl].
Qed.

Lemma svgHeight_min ns : (minHeight <= svgHeight ns)%Q.
Proof.
  unfold svgHeight. destruct (Math_max _); [apply Q.le_max_l|apply Qle_refl].
Qed.

(** X7: the drawing is at least [minHeight] high, and every node of the
    finished graph lies inside it with the bottom margin to spare: the
    bottom edge of the node plus the vertical padding is less than the
    height of the drawing. *)
Theorem X7_nodes_fit_in_drawing js cutoff p n :
  nodes (SankeyDiagram js cutoff) !! p = Some n →
  (minHeight <= diagramHeight js cutoff)%Q
  ∧ (top_edge n + Node.height n + verticalPadding < diagramHeight js cutoff)%Q.
Proof.
  intros Hn. split; [apply svgHeight_min|].
  destruct (final_node_column _ _ _ _ Hn) as (q & Hq & Hy).
  set (refs := layer_refs (nodes (SankeyDiagram js cutoff)) (Node.step n)) in *.
  set (ns := nodes (SankeyDiagram js cutoff)) in *.
  destruct (nodesByStep_grouped (measured js cutoff)) as (_ & Hrefs & Hcov).
  pose proof (final_nodes_measured js cutoff) as Hm.
  destruct (Forall2_lookup_r _ _ _ _ _ Hm Hn) as (n2 & Hn2 & Hs2 & _).
  assert (Hs : Node.step n2 ∈ (nodesByStep (measured js cutoff)).*1)
    by (apply Hcov; by eapply list_elem_of_lookup_2).
  apply list_elem_of_fmap in Hs as (e & He1 & He).
  assert (He2 : e.2 = refs).
  { rewrite (Hrefs e He), <-He1, <-Hs2. unfold refs, ns.
    by rewrite final_layer_refs. }
  set (h := (foldl (λ sum p, sum + node_height (measured js cutoff) p) 0 e.2
             + (inject_Z (Z.of_nat (length e.2)) - 1) * nodeGap)%Q).
  assert (Hin : h ∈ stepHeights (measured js cutoff)).
  { unfold stepHeights. apply list_elem_of_fmap. by exists e. }
  apply Qlt_le_trans with (h + verticalPadding * 2)%Q;
    [|by apply svgHeight_ge].
  assert (Hle : (top_edge n + Node.height n <= h)%Q).
  { unfold h. rewrite foldl_heights, He2.
    assert (Hhs : node_height (measured js cutoff) <$> refs = node_height ns <$> refs).
    { apply list_fmap_ext. intros i p' _. unfold ns.
      by rewrite final_node_height_measured. }
    rewrite Hhs, Hy.
    rewrite <-(take_drop_middle refs q p Hq) at 2 3.
    rewrite fmap_app, sumQ_app, fmap_cons, sumQ_cons, length_app. cbn [length].
    rewrite sumQ_slots.
    assert (Hdrop : (0 <= sumQ (node_height ns <$> drop (S q) refs))%Q).
    { apply sumQ_nonneg, Forall_fmap, Forall_forall. intros p' _.
      apply final_node_height_nonneg. }
    assert (Hp : node_height ns p = Node.height n).
    { unfold node_height. by rewrite Hn. }
    rewrite Hp, Nat2Z.inj_add, Nat2Z.inj_succ. unfold Z.succ.
    rewrite !inject_Z_plus.
    assert (Hlen : (0 <= inject_Z (Z.of_nat (length (drop (S q) refs))))%Q).
    { change 0%Q with (inject_Z 0). rewrite <-Zle_Qle. lia. }
    unfold nodeGap. change (inject_Z 1) with 1%Q. lra. }
  unfold verticalPadding. lra.
Qed.

(** ** Stroke widths *)

Lemma foldl_max_in v vs : foldl Z.max v vs ∈ v :: vs.
Proof.
  revert v. induction vs as [|x vs IH]; intros v; simpl; [by left|].
  specialize (IH (Z.max v x)). apply elem_of_cons in IH as [->|IH].
  - destruct (Z.max_spec v x) as [[_ ->]|[_ ->]]; [right; left|left].
  - by do 2 right.
Qed.

Lemma scale_at_max mx : mx ≠ 0 → (linkWidthScale mx mx == MAX_LINK_HEIGHT)%Q.
Proof.
  intros Hmx. unfold linkWidthScale, MIN_LINK_HEIGHT, MAX_LINK_HEIGHT.
  field. intros Heq. apply Hmx. unfold Qeq in Heq. simpl in Heq. lia.
Qed.

(** X8: when no considered journey has a negative count, the stroke width
    of every link of the finished graph lies between [MIN_LINK_HEIGHT] and
    [MAX_LINK_HEIGHT], no link has a value above the domain of the scale,
    and, when some link has a positive value, a link of the largest value
    is drawn with the full [MAX_LINK_HEIGHT]. *)
Theorem X8_stroke_width_range js cutoff :
  Forall (λ j, 0 ≤ Journey.count j) (slice0 js cutoff) →
  let g := SankeyDiagram js cutoff in
  let mx := maxLinkValue (links g) in
  (∀ l, l ∈ links g →
     Link.value l ≤ mx
     ∧ (MIN_LINK_HEIGHT <= linkWidthScale mx (Link.value l))%Q
     ∧ (linkWidthScale mx (Link.value l) <= MAX_LINK_HEIGHT)%Q)
  ∧ ((∃ l, l ∈ links g ∧ 0 < Link.value l) →
     ∃ l, l ∈ links g ∧ Link.value l = mx
          ∧ (linkWidthScale mx (Link.value l) == MAX_LINK_HEIGHT)%Q).
Proof.
  intros Hpos g mx. rewrite Forall_forall in Hpos.
  pose proof (final_values_nonneg js cutoff Hpos) as Hnn. fold g in Hnn.
  pose proof (maxLinkValue_pos _ Hnn) as Hmx. fold mx in Hmx.
  split.
  - intros l Hl. rewrite Forall_forall in Hnn.
    assert (Hle : Link.value l ≤ mx).
    { destruct (decide (0 < Link.value l)); [by apply maxLinkValue_ge|lia]. }
    split_and!; [done| |].
    + apply scale_nonneg; auto.
    + rewrite <-(scale_at_max mx) by lia. by apply scale_mono.
  - intros (l0 & Hl0 & Hv0).
    pose proof (maxLinkValue_ge _ _ Hl0 Hv0) as Hge. fold mx in Hge.
    assert (Hin : mx ∈ Link.value <$> links g).
    { clear Hge. unfold mx, maxLinkValue in *.
      destruct (links g) as [|l1 ls]; [by apply elem_of_nil in Hl0|].
      rewrite fmap_cons in *. cbn [d3_max] in *.
      pose proof (foldl_max_in (Link.value l1) (Link.value <$> ls)) as Hmax.
      pose proof (foldl_max_ge (Link.value l0) (Link.value l1) (Link.value <$> ls))
        as Hge.
      rewrite <-fmap_cons in Hge. specialize (Hge (list_elem_of_fmap_2 _ _ _ Hl0)).
      rewrite decide_False by lia. done. }
    apply list_elem_of_fmap in Hin as (l & Hv & Hl).
    exists l. split_and!; [done..|]. rewrite <-Hv. apply scale_at_max. lia.
Qed.

(** ** Link paths *)

Lemma NoDup_ids_eq (ns : list Node.t) n n' :
  NoDup (Node.id <$> ns) → n ∈ ns → n' ∈ ns → Node.id n = Node.id n' → n = n'.
Proof.
  intros Hnd (i & Hi)%list_elem_of_lookup_1 (i' & Hi')%list_elem_of_lookup_1 Hid.
  assert (i = i').
  { eapply NoDup_lookup; [exact Hnd| |]; rewrite list_lookup_fmap.
    - by rewrite Hi.
    - rewrite Hi'. simpl. by rewrite Hid. }
  congruence.
Qed.

Lemma final_ids_NoDup js cutoff : NoDup (Node.id <$> nodes (SankeyDiagram js cutoff)).
Proof. rewrite final_node_ids. apply build_ids_NoDup. Qed.

(** Both ends of a link of the finished graph are found, one layer apart. *)
Lemma final_link_ends js cutoff l :
  let g := SankeyDiagram js cutoff in
  l ∈ links g →
  ∃ ps s pt t,
    find_node (Link.source l) (nodes g) = Some (ps, s)
    ∧ find_node (Link.target l) (nodes g) = Some (pt, t)
    ∧ nodes g !! ps = Some s ∧ nodes g !! pt = Some t
    ∧ Node.id s = Link.source l ∧ Node.id t = Link.target l
    ∧ Node.step t = S (Node.step s).
Proof.
  intros g Hl.
  destruct (final_link_nodes js cutoff l Hl l Hl)
    as (n1 & n2 & Hn1 & Hn2 & Hid1 & Hid2 & Hstep).
  destruct (find_node_Some _ _ _ Hn1 Hid1) as (ps & s & Hfs & Hs & Hids).
  destruct (find_node_Some _ _ _ Hn2 Hid2) as (pt & t & Hft & Ht & Hidt).
  assert (s = n1) as ->.
  { eapply NoDup_ids_eq; [apply final_ids_NoDup|done..|congruence]. }
  assert (t = n2) as ->.
  { eapply NoDup_ids_eq; [apply final_ids_NoDup|done..|congruence]. }
  exists ps, n1, pt, n2. split_and!; try done.
  - by apply list_find_Some in Hfs as (? & _).
  - by apply list_find_Some in Hft as (? & _).
Qed.

(** X9: every link of the finished graph has a path (the empty string is
    never returned): both ends of the link are nodes of the graph, the
    target one layer after the source, and the path runs from the right
    edge of the source node to the left edge of the target node, with its
    control points a third of [stepSpacing] inside of the two ends. *)
Theorem X9_link_path_geometry stepWidth js cutoff k l :
  let g := SankeyDiagram js cutoff in
  links g !! k = Some l →
  ∃ pth ps s pt t,
    getLinkPath stepWidth g l = Some pth
    ∧ nodes g !! ps = Some s ∧ nodes g !! pt = Some t
    ∧ Node.id s = Link.source l ∧ Node.id t = Link.target l
    ∧ Node.step t = S (Node.step s)
    ∧ Path.sourceX pth = (node_x stepWidth s + nodeWidth)%Q
    ∧ Path.targetX pth = node_x stepWidth t
    ∧ Path.controlPoint1X pth = (Path.sourceX pth + stepSpacing stepWidth / 3)%Q
    ∧ Path.controlPoint2X pth = (Path.targetX pth - stepSpacing stepWidth / 3)%Q.
Proof.
  intros g Hl%list_elem_of_lookup_2.
  destruct (final_link_ends js cutoff l Hl)
    as (ps & s & pt & t & Hfs & Hft & Hs & Ht & Hids & Hidt & Hstep).
  fold g in Hfs, Hft, Hs, Ht. unfold getLinkPath. rewrite Hfs, Hft.
  eexists _, ps, s, pt, t. split_and!; done.
Qed.

Lemma final_top_edge_nonneg js cutoff p n :
  nodes (SankeyDiagram js cutoff) !! p = Some n → (0 <= top_edge n)%Q.
Proof.
  intros Hn. destruct (final_node_column _ _ _ _ Hn) as (q & _ & ->).
  apply final_slots_nonneg.
Qed.

Lemma or_else_pos y fallback : (0 < y)%Q → or_else (Some y) fallback = y.
Proof.
  intros Hy. unfold or_else. destruct (Qeq_bool y 0) eqn:Heq; [|done].
  apply Qeq_bool_iff in Heq. rewrite Heq in Hy. by apply Qlt_irrefl in Hy.
Qed.

(** The anchors of a link of positive value are under the top of the
    drawing. *)
Lemma final_anchor_pos js cutoff k l :
  let g := SankeyDiagram js cutoff in
  Forall (λ j, 0 ≤ Journey.count j) (slice0 js cutoff) →
  links g !! k = Some l → 0 < Link.value l →
  ∃ ys yt, Link.sourceY l = Some ys ∧ Link.targetY l = Some yt
           ∧ (0 < ys)%Q ∧ (0 < yt)%Q.
Proof.
  intros g Hpos Hk Hv. rewrite Forall_forall in Hpos.
  pose proof (final_values_nonneg js cutoff Hpos) as Hnn. fold g in Hnn.
  pose proof (maxLinkValue_pos _ Hnn) as Hmx.
  assert (Hl : l ∈ links g) by (by eapply list_elem_of_lookup_2).
  destruct (final_link_ends js cutoff l Hl)
    as (ps & s & pt & t & _ & _ & Hs & Ht & Hids & Hidt & _).
  fold g in Hs, Ht.
  assert (Hth : (0 < thickness (maxLinkValue (links g)) (links g) k)%Q).
  { unfold thickness, link_value. rewrite Hk. simpl. by apply scale_pos. }
  destruct (final_node_lists _ _ _ _ Hs) as [Hout _].
  destruct (final_node_lists _ _ _ _ Ht) as [_ Hin].
  fold g in Hout, Hin.
  assert (Hko : k ∈ Node.outgoingLinks s).
  { rewrite Hout, elem_of_sort_desc. apply elem_of_refs_with. eauto. }
  assert (Hki : k ∈ Node.incomingLinks t).
  { rewrite Hin, elem_of_sort_desc. apply elem_of_refs_with. eauto. }
  apply list_elem_of_lookup_1 in Hko as (qo & Hqo).
  apply list_elem_of_lookup_1 in Hki as (qi & Hqi).
  destruct (final_anchor _ _ _ _ Hs) as [Hso _].
  destruct (final_anchor _ _ _ _ Ht) as [_ Hti].
  specialize (Hso qo k Hqo). specialize (Hti qi k Hqi).
  fold g in Hso, Hti. rewrite Hk in Hso, Hti.
  injection Hso as Hso. injection Hti as Hti.
  eexists _, _. split_and!; [exact Hso|exact Hti| |].
  - rewrite running_sumQ.
    pose proof (final_top_edge_nonneg _ _ _ _ Hs).
    pose proof (sumQ_thickness_nonneg (maxLinkValue (links g)) (links g)
                  (take qo (Node.outgoingLinks s)) Hmx Hnn).
    assert (Hhalf : (thickness (maxLinkValue (links g)) (links g) k / 2
                     == thickness (maxLinkValue (links g)) (links g) k * (1 # 2))%Q)
      by field.
    rewrite Hhalf. lra.
  - rewrite running_sumQ.
    pose proof (final_top_edge_nonneg _ _ _ _ Ht).
    pose proof (sumQ_thickness_nonneg (maxLinkValue (links g)) (links g)
                  (take qi (Node.incomingLinks t)) Hmx Hnn).
    assert (Hhalf : (thickness (maxLinkValue (links g)) (links g) k / 2
                     == thickness (maxLinkValue (links g)) (links g) k * (1 # 2))%Q)
      by field.
    rewrite Hhalf. lra.
Qed.

(** X10: when no considered journey has a negative count, the path of a
    link of positive value starts at the source anchor and ends at the
    target anchor of the link: both anchors are positive, so neither falls
    back to the centre of the node. *)
Theorem X10_link_path_uses_anchors stepWidth js cutoff k l :
  let g := SankeyDiagram js cutoff in
  Forall (λ j, 0 ≤ Journey.count j) (slice0 js cutoff) →
  links g !! k = Some l → 0 < Link.value l →
  ∃ pth, getLinkPath stepWidth g l = Some pth
         ∧ Link.sourceY l = Some (Path.sourceY pth)
         ∧ Link.targetY l = Some (Path.targetY pth).
Proof.
  intros g Hpos Hk Hv.
  destruct (final_anchor_pos js cutoff k l Hpos Hk Hv)
    as (ys & yt & Hys & Hyt & Hs0 & Ht0).
  assert (Hl : l ∈ links g) by (by eapply list_elem_of_lookup_2).
  destruct (final_link_ends js cutoff l Hl)
    as (ps & s & pt & t & Hfs & Hft & _).
  fold g in Hfs, Hft. unfold getLinkPath. rewrite Hfs, Hft.
  eexists. split; [done|]. cbn [Path.sourceY Path.targetY].
  rewrite Hys, Hyt, !or_else_pos by done. done.
Qed.

(** ** Link hover *)

Lemma hover_list_total g d :
  adjacency_exact g → (d < length (links g))%nat →
  ∃ ks, hover_list g d ks ∧ Forall (λ k, (k < length (links g))%nat) ks
        ∧ (∀ k, k ∈ ks → reach g forward d k ∨ reach g backward d k)
        ∧ (NoDup (linkId <$> links g) →
           ∀ k, reach g forward d k ∨ reach g backward d k → k ∈ ks).
Proof.
  intros Hadj Hd.
  destruct (findAllConnectedPaths_spec g forward d Hadj Hd)
    as (fw & Hfw & _ & _ & _ & Hfv & _ & _ & Hfs & Hfc).
  destruct (findAllConnectedPaths_spec g backward d Hadj Hd)
    as (bw & Hbw & _ & _ & _ & Hbv & _ & _ & Hbs & Hbc).
  exists (d :: fw ++ bw). split_and!.
  - by exists fw, bw.
  - apply Forall_cons. split; [done|]. by apply Forall_app.
  - intros k [->|[?|?]%elem_of_app]%elem_of_cons;
      [left; apply rtc_refl|left; by apply Hfs|right; by apply Hbs].
  - intros Hnd k [Hr|Hr]; right; apply elem_of_app; [left; by apply Hfc|right; by apply Hbc].
Qed.

Lemma link_mouseenter_spec g d ks :
  hover_list g d ks → Forall (λ k, (k < length (links g))%nat) ks →
  ∃ h, link_mouseenter g d = Done h
       ∧ (∀ x, x ∈ connectedLinkIds h
            ↔ ∃ k l, k ∈ ks ∧ links g !! k = Some l ∧ x = linkId l)
       ∧ (∀ x, x ∈ connectedNodeIds h
            ↔ ∃ k l, k ∈ ks ∧ links g !! k = Some l
                     ∧ (x = Link.source l ∨ x = Link.target l)).
Proof.
  intros (f & b & Hf & Hb & ->) Hvalid.
  destruct (collect_spec g _ (mkHighlight ∅ ∅) Hvalid) as (h & Hrun & Hl & Hn).
  exists h. split_and!.
  - unfold link_mouseenter. rewrite Hf, Hb. done.
  - intros x. rewrite Hl. cbn [connectedLinkIds]. split; [|by right].
    intros [?%elem_of_empty|?]; done.
  - intros x. rewrite Hn. cbn [connectedNodeIds]. split; [|by right].
    intros [?%elem_of_empty|?]; done.
Qed.

(** X11: hovering a link of the finished graph highlights the link itself,
    the links reached from it by following links forward or backward - all
    of them when no two links of the graph have the same [source|||target]
    key - and, as nodes, the two ends of every highlighted link. *)
Theorem X11_link_hover js cutoff d ld :
  let g := SankeyDiagram js cutoff in
  links g !! d = Some ld →
  ∃ ks h,
    hover_list g d ks
    ∧ link_mouseenter g d = Done h
    ∧ linkId ld ∈ connectedLinkIds h
    ∧ Link.source ld ∈ connectedNodeIds h ∧ Link.target ld ∈ connectedNodeIds h
    ∧ (∀ x, x ∈ connectedLinkIds h
         ↔ ∃ k l, k ∈ ks ∧ links g !! k = Some l ∧ x = linkId l)
    ∧ (∀ x, x ∈ connectedNodeIds h
         ↔ ∃ k l, k ∈ ks ∧ links g !! k = Some l
                  ∧ (x = Link.source l ∨ x = Link.target l))
    ∧ (∀ k, k ∈ ks → reach g forward d k ∨ reach g backward d k)
    ∧ (NoDup (linkId <$> links g) →
       ∀ k, reach g forward d k ∨ reach g backward d k → k ∈ ks).
Proof.
  intros g Hd. pose proof (final_adjacency js cutoff) as Hadj. fold g in Hadj.
  assert (Hlt : (d < length (links g))%nat) by (by eapply lookup_lt_Some).
  destruct (hover_list_total g d Hadj Hlt) as (ks & Hks & Hvalid & Hsound & Hcompl).
  destruct (link_mouseenter_spec g d ks Hks Hvalid) as (h & Hrun & Hl & Hn).
  assert (Hdks : d ∈ ks).
  { destruct Hks as (f & b & _ & _ & ->). by left. }
  exists ks, h. split_and!; try done.
  - apply Hl. by exists d, ld.
  - apply Hn. exists d, ld. split_and!; [done..|by left].
  - apply Hn. exists d, ld. split_and!; [done..|by right].
Qed.

(** ** Node hover as a union of link hovers *)

Lemma foldl_gather_error g ds :
  foldl (gather_link g) TypeError ds = TypeError
  ∧ foldl (gather_link g) OutOfFuel ds = OutOfFuel.
Proof. induction ds as [|d ds [IH1 IH2]]; [done|]. by cbn [foldl gather_link bind]. Qed.

Lemma gather_elems g ds acc all :
  foldl (gather_link g) (Done acc) ds = Done all →
  ∀ k, k ∈ all ↔ k ∈ acc ∨ ∃ d ks, d ∈ ds ∧ hover_list g d ks ∧ k ∈ ks.
Proof.
  revert acc. induction ds as [|d ds IH]; intros acc Hrun k.
  { simpl in Hrun. injection Hrun as <-. split; [by left|].
    intros [?|(? & ? & ?%elem_of_nil & _)]; done. }
  cbn [foldl] in Hrun. unfold gather_link at 2 in Hrun. cbn [bind] in Hrun.
  destruct (findAllConnectedPaths g d forward) as [f| |] eqn:Hf; cbn [bind] in Hrun;
    [|by rewrite (proj1 (foldl_gather_error g ds)) in Hrun
     |by rewrite (proj2 (foldl_gather_error g ds)) in Hrun].
  destruct (findAllConnectedPaths g d backward) as [b| |] eqn:Hb; cbn [bind] in Hrun;
    [|by rewrite (proj1 (foldl_gather_error g ds)) in Hrun
     |by rewrite (proj2 (foldl_gather_error g ds)) in Hrun].
  rewrite (IH _ Hrun k). split.
  - intros [Hk|(d' & ks & Hd' & Hks & Hk)].
    + apply elem_of_app in Hk as [Hk|Hk]; [by left|].
      right. exists d, (d :: f ++ b). split_and!; [by left| |done].
      by exists f, b.
    + right. exists d', ks. split_and!; [by right|done..].
  - intros [Hk|(d' & ks & [->|Hd']%elem_of_cons & Hks & Hk)].
    + left. apply elem_of_app. by left.
    + left. apply elem_of_app. right.
      destruct Hks as (f' & b' & Hf' & Hb' & ->).
      rewrite Hf in Hf'. rewrite Hb in Hb'. by simplify_eq.
    + right. by exists d', ks.
Qed.

(** X12: hovering a node of the finished graph highlights what hovering
    each of the links that touch the node highlights, taken together, and
    the node itself. *)
Theorem X12_node_hover_is_union js cutoff nodeId :
  let g := SankeyDiagram js cutoff in
  ∃ h, node_mouseenter g nodeId = Done h
    ∧ (∀ x, x ∈ connectedLinkIds h
         ↔ ∃ d hd, d ∈ directLinks g nodeId ∧ link_mouseenter g d = Done hd
                   ∧ x ∈ connectedLinkIds hd)
    ∧ (∀ x, x ∈ connectedNodeIds h
         ↔ x = nodeId
           ∨ ∃ d hd, d ∈ directLinks g nodeId ∧ link_mouseenter g d = Done hd
                     ∧ x ∈ connectedNodeIds hd).
Proof.
  intros g. pose proof (final_adjacency js cutoff) as Hadj. fold g in Hadj.
  assert (Hds : Forall (λ k, (k < length (links g))%nat) (directLinks g nodeId)).
  { apply Forall_forall. intros d (l & Hl & _)%directLinks_spec.
    by eapply lookup_lt_Some. }
  destruct (gather_spec g _ [] Hadj Hds) as (all & Hrun & _).
  assert (Hall : allConnectedLinks g nodeId = Done all) by done.
  pose proof (allConnectedLinks_valid g nodeId all Hadj Hall) as Hvalid.
  pose proof (gather_elems g _ _ _ Hrun) as Helems.
  destruct (collect_spec g all (mkHighlight ∅ {[nodeId]}) Hvalid)
    as (h & Hcollect & Hlids & Hnids).
  assert (Hfun : ∀ d ks ks', hover_list g d ks → hover_list g d ks' → ks = ks').
  { intros d ks ks' (f & b & Hf & Hb & ->) (f' & b' & Hf' & Hb' & ->).
    rewrite Hf in Hf'. rewrite Hb in Hb'. by simplify_eq. }
  assert (Hlist : ∀ d, d ∈ directLinks g nodeId →
            ∃ ks, hover_list g d ks
                  ∧ Forall (λ k, (k < length (links g))%nat) ks).
  { intros d Hd. rewrite Forall_forall in Hds.
    destruct (hover_list_total g d Hadj (Hds d Hd)) as (ks & Hks & Hv & _).
    by exists ks. }
  assert (Hhover : ∀ d ks, d ∈ directLinks g nodeId → hover_list g d ks →
            ∃ hd, link_mouseenter g d = Done hd
              ∧ (∀ x, x ∈ connectedLinkIds hd
                   ↔ ∃ k l, k ∈ ks ∧ links g !! k = Some l ∧ x = linkId l)
              ∧ (∀ x, x ∈ connectedNodeIds hd
                   ↔ ∃ k l, k ∈ ks ∧ links g !! k = Some l
                            ∧ (x = Link.source l ∨ x = Link.target l))).
  { intros d ks Hd Hks. destruct (Hlist d Hd) as (ks' & Hks' & Hv).
    apply link_mouseenter_spec; [done|].
    by rewrite (Hfun d ks ks' Hks Hks'). }
  exists h. split_and!.
  - unfold node_mouseenter. rewrite Hall. done.
  - intros x. rewrite Hlids. cbn [connectedLinkIds]. split.
    + intros [?%elem_of_empty|(k & l & Hk & Hl & ->)]; [done|].
      apply Helems in Hk as [?%elem_of_nil|(d & ks & Hd & Hks & Hk)]; [done|].
      destruct (Hhover d ks Hd Hks) as (hd & Hrun' & Hl' & _).
      exists d, hd. split_and!; [done..|]. apply Hl'. by exists k, l.
    + intros (d & hd & Hd & Hrun' & Hx). right.
      destruct (Hlist d Hd) as (ks & Hks & _).
      destruct (Hhover d ks Hd Hks) as (hd' & Hrun'' & Hl' & _).
      rewrite Hrun' in Hrun''. injection Hrun'' as <-.
      destruct (proj1 (Hl' x) Hx) as (k & l & Hk & Hl & Heq).
      exists k, l. split_and!; [|done..].
      apply Helems. right. by exists d, ks.
  - intros x. rewrite Hnids. cbn [connectedNodeIds]. rewrite elem_of_singleton. split.
    + intros [?|(k & l & Hk & Hl & Hx)]; [by left|]. right.
      apply Helems in Hk as [?%elem_of_nil|(d & ks & Hd & Hks & Hk)]; [done|].
      destruct (Hhover d ks Hd Hks) as (hd & Hrun' & _ & Hn').
      exists d, hd. split_and!; [done..|]. apply Hn'. by exists k, l.
    + intros [?|(d & hd & Hd & Hrun' & Hx)]; [by left|]. right.
      destruct (Hlist d Hd) as (ks & Hks & _).
      destruct (Hhover d ks Hd Hks) as (hd' & Hrun'' & _ & Hn').
      rewrite Hrun' in Hrun''. injection Hrun'' as <-.
      destruct (proj1 (Hn' x) Hx) as (k & l & Hk & Hl & Heq).
      exists k, l. split_and!; [|done..].
      apply Helems. right. by exists d, ks.
Qed.

(** X13: whatever the graph, hovering a node that no link touches
    highlights that node alone and no link. *)
Theorem X13_isolated_node_hover g nodeId :
  Forall (λ l, Link.source l ≠ nodeId ∧ Link.target l ≠ nodeId) (links g) →
  node_mouseenter g nodeId = Done (mkHighlight ∅ {[nodeId]}).
Proof.
  intros Hno. rewrite Forall_forall in Hno.
  assert (Hd : directLinks g nodeId = []).
  { destruct (directLinks g nodeId) as [|d ds] eqn:Heq; [done|].
    assert (Hin : d ∈ directLinks g nodeId) by (rewrite Heq; left).
    apply directLinks_spec in Hin as (l & Hl & Hor).
    destruct (Hno l) as [? ?]; [by eapply list_elem_of_lookup_2|].
    by destruct Hor. }
  unfold node_mouseenter, allConnectedLinks. by rewrite Hd.
Qed.

(** ** Layers along the traversals *)

Lemma step_rel_layer js cutoff dir k1 k2 :
  let g := SankeyDiagram js cutoff in
  step_rel g dir k1 k2 →
  match dir with
  | forward => ref_layer g k2 = S (ref_layer g k1)
  | backward => ref_layer g k1 = S (ref_layer g k2)
  end.
Proof.
  intros g (l1 & l2 & Hl1 & Hl2 & Hfol).
  unfold ref_layer. rewrite Hl1, Hl2. simpl. unfold link_layer.
  assert (Hin1 : l1 ∈ links g) by (by eapply list_elem_of_lookup_2).
  assert (Hin2 : l2 ∈ links g) by (by eapply list_elem_of_lookup_2).
  destruct (final_link_ends js cutoff l1 Hin1)
    as (ps1 & s1 & pt1 & t1 & Hfs1 & Hft1 & _ & _ & _ & _ & Hstep1).
  destruct (final_link_ends js cutoff l2 Hin2)
    as (ps2 & s2 & pt2 & t2 & Hfs2 & Hft2 & _ & _ & _ & _ & Hstep2).
  fold g in Hfs1, Hft1, Hfs2, Hft2.
  destruct dir; simpl in Hfol.
  - rewrite Hfs1, Hfs2. rewrite Hfol in Hft1. rewrite Hfs2 in Hft1.
    by simplify_eq.
  - rewrite Hfs1, Hfs2. rewrite Hfol in Hfs1. rewrite Hft2 in Hfs1.
    by simplify_eq.
Qed.

Lemma reach_layer js cutoff dir d k :
  let g := SankeyDiagram js cutoff in
  reach g dir d k →
  match dir with
  | forward => (ref_layer g d ≤ ref_layer g k)%nat
  | backward => (ref_layer g k ≤ ref_layer g d)%nat
  end
  ∧ (ref_layer g k = ref_layer g d → k = d).
Proof.
  intros g. revert k. apply rtc_ind_r.
  { split; [destruct dir; lia|done]. }
  intros k1 k2 _ Hstep [IH _].
  pose proof (step_rel_layer js cutoff dir k1 k2 Hstep) as Hl. fold g in Hl.
  destruct dir; (split; [lia|intros Heq; lia]).
Qed.

(** X14: in the finished graph the forward and the backward traversal from
    a link both return that link and have no other link in common, and
    neither returns a link twice: the list built when a link is hovered
    names the hovered link three times and any other link at most once. *)
Theorem X14_traversals_meet_at_seed js cutoff d ld :
  let g := SankeyDiagram js cutoff in
  links g !! d = Some ld →
  ∃ f b, findAllConnectedPaths g d forward = Done f
         ∧ findAllConnectedPaths g d backward = Done b
         ∧ d ∈ f ∧ d ∈ b ∧ NoDup f ∧ NoDup b
         ∧ (∀ k, k ∈ f → k ∈ b → k = d).
Proof.
  intros g Hd. pose proof (final_adjacency js cutoff) as Hadj. fold g in Hadj.
  assert (Hlt : (d < length (links g))%nat) by (by eapply lookup_lt_Some).
  destruct (findAllConnectedPaths_spec g forward d Hadj Hlt)
    as (f & Hf & _ & Hndf & _ & _ & _ & Hdf & Hfs & _).
  destruct (findAllConnectedPaths_spec g backward d Hadj Hlt)
    as (b & Hb & _ & Hndb & _ & _ & _ & Hdb & Hbs & _).
  exists f, b. split_and!; try done.
  intros k Hkf Hkb.
  destruct (reach_layer js cutoff forward d k (Hfs k Hkf)) as [Hle Heq].
  destruct (reach_layer js cutoff backward d k (Hbs k Hkb)) as [Hge _].
  fold g in Hle, Heq, Hge. apply Heq. lia.
Qed.

(** ** Stroke reset *)

(** X15: whatever the graph, the stroke that a drawn link is given when the
    pointer leaves a node or a link is the colour the link was drawn with:
    the link found again by its source alone may be another link, but it
    has the same source node and so the same colour. *)
Theorem X15_mouseleave_restores_stroke linkColor g k d :
  links g !! k = Some d →
  mouseleave_stroke linkColor g (Link.source d) = getLinkColor linkColor g d.
Proof.
  intros Hd%list_elem_of_lookup_2. unfold mouseleave_stroke.
  destruct (list_find_elem_of (λ l, Link.source l = Link.source d) (links g) d Hd eq_refl)
    as [[i l] Hfind].
  rewrite Hfind. apply list_find_Some in Hfind as (_ & Hsrc & _).
  unfold getLinkColor. by rewrite Hsrc.
Qed.

(** ** Segment keys *)

Lemma split_slash_nonempty s : split_slash s ≠ [].
Proof.
  destruct s as [|c s]; [done|]. simpl.
  case_decide; [done|]. by destruct (split_slash s).
Qed.

Lemma split_slash_no_slash s : Forall no_slash (split_slash s).
Proof.
  induction s as [|c s IH]; [by repeat constructor|]. simpl.
  case_decide; [by constructor|].
  destruct (split_slash s) as [|w ws]; [by repeat constructor|].
  apply Forall_cons in IH as [Hw Hws]. by repeat constructor.
Qed.

Lemma split_slash_whole s : no_slash s → split_slash s = [s].
Proof.
  induction s as [|c s IH]; [done|]. intros [Hc Hs]. simpl.
  rewrite decide_False by done. by rewrite IH.
Qed.

Lemma getFirstSegment_of_segment seg :
  no_slash seg → seg ≠ "" → getFirstSegment ("/" +:+ seg) = "/" +:+ seg.
Proof.
  intros Hns Hne. unfold getFirstSegment.
  change ("/" +:+ seg) with (String "/" seg). cbn [split_slash].
  rewrite decide_True by done. rewrite split_slash_whole by done.
  rewrite filter_cons_False by (by intros ?).
  by rewrite filter_cons_True.
Qed.

(** X16: the segment key of a label is [/] followed by a non-empty segment
    without [/], or the label itself when the label has no such segment;
    taking the segment key of a segment key changes nothing. *)
Theorem X16_first_segment_idempotent path :
  ((∃ seg, getFirstSegment path = "/" +:+ seg ∧ no_slash seg ∧ seg ≠ "")
   ∨ (getFirstSegment path = path
      ∧ Forall (λ w, w = "") (split_slash path)))
  ∧ getFirstSegment (getFirstSegment path) = getFirstSegment path.
Proof.
  assert (Hcases : (∃ seg, getFirstSegment path = "/" +:+ seg ∧ no_slash seg ∧ seg ≠ "")
                   ∨ (getFirstSegment path = path
                      ∧ Forall (λ w, w = "") (split_slash path))).
  { unfold getFirstSegment.
    destruct (filter (λ w, w ≠ "") (split_slash path)) as [|seg segs] eqn:Hf.
    - right. split; [done|]. apply Forall_forall. intros w Hw.
      destruct (decide (w = "")) as [|Hne]; [done|].
      assert (Hin : w ∈ filter (λ w, w ≠ "") (split_slash path))
        by (by apply list_elem_of_filter).
      rewrite Hf in Hin. by apply elem_of_nil in Hin.
    - left. exists seg. split; [done|].
      assert (Hin : seg ∈ filter (λ w, w ≠ "") (split_slash path))
        by (rewrite Hf; left).
      apply list_elem_of_filter in Hin as [Hne Hin]. split; [|done].
      pose proof (split_slash_no_slash path) as Hall.
      rewrite Forall_forall in Hall. by apply Hall. }
  split; [done|].
  destruct Hcases as [(seg & -> & Hns & Hne)|[Heq _]].
  - by apply getFirstSegment_of_segment.
  - by rewrite !Heq.
Qed.

(** ** Link tooltip *)

Lemma foldl_add_sumZ z (vs : list Z) : foldl Z.add z vs = z + sumZ vs.
Proof.
  revert z. induction vs as [|v vs IH]; intros z.
  - unfold sumZ. simpl. lia.
  - cbn [foldl]. rewrite IH, sumZ_cons. lia.
Qed.

Lemma totalValue_sumZ g : totalValue g = sumZ (Link.value <$> links g).
Proof. unfold totalValue. rewrite foldl_add_sumZ. lia. Qed.

(** X17: when no considered journey has a negative count and some link of
    the finished graph has a positive value, the total of the link values
    is positive and the percentage shown for a link is its share of that
    total: a number between 0 and 100, and not smaller for a link of larger
    value. *)
Theorem X17_link_shares js cutoff :
  let g := SankeyDiagram js cutoff in
  Forall (λ j, 0 ≤ Journey.count j) (slice0 js cutoff) →
  (∃ l, l ∈ links g ∧ 0 < Link.value l) →
  0 < totalValue g
  ∧ (∀ l, l ∈ links g →
       ∃ share, link_percentage g l = Some share ∧ (0 <= share)%Q ∧ (share <= 100)%Q)
  ∧ (∀ l1 l2 s1 s2, link_percentage g l1 = Some s1 → link_percentage g l2 = Some s2 →
       Link.value l1 ≤ Link.value l2 → (s1 <= s2)%Q).
Proof.
  intros g Hpos (l0 & Hl0 & Hv0). rewrite Forall_forall in Hpos.
  pose proof (final_values_nonneg js cutoff Hpos) as Hnn. fold g in Hnn.
  assert (Hvs : Forall (λ x, 0 ≤ x) (Link.value <$> links g)) by (by apply Forall_fmap).
  assert (Ht : 0 < totalValue g).
  { rewrite totalValue_sumZ.
    pose proof (sumZ_elem_le _ _ Hvs (list_elem_of_fmap_2 Link.value _ _ Hl0)). lia. }
  assert (Htq : (0 < inject_Z (totalValue g))%Q).
  { change 0%Q with (inject_Z 0). by rewrite <-Zlt_Qlt. }
  split; [done|]. split.
  - intros l Hl. unfold link_percentage. rewrite decide_False by lia.
    eexists. split; [done|].
    assert (Hle : Link.value l ≤ totalValue g).
    { rewrite totalValue_sumZ. apply sumZ_elem_le; [done|].
      by apply list_elem_of_fmap_2. }
    assert (H0 : 0 ≤ Link.value l) by (rewrite Forall_forall in Hnn; auto).
    assert (Hq0 : (0 <= inject_Z (Link.value l))%Q).
    { change 0%Q with (inject_Z 0). by rewrite <-Zle_Qle. }
    assert (Hq1 : (inject_Z (Link.value l) <= inject_Z (totalValue g))%Q)
      by (by rewrite <-Zle_Qle).
    split.
    + apply Qmult_le_0_compat; [|done].
      apply Qle_shift_div_l; [done|]. lra.
    + assert (Hd : (inject_Z (Link.value l) / inject_Z (totalValue g) <= 1)%Q).
      { apply Qle_shift_div_r; [done|]. lra. }
      lra.
  - intros l1 l2 s1 s2. unfold link_percentage. rewrite !decide_False by lia.
    intros [= <-] [= <-] Hle.
    apply Qmult_le_compat_r; [|done].
    unfold Qdiv. apply Qmult_le_compat_r; [by rewrite <-Zle_Qle|].
    apply Qinv_le_0_compat. lra.
Qed.

(** ** Opacities while hovering *)

Lemma highlight_closed g (all : list nat) h :
  NoDup (linkId <$> links g) →
  (∀ x, x ∈ connectedLinkIds h
     ↔ ∃ k l, k ∈ all ∧ links g !! k = Some l ∧ x = linkId l) →
  (∀ k l, k ∈ all → links g !! k = Some l →
     Link.source l ∈ connectedNodeIds h ∧ Link.target l ∈ connectedNodeIds h) →
  no_dangling_highlight g h.
Proof.
  intros Hnd Hl Hn k l Hk Hop. unfold link_opacity in Hop.
  destruct (decide (_ ∈ connectedLinkIds h)) as [Hin|_]; [|discriminate].
  destruct (proj1 (Hl _) Hin) as (k' & l' & Hk' & Hl' & Heq).
  assert (k = k').
  { eapply NoDup_lookup; [exact Hnd| |]; rewrite list_lookup_fmap.
    - by rewrite Hk.
    - rewrite Hl'. simpl. f_equal. symmetry. exact Heq. }
  subst k'. assert (l' = l) as -> by congruence.
  destruct (Hn k l Hk' Hk) as [Hs Ht].
  unfold node_rect_opacity, node_text_opacity.
  by rewrite !decide_True by done.
Qed.

(** X18: when no two links of the finished graph have the same
    [source|||target] key, hovering a node or a link never leaves a link
    drawn highlighted at a node drawn dimmed: both ends of every link with
    the highlight opacity have the full opacity. *)
Theorem X18_no_dangling_highlight js cutoff nodeId d ld :
  let g := SankeyDiagram js cutoff in
  NoDup (linkId <$> links g) → links g !! d = Some ld →
  (∃ h, node_mouseenter g nodeId = Done h ∧ no_dangling_highlight g h)
  ∧ (∃ h, link_mouseenter g d = Done h ∧ no_dangling_highlight g h).
Proof.
  intros g Hnd Hd. pose proof (final_adjacency js cutoff) as Hadj. fold g in Hadj.
  split.
  - assert (Hds : Forall (λ k, (k < length (links g))%nat) (directLinks g nodeId)).
    { apply Forall_forall. intros d' (l & Hl & _)%directLinks_spec.
      by eapply lookup_lt_Some. }
    destruct (gather_spec g _ [] Hadj Hds) as (all & Hrun & _).
    assert (Hall : allConnectedLinks g nodeId = Done all) by done.
    pose proof (allConnectedLinks_valid g nodeId all Hadj Hall) as Hvalid.
    destruct (collect_spec g all (mkHighlight ∅ {[nodeId]}) Hvalid)
      as (h & Hcollect & Hlids & Hnids).
    exists h. split; [unfold node_mouseenter; by rewrite Hall|].
    apply (highlight_closed g all); [done| |].
    + intros x. rewrite Hlids. cbn [connectedLinkIds]. split; [|by right].
      intros [?%elem_of_empty|?]; done.
    + intros k l Hk Hl. split; apply Hnids; right; exists k, l; auto.
  - assert (Hlt : (d < length (links g))%nat) by (by eapply lookup_lt_Some).
    destruct (hover_list_total g d Hadj Hlt) as (ks & Hks & Hvalid & _).
    destruct (link_mouseenter_spec g d ks Hks Hvalid) as (h & Hrun & Hl & Hn).
    exists h. split; [done|].
    apply (highlight_closed g ks); [done..|].
    intros k l Hk Hlk. split; apply Hn; exists k, l; auto.
Qed.

(** * The further properties at the scenarios *)

Lemma X2_count_is_visits_witness :
  nodes (SankeyDiagram scenario_5_3 2) !! 0%nat = Some scenario_node
  ∧ Node.count scenario_node
    = sumZ ((λ j, if decide (visits scenario_node j) then Journey.count j else 0)
            <$> slice0 scenario_5_3 2).
Proof.
  assert (H : nodes (SankeyDiagram scenario_5_3 2) !! 0%nat = Some scenario_node)
    by (vm_compute; reflexivity).
  split; [exact H|]. exact (X2_count_is_visits scenario_5_3 2 0 scenario_node H).
Defined.

Lemma X3_percentage_from_considered_witness :
  nodes (SankeyDiagram scenario_5_3 2) !! 0%nat = Some scenario_node
  ∧ ∃ k j, slice0 scenario_5_3 2 !! k = Some j ∧ scenario_5_3 !! k = Some j
           ∧ matches scenario_node j
           ∧ (∀ k' j', (k' < k)%nat → scenario_5_3 !! k' = Some j'
                       → ¬ matches scenario_node j')
           ∧ Node.percentage scenario_node = Journey.percentage j.
Proof.
  assert (H : nodes (SankeyDiagram scenario_5_3 2) !! 0%nat = Some scenario_node)
    by (vm_compute; reflexivity).
  split; [exact H|].
  exact (X3_percentage_from_considered scenario_5_3 2 0 scenario_node H).
Defined.

Lemma X4_height_is_scaled_count_witness :
  Forall (λ j, 0 ≤ Journey.count j) (slice0 scenario_5_3 2)
  ∧ nodes (SankeyDiagram scenario_5_3 2) !! 0%nat = Some scenario_node
  ∧ Z.max (sum_values (links (SankeyDiagram scenario_5_3 2))
                      (Node.incomingLinks scenario_node))
          (sum_values (links (SankeyDiagram scenario_5_3 2))
                      (Node.outgoingLinks scenario_node))
    = Node.count scenario_node
  ∧ Node.height scenario_node
    = Qmax (linkWidthScale (maxLinkValue (links (SankeyDiagram scenario_5_3 2)))
                           (Node.count scenario_node))
           MIN_NODE_HEIGHT.
Proof.
  assert (H1 : Forall (λ j, 0 ≤ Journey.count j) (slice0 scenario_5_3 2))
    by (vm_compute; repeat constructor; discriminate).
  assert (H2 : nodes (SankeyDiagram scenario_5_3 2) !! 0%nat = Some scenario_node)
    by (vm_compute; reflexivity).
  split_and!; [exact H1|exact H2|..];
    apply (X4_height_is_scaled_count scenario_5_3 2 0 scenario_node H1 H2).
Defined.

Lemma X5_nodes_stacked_in_column_witness :
  nodes (SankeyDiagram scenario_5_3 2) !! 2%nat = Some scenario_node_c
  ∧ ∃ q, layer_refs (nodes (SankeyDiagram scenario_5_3 2))
                    (Node.step scenario_node_c) !! q = Some 2%nat
         ∧ (Node.y scenario_node_c
            == column_offset (nodes (SankeyDiagram scenario_5_3 2))
                 (take q (layer_refs (nodes (SankeyDiagram scenario_5_3 2))
                                     (Node.step scenario_node_c)))
               + Node.height scenario_node_c / 2)%Q.
Proof.
  assert (H : nodes (SankeyDiagram scenario_5_3 2) !! 2%nat = Some scenario_node_c)
    by (vm_compute; reflexivity).
  split; [exact H|].
  exact (X5_nodes_stacked_in_column scenario_5_3 2 2 scenario_node_c H).
Defined.


Lemma X7_nodes_fit_in_drawing_witness :
  nodes (SankeyDiagram scenario_5_3 2) !! 2%nat = Some scenario_node_c
  ∧ (minHeight <= diagramHeight scenario_5_3 2)%Q
  ∧ (top_edge scenario_node_c + Node.height scenario_node_c + verticalPadding
     < diagramHeight scenario_5_3 2)%Q.
Proof.
  assert (H : nodes (SankeyDiagram scenario_5_3 2) !! 2%nat = Some scenario_node_c)
    by (vm_compute; reflexivity).
  split; [exact H|].
  exact (X7_nodes_fit_in_drawing scenario_5_3 2 2 scenario_node_c H).
Defined.

Lemma X8_stroke_width_range_witness :
  Forall (λ j, 0 ≤ Journey.count j) (slice0 scenario_5_3 2)
  ∧ (∀ l, l ∈ links (SankeyDiagram scenario_5_3 2) →
       Link.value l ≤ maxLinkValue (links (SankeyDiagram scenario_5_3 2))
       ∧ (MIN_LINK_HEIGHT
          <= linkWidthScale (maxLinkValue (links (SankeyDiagram scenario_5_3 2)))
                            (Link.value l))%Q
       ∧ (linkWidthScale (maxLinkValue (links (SankeyDiagram scenario_5_3 2)))
                         (Link.value l)
          <= MAX_LINK_HEIGHT)%Q).
Proof.
  assert (H : Forall (λ j, 0 ≤ Journey.count j) (slice0 scenario_5_3 2))
    by (vm_compute; repeat constructor; discriminate).
  split; [exact H|]. exact (proj1 (X8_stroke_width_range scenario_5_3 2 H)).
Defined.

Lemma X9_link_path_geometry_witness :
  links (SankeyDiagram scenario_5_3 2) !! 0%nat = Some scenario_link
  ∧ ∃ pth ps s pt t,
      getLinkPath 500 (SankeyDiagram scenario_5_3 2) scenario_link = Some pth
      ∧ nodes (SankeyDiagram scenario_5_3 2) !! ps = Some s
      ∧ nodes (SankeyDiagram scenario_5_3 2) !! pt = Some t
      ∧ Node.id s = Link.source scenario_link
      ∧ Node.id t = Link.target scenario_link
      ∧ Node.step t = S (Node.step s)
      ∧ Path.sourceX pth = (node_x 500 s + nodeWidth)%Q
      ∧ Path.targetX pth = node_x 500 t
      ∧ Path.controlPoint1X pth = (Path.sourceX pth + stepSpacing 500 / 3)%Q
      ∧ Path.controlPoint2X pth = (Path.targetX pth - stepSpacing 500 / 3)%Q.
Proof.
  assert (H : links (SankeyDiagram scenario_5_3 2) !! 0%nat = Some scenario_link)
    by (vm_compute; reflexivity).
  split; [exact H|].
  exact (X9_link_path_geometry 500 scenario_5_3 2 0 scenario_link H).
Defined.

Lemma X10_link_path_uses_anchors_witness :
  Forall (λ j, 0 ≤ Journey.count j) (slice0 scenario_5_3 2)
  ∧ links (SankeyDiagram scenario_5_3 2) !! 0%nat = Some scenario_link
  ∧ 0 < Link.value scenario_link
  ∧ ∃ pth, getLinkPath 500 (SankeyDiagram scenario_5_3 2) scenario_link = Some pth
           ∧ Link.sourceY scenario_link = Some (Path.sourceY pth)
           ∧ Link.targetY scenario_link = Some (Path.targetY pth).
Proof.
  assert (H1 : Forall (λ j, 0 ≤ Journey.count j) (slice0 scenario_5_3 2))
    by (vm_compute; repeat constructor; discriminate).
  assert (H2 : links (SankeyDiagram scenario_5_3 2) !! 0%nat = Some scenario_link)
    by (vm_compute; reflexivity).
  assert (H3 : 0 < Link.value scenario_link) by (vm_compute; reflexivity).
  split_and!; [exact H1|exact H2|exact H3|].
  exact (X10_link_path_uses_anchors 500 scenario_5_3 2 0 scenario_link H1 H2 H3).
Defined.

Lemma X11_link_hover_witness :
  links (SankeyDiagram scenario_5_3 2) !! 0%nat = Some scenario_link
  ∧ ∃ ks h,
      hover_list (SankeyDiagram scenario_5_3 2) 0 ks
      ∧ link_mouseenter (SankeyDiagram scenario_5_3 2) 0 = Done h
      ∧ linkId scenario_link ∈ connectedLinkIds h.
Proof.
  assert (H : links (SankeyDiagram scenario_5_3 2) !! 0%nat = Some scenario_link)
    by (vm_compute; reflexivity).
  split; [exact H|].
  destruct (X11_link_hover scenario_5_3 2 0 scenario_link H)
    as (ks & h & H1 & H2 & H3 & _).
  exact (ex_intro _ ks (ex_intro _ h (conj H1 (conj H2 H3)))).
Defined.

Lemma X13_isolated_node_hover_witness :
  Forall (λ l, Link.source l ≠ "0_/x" ∧ Link.target l ≠ "0_/x")
         (links (SankeyDiagram single_step_scenario 2))
  ∧ node_mouseenter (SankeyDiagram single_step_scenario 2) "0_/x"
    = Done (mkHighlight ∅ {["0_/x"]}).
Proof.
  assert (H : Forall (λ l, Link.source l ≠ "0_/x" ∧ Link.target l ≠ "0_/x")
                     (links (SankeyDiagram single_step_scenario 2)))
    by (vm_compute; repeat constructor; discriminate).
  split; [exact H|].
  exact (X13_isolated_node_hover (SankeyDiagram single_step_scenario 2) "0_/x" H).
Defined.

Lemma X14_traversals_meet_at_seed_witness :
  links (SankeyDiagram scenario_5_3 2) !! 0%nat = Some scenario_link
  ∧ ∃ f b, findAllConnectedPaths (SankeyDiagram scenario_5_3 2) 0 forward = Done f
           ∧ findAllConnectedPaths (SankeyDiagram scenario_5_3 2) 0 backward = Done b
           ∧ 0%nat ∈ f ∧ 0%nat ∈ b ∧ NoDup f ∧ NoDup b
           ∧ (∀ k, k ∈ f → k ∈ b → k = 0%nat).
Proof.
  assert (H : links (SankeyDiagram scenario_5_3 2) !! 0%nat = Some scenario_link)
    by (vm_compute; reflexivity).
  split; [exact H|].
  exact (X14_traversals_meet_at_seed scenario_5_3 2 0 scenario_link H).
Defined.

Lemma X15_mouseleave_restores_stroke_witness :
  links (SankeyDiagram scenario_5_3 2) !! 0%nat = Some scenario_link
  ∧ mouseleave_stroke "gray" (SankeyDiagram scenario_5_3 2) (Link.source scenario_link)
    = getLinkColor "gray" (SankeyDiagram scenario_5_3 2) scenario_link.
Proof.
  assert (H : links (SankeyDiagram scenario_5_3 2) !! 0%nat = Some scenario_link)
    by (vm_compute; reflexivity).
  split; [exact H|].
  exact (X15_mouseleave_restores_stroke "gray" (SankeyDiagram scenario_5_3 2)
           0 scenario_link H).
Defined.

Lemma X17_link_shares_witness :
  Forall (λ j, 0 ≤ Journey.count j) (slice0 scenario_5_3 2)
  ∧ (∃ l, l ∈ links (SankeyDiagram scenario_5_3 2) ∧ 0 < Link.value l)
  ∧ 0 < totalValue (SankeyDiagram scenario_5_3 2)
  ∧ (∀ l, l ∈ links (SankeyDiagram scenario_5_3 2) →
       ∃ share, link_percentage (SankeyDiagram scenario_5_3 2) l = Some share
                ∧ (0 <= share)%Q ∧ (share <= 100)%Q).
Proof.
  assert (H1 : Forall (λ j, 0 ≤ Journey.count j) (slice0 scenario_5_3 2))
    by (vm_compute; repeat constructor; discriminate).
  assert (H2 : ∃ l, l ∈ links (SankeyDiagram scenario_5_3 2) ∧ 0 < Link.value l).
  { exists scenario_link. split; [|vm_compute; reflexivity].
    apply (list_elem_of_lookup_2 _ 0%nat). vm_compute. reflexivity. }
  split_and!; [exact H1|exact H2|..];
    apply (X17_link_shares scenario_5_3 2 H1 H2).
Defined.

Lemma X18_no_dangling_highlight_witness :
  NoDup (linkId <$> links (SankeyDiagram scenario_5_3 2))
  ∧ links (SankeyDiagram scenario_5_3 2) !! 0%nat = Some scenario_link
  ∧ (∃ h, node_mouseenter (SankeyDiagram scenario_5_3 2) "0_/a" = Done h
          ∧ no_dangling_highlight (SankeyDiagram scenario_5_3 2) h)
  ∧ (∃ h, link_mouseenter (SankeyDiagram scenario_5_3 2) 0 = Done h
          ∧ no_dangling_highlight (SankeyDiagram scenario_5_3 2) h).
Proof.
  assert (H1 : NoDup (linkId <$> links (SankeyDiagram scenario_5_3 2))).
  { apply (bool_decide_unpack _). vm_compute. exact I. }
  assert (H2 : links (SankeyDiagram scenario_5_3 2) !! 0%nat = Some scenario_link)
    by (vm_compute; reflexivity).
  split_and!; [exact H1|exact H2|..];
    apply (X18_no_dangling_highlight scenario_5_3 2 "0_/a" 0 scenario_link H1 H2).
Defined.

(** * Further scenarios *)

(** A journey of a single step creates its node and no link, and is not
    counted at that node. *)
Example single_step_not_counted :
  let g := SankeyDiagram [Journey.mk ["/a"] 7 (175 # 3);
                          Journey.mk ["/a"; "/b"] 5 (125 # 3)] 2 in
  (λ n, (Node.name n, Node.step n, Node.count n)) <$> nodes g
  = [("/a", 0%nat, 5); ("/b", 1%nat, 5)].
Proof. by vm_compute. Qed.

(** With no node there is no column, and the drawing has the minimum
    height. *)
Example empty_diagram_height : diagramHeight [] 5 = minHeight.
Proof. by vm_compute. Qed.

(** A link of value 0 at the top of the first node of a column has the
    anchor 0, which is falsy: its path starts at the centre of the node. *)
Example zero_link_starts_at_centre :
  let g := SankeyDiagram zero_count_scenario 1 in
  Link.sourceY <$> links g !! 0%nat = Some (Some (0 # 8)%Q)
  ∧ Path.sourceY <$> (links g !! 0%nat ≫= getLinkPath 500 g)
    = Node.y <$> nodes g !! 0%nat.
Proof. by vm_compute. Qed.

(** When two links have the same key, the one that the traversal did not
    record is drawn highlighted all the same, and its ends are not: hovering
    the link [t -> x] highlights the link [x|||3_y -> z] between two dimmed
    nodes. *)
Example key_collision_dangling_highlight :
  let g := SankeyDiagram collision_scenario 2 in
  bind (link_mouseenter g 1)
       (λ h, Done (link_opacity h "2_x|||3_y" "3_z",
                   node_rect_opacity h "2_x|||3_y", node_rect_opacity h "3_z"))
  = Done (6 # 10, 2 # 10, 2 # 10)%Q.
Proof. by vm_compute. Qed.

(** Two labels under the same first component share a key, whatever
    follows it. *)
Example segment_key_shared :
  getFirstSegment "/blog/x" = "/blog" ∧ getFirstSegment "/blog/y" = "/blog"
  ∧ first_component "/blog/x" "blog".
Proof.
  split_and!; [done..|]. exists "/", "/x". split_and!; [done..|]. right. eauto.
Qed.

(** With colliding keys the highlight crosses components: hovering [p]
    lists the links [p -> x] and [x -> y|||2_z]; the link [x|||2_y -> z] of
    the other journey has the key of the second one and is drawn
    highlighted, between two dimmed nodes that are not connected to [p]. *)
Example key_collision_crosses_components :
  let g := SankeyDiagram crossing_scenario 2 in
  allConnectedLinks g "0_p" = Done [0; 0; 1; 0]%nat
  ∧ bind (node_mouseenter g "0_p")
         (λ h, Done ((λ l, link_opacity h (Link.source l) (Link.target l))
                       <$> links g,
                     node_rect_opacity h <$> ["0_q"; "1_x|||2_y"; "2_z"]))
    = Done ([6 # 10; 6 # 10; 1 # 10; 6 # 10], [2 # 10; 2 # 10; 2 # 10])%Q
  ∧ ¬ weakly_connected g "0_p" "1_x|||2_y"
  ∧ ¬ weakly_connected g "0_p" "2_z".
Proof.
  intros g. subst g. split_and!; [by vm_compute..| |].
  all: assert (Hclosed : ∀ x, weakly_connected (SankeyDiagram crossing_scenario 2) "0_p" x →
               x ∈ ["0_p"; "1_x"; "2_y|||2_z"]);
    [|intros Hwc%Hclosed; rewrite !elem_of_cons, elem_of_nil in Hwc; naive_solver].
  all: apply rtc_ind_r; [by left|].
  all: intros a b _ (k & l & Hl & Hends) Ha.
  all: assert (Hkey : link_key l ∈ link_key <$> links (SankeyDiagram crossing_scenario 2))
         by (apply list_elem_of_fmap_2; by eapply list_elem_of_lookup_2).
  all: vm_compute (link_key <$> links (SankeyDiagram crossing_scenario 2)) in Hkey.
  all: unfold link_key in Hkey. cbv beta in Ha |- *.
  all: rewrite !elem_of_cons, elem_of_nil in Hkey.
  all: rewrite !elem_of_cons, elem_of_nil in Ha.
  all: rewrite !elem_of_cons, elem_of_nil.
  all: destruct Hkey as [Hk|[Hk|[Hk|[Hk|[]]]]]; injection Hk as Hs Ht.
  all: destruct Hends as [[E1 E2]|[E1 E2]]; rewrite Hs in E1; rewrite Ht in E2.
  all: subst a b.
  all: destruct Ha as [Ha|[Ha|[Ha|[]]]]; try discriminate Ha.
  all: first [left; reflexivity|right; left; reflexivity
             |right; right; left; reflexivity].
Qed.

(** * Rounding in the double arithmetic of the code

    What the exact reading of the layout formulas would give and the
    doubles of the code do not, at explicit inputs; and that the properties
    above hold of the doubles at those inputs. *)

(** With counts 6, 5 and 0 out of one node the thicknesses of a side add up
    to more than the height of the node, yet no link is thicker than the
    node is high and no anchor lies above its top edge. *)
Example rounding_links_within :
  let g := build rounding_scenario 3 in
  let mx := maxLinkValue (links g) in
  let lay := Dbl.layout rounding_scenario 3 in
  Dbl.at_ref (Dbl.heights lay) 0 = Dbl.Math_max (Dbl.linkWidthScale mx 11) 2
  ∧ (λ k, (Dbl.linkWidthScale mx (link_value (links g) k)
           <=? Dbl.at_ref (Dbl.heights lay) 0)%float) <$> [0; 1; 2]%nat
    = [true; true; true]
  ∧ (λ y, (Dbl.top_edge lay 0 <=? default 0%float y)%float) <$> Dbl.sourceYs lay
    = [true; true; true].
Proof. by vm_compute. Qed.

(** With counts 7 and 4 the second node of layer 1 has its top edge at
    119.99999999999999, less than one node gap under the bottom edge 100 of
    the first node; the two nodes do not overlap. *)
Example rounding_top_edge :
  let lay := Dbl.layout (fork_scenario 7 4) 2 in
  (Dbl.top_edge lay 2
   <? Dbl.top_edge lay 1 + Dbl.at_ref (Dbl.heights lay) 1 + Dbl.nodeGap)%float = true
  ∧ (Dbl.top_edge lay 1 + Dbl.at_ref (Dbl.heights lay) 1 <? Dbl.top_edge lay 2)%float
    = true.
Proof. by vm_compute. Qed.

(** With counts 9 and 8 the bottom edge of the last node of layer 1 plus
    twice the vertical padding is more than the height of the drawing, by
    one unit in the last place; with the padding once it is less. *)
Example rounding_drawing_height :
  let lay := Dbl.layout (fork_scenario 9 8) 2 in
  let bottom := (Dbl.top_edge lay 2 + Dbl.at_ref (Dbl.heights lay) 2)%float in
  (Dbl.diagramHeight (fork_scenario 9 8) 2 <? bottom + Dbl.verticalPadding * 2)%float
  = true
  ∧ (bottom + Dbl.verticalPadding <? Dbl.diagramHeight (fork_scenario 9 8) 2)%float
    = true.
Proof. by vm_compute. Qed.

(** With a width of 1000 and 7 steps, the path of a link from layer 2 to
    layer 3 spans less than [stepSpacing]. *)
Example rounding_path_span :
  let '(sourceX, _, _, targetX) := Dbl.path_xs 1000 7 2 3 in
  (targetX - sourceX <? Dbl.num 1000 / Dbl.num 7 - Dbl.nodeWidth)%float = true.
Proof. by vm_compute. Qed.

(** Three links of value 1 have the share 33.33333333333333 each, and the
    three shares add up to less than 100. *)
Example rounding_shares :
  let g := SankeyDiagram
             [ Journey.mk ["/a"; "/b"] 1 0; Journey.mk ["/a"; "/c"] 1 0;
               Journey.mk ["/a"; "/d"] 1 0 ] 3 in
  (foldl (λ sum l, sum + Dbl.link_percentage g l)%float 0%float (links g) <? 100)%float
  = true.
Proof. by vm_compute. Qed.
